(** * gh-prview: thread reconstruction and timeline merge

    A shallow embedding of the review-thread grouping ([groupIntoThreads]),
    the review annotation done by [LoadPR] and the timeline merge done by
    [RenderPR], together with the properties the specification states about
    them.  The rest of the two source files is embedded as well, the fetch
    functions of api.go, [LoadPR] as a whole and the rendering functions of
    prview.go, with further properties of that code.

    Conventions.
    - [int64] identifiers are integers of [Z]; the code only compares and
      copies them, so no arithmetic on them can wrap.
    - [int] counters are 64-bit: the counters the code increments
      ([replyCountByReview], the check tallies) wrap through [wrapInt].
    - A [time.Time] is the instant it denotes, an integer of [Z];
      [Time.Before] is the strict order on instants.
    - A nullable pointer ([*int64], [*Comment]) is an [option].
    - A Go map is a [gmap]; a missing key reads as the zero value.
    - A Go string is a [string], a sequence of bytes; the verb [%d] of
      [fmt] is [pretty].
    - [sort.Slice] belongs to Go's standard library, not to this
      repository.  It is a parameter of the program ([SliceSorter]); the
      theorems assume of it what its documentation promises
      ([SorterContract]).  Its implementation is modelled as well
      ([goSorter]), to show what it does with ties.
    - The REST client of go-gh, [repository.Current] and [Time.Format] are
      parameters too ([RESTClient], [Environment], [TimeFormat]), and so
      is [GetCurrentPR], which runs git and reads untyped JSON.
    - A fetch or rendering function that can index or slice returns an
      [option]: [None] is a run-time panic.  For [LoadPR] it is also the
      walk of [groupIntoThreads] that outlasts its fuel. *)

From Stdlib Require Import ZArith Lia Ascii.
From stdpp Require Import gmap strings list sorting relations pretty.

Local Open Scope Z_scope.

(** ** Data model (api.go) *)

Definition Time := Z.

Definition Before (t u : Time) : bool := t <? u.

Record User := { Login : string }.

Record Comment := {
  Comment_ID : Z;
  Comment_Body : string;
  Comment_CreatedAt : Time;
  Comment_User : User;
  Comment_DiffHunk : string;
  Comment_Path : string;
  Comment_CommitID : string;
  Comment_OriginalCommitID : string;
  Comment_Line : option Z;
  Comment_OriginalLine : option Z;
  Comment_InReplyToID : option Z;
  Comment_PullRequestReviewID : Z
}.

Record CommentThread := { Comments : list Comment }.

Record Review := {
  Review_ID : Z;
  Review_Body : string;
  Review_State : string;
  Review_SubmittedAt : Time;
  Review_User : User;
  Review_Threads : list CommentThread;
  Review_ReplyCount : Z
}.

Record CheckCounts := {
  Succeeded : Z;
  Failed : Z;
  Pending : Z;
  Skipped : Z
}.

Record Commit := {
  Commit_SHA : string;
  Commit_Message : string;
  Commit_Author : User;
  Commit_Checks : CheckCounts;
  Commit_CreatedAt : Time
}.

Record PullRequest := {
  PR_Number : Z;
  PR_Title : string;
  PR_Body : string;
  PR_CreatedAt : Time;
  PR_User : User;
  PR_Comments : list Comment;
  PR_Reviews : list Review;
  PR_Commits : list Commit
}.

(** The timeline item of prview.go: a type tag, the ordering key and one
    pointer per variant, of which the two that do not apply stay nil. *)
Record TimelineItem := {
  Type_ : string;
  CreatedAt : Time;
  Item_Comment : option Comment;
  Item_Review : option Review;
  Item_Commit : option Commit
}.

#[global] Instance User_eq_dec : EqDecision User.
Proof. solve_decision. Defined.

#[global] Instance Comment_eq_dec : EqDecision Comment.
Proof. solve_decision. Defined.

#[global] Instance CommentThread_eq_dec : EqDecision CommentThread.
Proof. solve_decision. Defined.

(** ** [sort.Slice]

    The comparison functions of this program read the slice elements at the
    two indices and nothing else, so a comparison is a function of two
    elements.  [sort.Slice] requires of it what [sort.Interface] requires of
    [Less]: a transitive ordering in which "neither is less" is transitive
    as well. *)

Record StrictWeakOrder {A : Type} (less : A → A → bool) : Prop := {
  swo_irrefl : ∀ x, less x x = false;
  swo_trans : ∀ x y z, less x y = true → less y z = true → less x z = true;
  swo_negtrans : ∀ x y z, less x y = false → less y z = false → less x z = false
}.

(** After sorting, no element is less than one that stands before it. *)
Definition notAfter {A : Type} (less : A → A → bool) : relation A :=
  λ a b, less b a = false.

(** [sort.Slice(x, less)], from the slice before to the slice after. *)
Class SliceSorter := {
  sortSlice : ∀ {A : Type}, (A → A → bool) → list A → list A
}.

(** What the documentation of [sort.Slice] promises: the slice is
    rearranged (nothing added, nothing lost) and ends up in order.  It
    promises no stability: equal elements may be reversed. *)
Class SorterContract (sorter : SliceSorter) : Prop := {
  sortSlice_perm : ∀ (A : Type) (less : A → A → bool) (l : list A),
    sortSlice less l ≡ₚ l;
  sortSlice_sorted : ∀ (A : Type) (less : A → A → bool) (l : list A),
    StrictWeakOrder less → Sorted (notAfter less) (sortSlice less l)
}.

(** Two elements are tied when neither is less than the other. *)
Definition tied {A : Type} (less : A → A → bool) (x y : A) : bool :=
  negb (less x y) && negb (less y x).

(** A sorter is stable when the elements tied with any given one come out
    in the order they went in. *)
Definition StableSorter (sorter : SliceSorter) : Prop :=
  ∀ (A : Type) (less : A → A → bool) (l : list A) (x : A),
    StrictWeakOrder less →
    filter (λ y, tied less x y = true) (sortSlice less l)
    = filter (λ y, tied less x y = true) l.

(** Insertion sort as the standard library runs it on short slices: element
    [i] moves left while it is less than its left neighbour.  The sorted
    prefix is kept reversed, so that its last element is the head. *)
Fixpoint insertLeft {A : Type} (less : A → A → bool) (x : A) (revPrefix : list A)
  : list A :=
  match revPrefix with
  | [] => [x]
  | y :: rest =>
      if less x y then y :: insertLeft less x rest else x :: y :: rest
  end.

Definition insertionSort {A : Type} (less : A → A → bool) (l : list A) : list A :=
  reverse (foldl (λ revPrefix x, insertLeft less x revPrefix) [] l).

(** A sorter that meets the documented contract and reverses ties: the
    slice is walked from its far end. *)
Definition backwardSort {A : Type} (less : A → A → bool) (l : list A) : list A :=
  insertionSort less (reverse l).

Definition insertionSorter : SliceSorter := {| sortSlice := @insertionSort |}.

Definition backwardSorter : SliceSorter := {| sortSlice := @backwardSort |}.

(** *** The implementation behind [sort.Slice]

    [sort.Slice] hands the slice to [pdqsort_func] of the standard library
    (package sort, from Go 1.19 on).  The functions below follow it with
    the slice passed in and out, indices as [nat], and fuel for the loops
    that are not counted: every loop of the original moves an index towards
    a bound, and the fuel given is that bound.  The pseudo-random generator
    of [breakPatterns_func] ([xorshift.Next]) is the parameter [next]. *)

Inductive sortedHint := unknownHint | increasingHint | decreasingHint.

(** [bits.Len(uint(n))] *)
Definition bitsLen (n : nat) : nat :=
  if (n =? 0)%nat then 0%nat else S (Nat.log2 n).

Section GoSort.
Local Open Scope nat_scope.
Context {A : Type} (less : A → A → bool) (next : Z → Z).

(** [data.Less(i, j)]; the algorithm passes indices inside the slice. *)
Definition lessAt (data : list A) (i j : nat) : bool :=
  match data !! i, data !! j with
  | Some x, Some y => less x y
  | _, _ => false
  end.

(** [data.Swap(i, j)] *)
Definition swapAt (data : list A) (i j : nat) : list A :=
  match data !! i, data !! j with
  | Some x, Some y => <[j := x]> (<[i := y]> data)
  | _, _ => data
  end.

(** [for j := i; j > a && data.Less(j, j-1); j-- { data.Swap(j, j-1) }] *)
Fixpoint sinkLeft (a j : nat) (data : list A) : list A :=
  match j with
  | O => data
  | S j' =>
      if (a <? j) && lessAt data j j' then sinkLeft a j' (swapAt data j j') else data
  end.

(** [for i := a + 1; i < b; i++], with [todo] turns to go. *)
Fixpoint insertionLoop (a i todo : nat) (data : list A) : list A :=
  match todo with
  | O => data
  | S todo' => insertionLoop a (S i) todo' (sinkLeft a i data)
  end.

Definition insertionSort_func (data : list A) (a b : nat) : list A :=
  insertionLoop a (a + 1) (b - (a + 1)) data.

Fixpoint siftDown_func (fuel : nat) (data : list A) (root hi first : nat) : list A :=
  match fuel with
  | O => data
  | S fuel' =>
      let child := 2 * root + 1 in
      if hi <=? child then data
      else
        let child :=
          if (child + 1 <? hi) && lessAt data (first + child) (first + child + 1)
          then child + 1 else child in
        if negb (lessAt data (first + root) (first + child)) then data
        else siftDown_func fuel' (swapAt data (first + root) (first + child))
                           child hi first
  end.

(** [for i := (hi - 1) / 2; i >= 0; i-- { siftDown(data, i, hi, first) }] *)
Fixpoint heapify (data : list A) (i hi first : nat) : list A :=
  let data := siftDown_func hi data i hi first in
  match i with
  | O => data
  | S i' => heapify data i' hi first
  end.

(** [for i := hi - 1; i >= 0; i--]: swap the top out, sift down. *)
Fixpoint popAll (data : list A) (i first : nat) : list A :=
  let data := siftDown_func i (swapAt data first (first + i)) 0 i first in
  match i with
  | O => data
  | S i' => popAll data i' first
  end.

Definition heapSort_func (data : list A) (a b : nat) : list A :=
  let first := a in
  let hi := b - a in
  let data := heapify data ((hi - 1) / 2) hi first in
  if hi =? 0 then data else popAll data (hi - 1) first.

(** [1 << bits.Len(uint(length))] *)
Definition nextPowerOfTwo (length : nat) : Z := (2 ^ Z.of_nat (bitsLen length))%Z.

(** The three swaps of [breakPatterns_func]: the elements at [idx],
    [idx + 1] and [idx + 2] change places with elements picked by the
    generator. *)
Fixpoint scatter (todo i : nat) (random modulus : Z) (idx a length : nat)
    (data : list A) : list A :=
  match todo with
  | O => data
  | S todo' =>
      let random := next random in
      let other := Z.to_nat (Z.land random (modulus - 1)) in
      let other := if length <=? other then other - length else other in
      scatter todo' (S i) random modulus idx a length
              (swapAt data (idx + i) (a + other))
  end.

Definition breakPatterns_func (data : list A) (a b : nat) : list A :=
  let length := b - a in
  if 8 <=? length then
    let idx := a + (length / 4) * 2 - 1 in
    scatter 3 0 (Z.of_nat length) (nextPowerOfTwo length) idx a length data
  else data.

Definition order2_func (data : list A) (a b swaps : nat) : nat * nat * nat :=
  if lessAt data b a then (b, a, S swaps) else (a, b, swaps).

Definition median_func (data : list A) (a b c swaps : nat) : nat * nat :=
  let '(a, b, swaps) := order2_func data a b swaps in
  let '(b, c, swaps) := order2_func data b c swaps in
  let '(a, b, swaps) := order2_func data a b swaps in
  (b, swaps).

Definition medianAdjacent_func (data : list A) (a swaps : nat) : nat * nat :=
  median_func data (a - 1) a (a + 1) swaps.

Definition choosePivot_func (data : list A) (a b : nat) : nat * sortedHint :=
  let l := b - a in
  let i := a + l / 4 * 1 in
  let j := a + l / 4 * 2 in
  let k := a + l / 4 * 3 in
  let '(j, swaps) :=
    if 8 <=? l then
      let '(i, j, k, swaps) :=
        if 50 <=? l then
          let '(i, swaps) := medianAdjacent_func data i 0 in
          let '(j, swaps) := medianAdjacent_func data j swaps in
          let '(k, swaps) := medianAdjacent_func data k swaps in
          (i, j, k, swaps)
        else (i, j, k, 0) in
      median_func data i j k swaps
    else (j, 0) in
  if swaps =? 0 then (j, increasingHint)
  else if swaps =? 4 * 3 then (j, decreasingHint)
  else (j, unknownHint).

Fixpoint reverseLoop (fuel i j : nat) (data : list A) : list A :=
  match fuel with
  | O => data
  | S fuel' =>
      if i <? j then reverseLoop fuel' (S i) (j - 1) (swapAt data i j) else data
  end.

Definition reverseRange_func (data : list A) (a b : nat) : list A :=
  reverseLoop (b - a) a (b - 1) data.

(** [for i < b && !data.Less(i, i-1) { i++ }] *)
Fixpoint skipOrdered (fuel : nat) (data : list A) (i b : nat) : nat :=
  match fuel with
  | O => i
  | S fuel' =>
      if (i <? b) && negb (lessAt data i (i - 1)) then skipOrdered fuel' data (S i) b
      else i
  end.

(** [for j := i - 1; j >= 1; j--]: shift the smaller one to the left. *)
Fixpoint shiftLeft (data : list A) (j : nat) : list A :=
  match j with
  | O => data
  | S j' => if negb (lessAt data j j') then data else shiftLeft (swapAt data j j') j'
  end.

(** [for j := i + 1; j < b; j++]: shift the greater one to the right. *)
Fixpoint shiftRight (todo : nat) (data : list A) (j : nat) : list A :=
  match todo with
  | O => data
  | S todo' =>
      if negb (lessAt data j (j - 1)) then data
      else shiftRight todo' (swapAt data j (j - 1)) (S j)
  end.

Fixpoint partialInsertionLoop (steps : nat) (data : list A) (a b i : nat)
  : list A * bool :=
  match steps with
  | O => (data, false)
  | S steps' =>
      let i := skipOrdered b data i b in
      if i =? b then (data, true)
      else if b - a <? 50 then (data, false)
      else
        let data := swapAt data i (i - 1) in
        let data := if 2 <=? i - a then shiftLeft data (i - 1) else data in
        let data :=
          if 2 <=? b - i then shiftRight (b - (i + 1)) data (i + 1) else data in
        partialInsertionLoop steps' data a b i
  end.

Definition partialInsertionSort_func (data : list A) (a b : nat) : list A * bool :=
  partialInsertionLoop 5 data a b (a + 1).

(** [for i <= j && data.Less(i, a) { i++ }] *)
Fixpoint scanUp (fuel : nat) (data : list A) (a i j : nat) : nat :=
  match fuel with
  | O => i
  | S fuel' => if (i <=? j) && lessAt data i a then scanUp fuel' data a (S i) j else i
  end.

(** [for i <= j && !data.Less(j, a) { j-- }] *)
Fixpoint scanDown (fuel : nat) (data : list A) (a i j : nat) : nat :=
  match fuel with
  | O => j
  | S fuel' =>
      if (i <=? j) && negb (lessAt data j a) then scanDown fuel' data a i (j - 1) else j
  end.

Fixpoint partitionLoop (fuel : nat) (data : list A) (a b i j : nat) : list A * nat :=
  match fuel with
  | O => (data, j)
  | S fuel' =>
      let i := scanUp b data a i j in
      let j := scanDown b data a i j in
      if j <? i then (data, j)
      else partitionLoop fuel' (swapAt data i j) a b (S i) (j - 1)
  end.

Definition partition_func (data : list A) (a b pivot : nat) : list A * nat * bool :=
  let data := swapAt data a pivot in
  let i := a + 1 in
  let j := b - 1 in
  let i := scanUp b data a i j in
  let j := scanDown b data a i j in
  if j <? i then (swapAt data j a, j, true)
  else
    let data := swapAt data i j in
    let '(data, j) := partitionLoop b data a b (S i) (j - 1) in
    (swapAt data j a, j, false).

(** [for i <= j && !data.Less(a, i) { i++ }] *)
Fixpoint scanUpEqual (fuel : nat) (data : list A) (a i j : nat) : nat :=
  match fuel with
  | O => i
  | S fuel' =>
      if (i <=? j) && negb (lessAt data a i) then scanUpEqual fuel' data a (S i) j else i
  end.

(** [for i <= j && data.Less(a, j) { j-- }] *)
Fixpoint scanDownGreater (fuel : nat) (data : list A) (a i j : nat) : nat :=
  match fuel with
  | O => j
  | S fuel' =>
      if (i <=? j) && lessAt data a j then scanDownGreater fuel' data a i (j - 1) else j
  end.

Fixpoint partitionEqualLoop (fuel : nat) (data : list A) (a b i j : nat)
  : list A * nat :=
  match fuel with
  | O => (data, i)
  | S fuel' =>
      let i := scanUpEqual b data a i j in
      let j := scanDownGreater b data a i j in
      if j <? i then (data, i)
      else partitionEqualLoop fuel' (swapAt data i j) a b (S i) (j - 1)
  end.

Definition partitionEqual_func (data : list A) (a b pivot : nat) : list A * nat :=
  let data := swapAt data a pivot in
  partitionEqualLoop b data a b (a + 1) (b - 1).

(** The outer [for] of [pdqsort_func] and its recursive calls; each turn
    and each call works on a strictly shorter range.  [wasBalanced] and
    [wasPartitioned] are the locals of the running call, [true] in a fresh
    one. *)
Fixpoint pdqsort_func (fuel : nat) (data : list A) (a b limit : nat)
    (wasBalanced wasPartitioned : bool) : list A :=
  match fuel with
  | O => data
  | S fuel' =>
      let length := b - a in
      if length <=? 12 then insertionSort_func data a b
      else if limit =? 0 then heapSort_func data a b
      else
        let '(data, limit) :=
          if wasBalanced then (data, limit)
          else (breakPatterns_func data a b, limit - 1) in
        let '(pivot, hint) := choosePivot_func data a b in
        let '(data, pivot, hint) :=
          match hint with
          | decreasingHint =>
              (reverseRange_func data a b, (b - 1) - (pivot - a), increasingHint)
          | _ => (data, pivot, hint)
          end in
        let '(data, sorted) :=
          match hint with
          | increasingHint =>
              if wasBalanced && wasPartitioned
              then partialInsertionSort_func data a b
              else (data, false)
          | _ => (data, false)
          end in
        if sorted then data
        else if (0 <? a) && negb (lessAt data (a - 1) pivot) then
          let '(data, mid) := partitionEqual_func data a b pivot in
          pdqsort_func fuel' data mid b limit wasBalanced wasPartitioned
        else
          let '(data, mid, alreadyPartitioned) := partition_func data a b pivot in
          let leftLen := mid - a in
          let rightLen := b - mid in
          let balanceThreshold := length / 8 in
          if leftLen <? rightLen then
            let data := pdqsort_func fuel' data a mid limit true true in
            pdqsort_func fuel' data (mid + 1) b limit
                         (balanceThreshold <=? leftLen) alreadyPartitioned
          else
            let data := pdqsort_func fuel' data (mid + 1) b limit true true in
            pdqsort_func fuel' data a mid limit
                         (balanceThreshold <=? rightLen) alreadyPartitioned
  end.

(** [sort.Slice(x, less)] *)
Definition Slice (x : list A) : list A :=
  let length := length x in
  let limit := bitsLen length in
  pdqsort_func (S length) x 0 length limit true true.
End GoSort.

(** [sort.Slice] as the standard library has it. *)
Definition goSorter (next : Z → Z) : SliceSorter :=
  {| sortSlice := λ A less, Slice less next |}.

(** ** Thread resolution (prview.go, [groupIntoThreads]) *)

(** [commentByID[comments[i].ID] = &comments[i]]: a later comment with the
    same id replaces an earlier one. *)
Definition commentByID (comments : list Comment) : gmap Z Comment :=
  foldl (λ m c, <[Comment_ID c := c]> m) ∅ comments.

(** One turn of the inner [for]: [None] is [break], [Some next] continues
    with [rootID = *parent.InReplyToID]. *)
Definition walkStep (m : gmap Z Comment) (rootID : Z) : option Z :=
  match m !! rootID with
  | None => None
  | Some parent => Comment_InReplyToID parent
  end.

(** The inner [for] has no bound of its own; [fuel] counts its turns and
    [None] means the fuel ran out before a [break]. *)
Fixpoint walk (fuel : nat) (m : gmap Z Comment) (rootID : Z) : option Z :=
  match fuel with
  | O => None
  | S n =>
      match walkStep m rootID with
      | None => Some rootID
      | Some next => walk n m next
      end
  end.

Record Groups := {
  rootToReplies : gmap Z (list Comment);
  rootIDs : list Z
}.

Definition noGroups : Groups := {| rootToReplies := ∅; rootIDs := [] |}.

(** [rootToReplies[k]], the nil slice when [k] is no key. *)
Definition repliesOf (r : gmap Z (list Comment)) (k : Z) : list Comment :=
  default [] (r !! k).

(** The body of the first loop over [comments]. *)
Definition groupStep (fuel : nat) (m : gmap Z Comment) (st : Groups) (c : Comment)
  : option Groups :=
  match Comment_InReplyToID c with
  | None =>
      Some {| rootToReplies := <[Comment_ID c := [c]]> (rootToReplies st);
              rootIDs := rootIDs st ++ [Comment_ID c] |}
  | Some parentID =>
      match walk fuel m parentID with
      | None => None
      | Some rootID =>
          Some {| rootToReplies :=
                    <[rootID := repliesOf (rootToReplies st) rootID ++ [c]]>
                      (rootToReplies st);
                  rootIDs := rootIDs st |}
      end
  end.

Fixpoint groupLoop (fuel : nat) (m : gmap Z Comment) (st : Groups)
    (comments : list Comment) : option Groups :=
  match comments with
  | [] => Some st
  | c :: rest =>
      match groupStep fuel m st c with
      | None => None
      | Some st' => groupLoop fuel m st' rest
      end
  end.

(** [commentByID[id].CreatedAt]; every id in [rootIDs] is a key (lemma
    [rootIDs_resolved]), the other branch stands for a nil dereference
    that does not happen. *)
Definition createdAtOf (m : gmap Z Comment) (id : Z) : Time :=
  match m !! id with
  | Some c => Comment_CreatedAt c
  | None => 0
  end.

Definition lessRoot (m : gmap Z Comment) (a b : Z) : bool :=
  Before (createdAtOf m a) (createdAtOf m b).

Definition lessComment (a b : Comment) : bool :=
  Before (Comment_CreatedAt a) (Comment_CreatedAt b).

(** The last loop.  [sort.Slice] sorts [replies] in place, and [replies]
    shares its array with the slice kept in the map: the sorted slice is
    what a later lookup of the same key finds. *)
Fixpoint emitThreads `{SliceSorter} (r : gmap Z (list Comment)) (roots : list Z)
  : list (Z * CommentThread) :=
  match roots with
  | [] => []
  | rootID :: rest =>
      let replies := sortSlice lessComment (repliesOf r rootID) in
      let r' := match r !! rootID with
                | Some _ => <[rootID := replies]> r
                | None => r
                end in
      (rootID, {| Comments := replies |}) :: emitThreads r' rest
  end.

(** The threads in output order, each with the root id it was built for. *)
Definition keyedThreads `{SliceSorter} (fuel : nat) (comments : list Comment)
  : option (list (Z * CommentThread)) :=
  let m := commentByID comments in
  match groupLoop fuel m noGroups comments with
  | None => None
  | Some st =>
      Some (emitThreads (rootToReplies st) (sortSlice (lessRoot m) (rootIDs st)))
  end.

Definition groupIntoThreads `{SliceSorter} (fuel : nat) (comments : list Comment)
  : option (list CommentThread) :=
  match keyedThreads fuel comments with
  | None => None
  | Some keyed => Some (map snd keyed)
  end.

(** ** Review annotation (prview.go, [LoadPR] after the fetches) *)

(** A Go [int] wraps silently; it is 64 bits wide on every platform the
    build script targets (amd64 and arm64). *)
Definition wrapInt (z : Z) : Z := (z + 2 ^ 63) `mod` 2 ^ 64 - 2 ^ 63.

(** The loop filling [threadsByReview]; a thread with no comment is
    skipped by the [len(thread.Comments) > 0] test. *)
Definition threadsByReviewStep (tbr : gmap Z (list CommentThread))
    (thread : CommentThread) : gmap Z (list CommentThread) :=
  match Comments thread with
  | [] => tbr
  | first :: _ =>
      let reviewID := Comment_PullRequestReviewID first in
      <[reviewID := default [] (tbr !! reviewID) ++ [thread]]> tbr
  end.

Definition threadsByReview (threads : list CommentThread)
  : gmap Z (list CommentThread) :=
  foldl threadsByReviewStep ∅ threads.

(** The loop filling [replyCountByReview]. *)
Definition replyCountStep (rc : gmap Z Z) (c : Comment) : gmap Z Z :=
  match Comment_InReplyToID c with
  | Some _ =>
      let reviewID := Comment_PullRequestReviewID c in
      <[reviewID := wrapInt (default 0 (rc !! reviewID) + 1)]> rc
  | None => rc
  end.

Definition replyCountByReview (reviewComments : list Comment) : gmap Z Z :=
  foldl replyCountStep ∅ reviewComments.

Definition setAnnotations (threads : list CommentThread) (count : Z) (r : Review)
  : Review :=
  {| Review_ID := Review_ID r;
     Review_Body := Review_Body r;
     Review_State := Review_State r;
     Review_SubmittedAt := Review_SubmittedAt r;
     Review_User := Review_User r;
     Review_Threads := threads;
     Review_ReplyCount := count |}.

(** Lines 307 to 325 of [LoadPR], for the threads and the review comments
    at hand. *)
Definition attachToReviews (threads : list CommentThread)
    (reviewComments : list Comment) (reviews : list Review) : list Review :=
  let tbr := threadsByReview threads in
  let rc := replyCountByReview reviewComments in
  map (λ r, setAnnotations (default [] (tbr !! Review_ID r))
                           (default 0 (rc !! Review_ID r)) r) reviews.

(** Lines 306 to 326 of [LoadPR]. *)
Definition annotateReviews `{SliceSorter} (fuel : nat)
    (reviewComments : list Comment) (reviews : list Review)
  : option (list Review) :=
  match groupIntoThreads fuel reviewComments with
  | None => None
  | Some threads => Some (attachToReviews threads reviewComments reviews)
  end.

(** The review id a thread is filed under: that of its first comment. *)
Definition firstReviewID (thread : CommentThread) : option Z :=
  Comment_PullRequestReviewID <$> head (Comments thread).

(** ** Timeline merge (prview.go, [RenderPR], lines 401 to 432) *)

Definition commentItem (comment : Comment) : TimelineItem :=
  {| Type_ := "comment"; CreatedAt := Comment_CreatedAt comment;
     Item_Comment := Some comment; Item_Review := None; Item_Commit := None |}.

Definition reviewItem (review : Review) : TimelineItem :=
  {| Type_ := "review"; CreatedAt := Review_SubmittedAt review;
     Item_Comment := None; Item_Review := Some review; Item_Commit := None |}.

Definition commitItem (commit : Commit) : TimelineItem :=
  {| Type_ := "commit"; CreatedAt := Commit_CreatedAt commit;
     Item_Comment := None; Item_Review := None; Item_Commit := Some commit |}.

(** [for i := range xs { timeline = append(timeline, item(xs[i])) }] *)
Definition appendItems {A : Type} (item : A → TimelineItem)
    (timeline : list TimelineItem) (xs : list A) : list TimelineItem :=
  foldl (λ tl x, tl ++ [item x]) timeline xs.

(** The timeline before [sort.Slice]. *)
Definition unsortedTimeline (pr : PullRequest) : list TimelineItem :=
  let timeline := appendItems commentItem [] (PR_Comments pr) in
  let timeline := appendItems reviewItem timeline (PR_Reviews pr) in
  appendItems commitItem timeline (PR_Commits pr).

Definition lessItem (a b : TimelineItem) : bool :=
  Before (CreatedAt a) (CreatedAt b).

Definition buildTimeline `{SliceSorter} (pr : PullRequest) : list TimelineItem :=
  sortSlice lessItem (unsortedTimeline pr).

(** ** Vocabulary of the properties *)

(** [parentOf m r r']: the inner loop, standing at [r], moves on to [r']. *)
Definition parentOf (m : gmap Z Comment) : relation Z :=
  λ r r', walkStep m r = Some r'.

(** No id is reached from itself by following parent references. *)
Definition Acyclic (m : gmap Z Comment) : Prop :=
  ∀ r, ¬ tc (parentOf m) r r.

(** The id a comment is grouped under: its own for a comment without
    parent reference, the end of the walk from its parent otherwise. *)
Definition effectiveRoot (fuel : nat) (m : gmap Z Comment) (c : Comment) : option Z :=
  match Comment_InReplyToID c with
  | None => Some (Comment_ID c)
  | Some parentID => walk fuel m parentID
  end.

(** A reply whose walk ends at [k]. *)
Definition replyTo (fuel : nat) (m : gmap Z Comment) (k : Z) (c : Comment) : Prop :=
  Comment_InReplyToID c ≠ None ∧ effectiveRoot fuel m c = Some k.

(** What one turn of the loop does to the slice kept under the key [k]. *)
Definition groupOfStep (fuel : nat) (m : gmap Z Comment) (k : Z)
    (group : list Comment) (c : Comment) : list Comment :=
  if decide (Comment_InReplyToID c = None)
  then (if decide (Comment_ID c = k) then [c] else group)
  else (if decide (effectiveRoot fuel m c = Some k) then group ++ [c] else group).

(** The ids of the comments without parent reference, in input order. *)
Definition rootIDsOf (comments : list Comment) : list Z :=
  map Comment_ID (filter (λ c, Comment_InReplyToID c = None) comments).

(** The id [o], when there is one, is among [ks]. *)
Definition keyedIn (ks : list Z) (o : option Z) : Prop :=
  match o with
  | Some k => k ∈ ks
  | None => False
  end.

#[global] Instance keyedIn_dec ks o : Decision (keyedIn ks o).
Proof. destruct o; simpl; apply _. Defined.




(** The comments of a slice created at [t], in their order. *)
Definition commentsAt (t : Time) (l : list Comment) : list Comment :=
  filter (λ c, Comment_CreatedAt c = t) l.

(** The root ids of a slice whose comment was created at [t], in their
    order. *)
Definition rootsAt (m : gmap Z Comment) (t : Time) (ids : list Z) : list Z :=
  filter (λ k, createdAtOf m k = t) ids.

(** Ties keep the input order on [comments]: among the threads, paired
    with their root ids, the root ids of one timestamp come out in input
    order, and so do the comments of one timestamp inside each thread. *)
Definition TiesKeptOn (sorter : SliceSorter) (fuel : nat) (comments : list Comment)
  : Prop :=
  ∀ keyed : list (Z * CommentThread),
    keyedThreads fuel comments = Some keyed →
    ∀ t : Time,
      rootsAt (commentByID comments) t (map fst keyed)
      = rootsAt (commentByID comments) t (rootIDsOf comments)
      ∧ Forall (λ kt, commentsAt t (Comments kt.2) `sublist_of` commentsAt t comments)
               keyed.

(** The claim C6 as it is stated. *)
Definition TiesKeepInputOrder (sorter : SliceSorter) : Prop :=
  ∀ (fuel : nat) (comments : list Comment), TiesKeptOn sorter fuel comments.

(** The replies of a review: the comments with a parent reference whose
    owning review is [k]. *)
Definition repliesOwnedBy (k : Z) (reviewComments : list Comment) : list Comment :=
  filter (λ c, Comment_InReplyToID c ≠ None ∧ Comment_PullRequestReviewID c = k)
         reviewComments.

(** The items of a timeline that carry the timestamp [t], in their order. *)
Definition itemsAt (t : Time) (timeline : list TimelineItem) : list TimelineItem :=
  filter (λ it, CreatedAt it = t) timeline.

(** The well-formed items of a pull request: a comment item, a review item
    or a commit item of one of its records. *)
Definition itemOf (pr : PullRequest) (it : TimelineItem) : Prop :=
  (∃ c, c ∈ PR_Comments pr ∧ it = commentItem c)
  ∨ (∃ r, r ∈ PR_Reviews pr ∧ it = reviewItem r)
  ∨ (∃ k, k ∈ PR_Commits pr ∧ it = commitItem k).

(** [brokenChainTo comments X c]: the parent reference of [c] is [X], or
    it is the id of an input comment whose own parent references lead to
    [X].  With [X] the id of no input comment, the comments so related to
    [X] are the broken chain that ends at [X]; the relation follows the
    references of the input and owes nothing to the loop. *)
Inductive brokenChainTo (comments : list Comment) (X : Z) : Comment → Prop :=
  | chain_breaks (c : Comment) :
      Comment_InReplyToID c = Some X → brokenChainTo comments X c
  | chain_continues (c parent : Comment) :
      Comment_InReplyToID c = Some (Comment_ID parent) →
      parent ∈ comments →
      brokenChainTo comments X parent →
      brokenChainTo comments X c.

(** An item tagged and keyed for a record of the pull request, field by
    field: the tag names the collection, the one pointer of that
    collection is set and the other two are nil, and the key is the
    creation time of a comment or a commit and the submission time of a
    review. *)
Definition taggedFor (pr : PullRequest) (it : TimelineItem) : Prop :=
  (Type_ it = "comment" ∧ Item_Review it = None ∧ Item_Commit it = None
   ∧ ∃ c, c ∈ PR_Comments pr ∧ Item_Comment it = Some c
          ∧ CreatedAt it = Comment_CreatedAt c)
  ∨ (Type_ it = "review" ∧ Item_Comment it = None ∧ Item_Commit it = None
     ∧ ∃ r, r ∈ PR_Reviews pr ∧ Item_Review it = Some r
            ∧ CreatedAt it = Review_SubmittedAt r)
  ∨ (Type_ it = "commit" ∧ Item_Comment it = None ∧ Item_Review it = None
     ∧ ∃ k, k ∈ PR_Commits pr ∧ Item_Commit it = Some k
            ∧ CreatedAt it = Commit_CreatedAt k).

(** A comment without parent reference that was created before every
    other comment of its thread. *)
Definition earliestRoot (thread : CommentThread) (root : Comment) : Prop :=
  root ∈ Comments thread
  ∧ Comment_InReplyToID root = None
  ∧ ∀ d, d ∈ Comments thread → d ≠ root →
         Comment_CreatedAt root < Comment_CreatedAt d.

(** ** Sample data *)

Definition sampleComment (id : Z) (at_ : Time) (parent : option Z) (review : Z)
  : Comment :=
  {| Comment_ID := id; Comment_Body := "body"; Comment_CreatedAt := at_;
     Comment_User := {| Login := "octocat" |}; Comment_DiffHunk := "";
     Comment_Path := ""; Comment_CommitID := ""; Comment_OriginalCommitID := "";
     Comment_Line := None; Comment_OriginalLine := None;
     Comment_InReplyToID := parent; Comment_PullRequestReviewID := review |}.

Definition sampleReview (id : Z) (at_ : Time) : Review :=
  {| Review_ID := id; Review_Body := ""; Review_State := "COMMENTED";
     Review_SubmittedAt := at_; Review_User := {| Login := "octocat" |};
     Review_Threads := []; Review_ReplyCount := 0 |}.

Definition sampleCommit (sha : string) (at_ : Time) : Commit :=
  {| Commit_SHA := sha; Commit_Message := "fix";
     Commit_Author := {| Login := "octocat" |};
     Commit_Checks := {| Succeeded := 0; Failed := 0; Pending := 0; Skipped := 0 |};
     Commit_CreatedAt := at_ |}.

Definition samplePR (cs : list Comment) (rs : list Review) (ks : list Commit)
  : PullRequest :=
  {| PR_Number := 1; PR_Title := "title"; PR_Body := ""; PR_CreatedAt := 0;
     PR_User := {| Login := "octocat" |};
     PR_Comments := cs; PR_Reviews := rs; PR_Commits := ks |}.

(** A root, a reply to it and a reply to a comment that was not fetched. *)
Definition sampleThreadInput : list Comment :=
  [sampleComment 1 10 None 7; sampleComment 2 11 (Some 1) 7;
   sampleComment 3 12 (Some 99) 7].

(** A reply to a reply to a comment that was not fetched. *)
Definition sampleBrokenChain : list Comment :=
  [sampleComment 3 12 (Some 2) 7; sampleComment 2 11 (Some 99) 7].

(** Two roots and a reply, all created at the same instant. *)
Definition sampleTies : list Comment :=
  [sampleComment 1 5 None 7; sampleComment 2 5 None 7; sampleComment 3 5 (Some 1) 7].

(** Six comments and six reviews of one timestamp, and a commit made
    before them: thirteen timeline items. *)
Definition sampleLongPR : PullRequest :=
  samplePR (map (λ id, sampleComment id 5 None 0) [1; 2; 3; 4; 5; 6])
           (map (λ id, sampleReview id 5) [101; 102; 103; 104; 105; 106])
           [sampleCommit "c01" 1].

(** A comment, a review and a commit of one timestamp. *)
Definition sampleTiedPR : PullRequest :=
  samplePR [sampleComment 1 5 None 0] [sampleReview 2 5] [sampleCommit "c01" 5].

(** Twelve roots created at the same instant and a thirteenth created
    before them. *)
Definition sampleManyRoots : list Comment :=
  map (λ id, sampleComment id 5 None 7) [1; 2; 3; 4; 5; 6; 7; 8; 9; 10; 11; 12]
  ++ [sampleComment 13 1 None 7].

(** ** Text ([strings] and [fmt])

    A Go string is a sequence of bytes, here a [string] of 8-bit
    characters.  [None] stands for a run-time panic. *)

Definition newline : ascii := "010"%char.

(** The string ["\n"]. *)
Definition nl : string := String newline "".

(** [len(s)] *)
Definition len (s : string) : Z := Z.of_nat (String.length s).

(** [s[:n]]; the bounds 0 <= n <= len(s) are checked at run time. *)
Definition sliceTo (s : string) (n : Z) : option string :=
  if decide (0 ≤ n ≤ len s) then Some (String.substring 0 (Z.to_nat n) s) else None.

(** [strings.Index(s, sep)] for a separator of one byte: the index of its
    first occurrence in [s], -1 when there is none. *)
Fixpoint Index (s : string) (sep : ascii) : Z :=
  match s with
  | EmptyString => -1
  | String a rest =>
      if decide (a = sep) then 0
      else let i := Index rest sep in
           if decide (i = -1) then -1 else i + 1
  end.

(** [strings.Split(s, sep)] for a separator of one byte: the pieces of [s]
    between the separators, one more than there are separators. *)
Fixpoint Split (s : string) (sep : ascii) : list string :=
  match s with
  | EmptyString => [EmptyString]
  | String a rest =>
      if decide (a = sep) then EmptyString :: Split rest sep
      else match Split rest sep with
           | piece :: pieces => String a piece :: pieces
           | [] => [String a EmptyString]
           end
  end.

(** [strings.Join(elems, sep)] *)
Definition Join (elems : list string) (sep : string) : string :=
  String.concat sep elems.

(** [strings.Repeat(s, count)] *)
Fixpoint Repeat (s : string) (count : nat) : string :=
  match count with
  | O => EmptyString
  | S n => s +:+ Repeat s n
  end.

(** What a loop writes that writes [f x] for each [x] of a slice. *)
Fixpoint writeEach {A : Type} (f : A → string) (xs : list A) : string :=
  match xs with
  | [] => EmptyString
  | x :: rest => f x +:+ writeEach f rest
  end.

(** [if len(id) > 7 { id = id[:7] }], the three lines [renderCommit] has
    for the commit hash and [renderThread] for the commit of a diff. *)
Definition shortID (id : string) : option string :=
  if decide (7 < len id) then sliceTo id 7 else Some id.

(** ** The REST client (api.go)

    [client.Get(path, &response)] belongs to the go-gh library: it either
    reports an error or decodes the JSON answer into the type of
    [response].  The client is a parameter of the program, with one
    decoder for each type the code asks for; an error is the message it
    carries. *)

Definition error := string.

Record Repository := { Repo_Owner : string; Repo_Name : string }.

Record commitResponse := {
  Resp_SHA : string;
  Resp_Commit_Message : string;
  Resp_Commit_Committer_Date : Time;
  Resp_Author : User
}.

Record checkRun := { Run_Status : string; Run_Conclusion : string }.

Record RESTClient := {
  Get_PullRequest : string → error + PullRequest;
  Get_Comments : string → error + list Comment;
  Get_Reviews : string → error + list Review;
  Get_commitResponses : string → error + list commitResponse;
  Get_checkRuns : string → error + list checkRun
}.

(** [fmt.Sprintf("repos/%s/%s/", repo.Owner, repo.Name)], the head of
    every path. *)
Definition repoPath (repo : Repository) : string :=
  "repos/" +:+ Repo_Owner repo +:+ "/" +:+ Repo_Name repo +:+ "/".

Definition FetchPR (client : RESTClient) (repo : Repository) (prNumber : Z)
  : error + PullRequest :=
  Get_PullRequest client (repoPath repo +:+ "pulls/" +:+ pretty prNumber).

Definition FetchPRComments (client : RESTClient) (repo : Repository) (prNumber : Z)
  : error + list Comment :=
  Get_Comments client (repoPath repo +:+ "issues/" +:+ pretty prNumber +:+ "/comments").

Definition FetchPRReviews (client : RESTClient) (repo : Repository) (prNumber : Z)
  : error + list Review :=
  Get_Reviews client (repoPath repo +:+ "pulls/" +:+ pretty prNumber +:+ "/reviews").

Definition FetchReviewComments (client : RESTClient) (repo : Repository)
    (prNumber reviewID : Z) : error + list Comment :=
  Get_Comments client (repoPath repo +:+ "pulls/" +:+ pretty prNumber
                       +:+ "/reviews/" +:+ pretty reviewID +:+ "/comments").

Definition FetchAllReviewComments (client : RESTClient) (repo : Repository)
    (prNumber : Z) : error + list Comment :=
  Get_Comments client (repoPath repo +:+ "pulls/" +:+ pretty prNumber +:+ "/comments").

(** ** Commits and their checks (api.go) *)

Definition zeroCounts : CheckCounts :=
  {| Succeeded := 0; Failed := 0; Pending := 0; Skipped := 0 |}.

(** [msg := r.Commit.Message; if idx := strings.Index(msg, "\n"); idx != -1
    { msg = msg[:idx] }] *)
Definition firstLine (msg : string) : option string :=
  let idx := Index msg newline in
  if decide (idx ≠ -1) then sliceTo msg idx else Some msg.

(** The body of the loop of [FetchCommits]; the composite literal leaves
    [Checks] at its zero value. *)
Definition commitOf (r : commitResponse) : option Commit :=
  msg ← firstLine (Resp_Commit_Message r);
  Some {| Commit_SHA := Resp_SHA r;
          Commit_Message := msg;
          Commit_Author := Resp_Author r;
          Commit_Checks := zeroCounts;
          Commit_CreatedAt := Resp_Commit_Committer_Date r |}.

(** [commits[i]] is assigned once for each index of [responses], so the
    loop is a map over the responses. *)
Definition FetchCommits (client : RESTClient) (repo : Repository) (prNumber : Z)
  : option (error + list Commit) :=
  match Get_commitResponses client
          (repoPath repo +:+ "pulls/" +:+ pretty prNumber +:+ "/commits") with
  | inl err => Some (inl err)
  | inr responses =>
      commits ← mapM commitOf responses;
      Some (inr commits)
  end.

(** The body of the loop of [FetchCommitChecks]; the counters are Go
    [int]s. *)
Definition countRun (counts : CheckCounts) (run : checkRun) : CheckCounts :=
  if decide (Run_Status run ≠ "completed") then
    {| Succeeded := Succeeded counts; Failed := Failed counts;
       Pending := wrapInt (Pending counts + 1); Skipped := Skipped counts |}
  else if decide (Run_Conclusion run = "success") then
    {| Succeeded := wrapInt (Succeeded counts + 1); Failed := Failed counts;
       Pending := Pending counts; Skipped := Skipped counts |}
  else if decide (Run_Conclusion run = "failure" ∨ Run_Conclusion run = "cancelled"
                  ∨ Run_Conclusion run = "timed_out") then
    {| Succeeded := Succeeded counts; Failed := wrapInt (Failed counts + 1);
       Pending := Pending counts; Skipped := Skipped counts |}
  else if decide (Run_Conclusion run = "skipped") then
    {| Succeeded := Succeeded counts; Failed := Failed counts;
       Pending := Pending counts; Skipped := wrapInt (Skipped counts + 1) |}
  else counts.

Definition countRuns (runs : list checkRun) : CheckCounts :=
  foldl countRun zeroCounts runs.

Definition FetchCommitChecks (client : RESTClient) (repo : Repository) (sha : string)
  : CheckCounts :=
  match Get_checkRuns client (repoPath repo +:+ "commits/" +:+ sha +:+ "/check-runs") with
  | inl _ => zeroCounts
  | inr runs => countRuns runs
  end.

(** ** Loading a pull request (prview.go, [LoadPR])

    [repository.Current] and [api.NewRESTClient] are library calls, and
    [GetCurrentPR] runs git and reads untyped JSON: the three are
    parameters of [LoadPR]. *)

Record Environment := {
  GetCurrentRepo : error + Repository;
  GetRESTClient : error + RESTClient;
  GetCurrentPR : RESTClient → Repository → error + Z
}.

(** [commits[i].Checks = checks] *)
Definition setChecks (checks : CheckCounts) (commit : Commit) : Commit :=
  {| Commit_SHA := Commit_SHA commit;
     Commit_Message := Commit_Message commit;
     Commit_Author := Commit_Author commit;
     Commit_Checks := checks;
     Commit_CreatedAt := Commit_CreatedAt commit |}.

(** [fmt.Errorf(text + ": %w", err)] *)
Definition wrapError (text : string) (err : error) : error :=
  text +:+ ": " +:+ err.

(** [None]: the call does not return, because a walk of
    [groupIntoThreads] outlasts the fuel or because of a run-time panic. *)
Definition LoadPR `{SliceSorter} (env : Environment) (fuel : nat) (prNumber : Z)
  : option (error + PullRequest) :=
  match GetCurrentRepo env with
  | inl err => Some (inl (wrapError "error getting repository information" err))
  | inr repo =>
  match GetRESTClient env with
  | inl err => Some (inl (wrapError "error creating GitHub client" err))
  | inr client =>
  match (if decide (prNumber = 0) then GetCurrentPR env client repo
         else inr prNumber) with
  | inl err => Some (inl (wrapError "error determining PR number" err))
  | inr prNumber =>
  match FetchPR client repo prNumber with
  | inl err => Some (inl (wrapError ("error fetching PR #" +:+ pretty prNumber) err))
  | inr pr =>
  match FetchPRComments client repo prNumber with
  | inl err =>
      Some (inl (wrapError ("error fetching comments for PR #" +:+ pretty prNumber) err))
  | inr comments =>
  match FetchPRReviews client repo prNumber with
  | inl err =>
      Some (inl (wrapError ("error fetching reviews for PR #" +:+ pretty prNumber) err))
  | inr reviews =>
  match FetchAllReviewComments client repo prNumber with
  | inl err =>
      Some (inl (wrapError ("error fetching review comments for PR #"
                            +:+ pretty prNumber) err))
  | inr reviewComments =>
  match annotateReviews fuel reviewComments reviews with
  | None => None
  | Some reviews =>
  match FetchCommits client repo prNumber with
  | None => None
  | Some (inl err) =>
      Some (inl (wrapError ("error fetching commits for PR #" +:+ pretty prNumber) err))
  | Some (inr commits) =>
      let commits :=
        map (λ commit,
               setChecks (FetchCommitChecks client repo (Commit_SHA commit)) commit)
            commits in
      Some (inr {| PR_Number := PR_Number pr;
                   PR_Title := PR_Title pr;
                   PR_Body := PR_Body pr;
                   PR_CreatedAt := PR_CreatedAt pr;
                   PR_User := PR_User pr;
                   PR_Comments := comments;
                   PR_Reviews := reviews;
                   PR_Commits := commits |})
  end end end end end end end end end.

(** ** Rendering (prview.go)

    The writer is one that takes every write, a buffer or the standard
    output: each function is the text it writes.  [Time.Format] belongs to
    the standard library and is a parameter. *)

Class TimeFormat := { Format : Time → string → string }.

Definition layout : string := "2006-01-02 15:04:05".

(** [for _, line := range strings.Split(text, "\n")
    { fmt.Fprintf(w, "    %s\n", line) }] *)
Definition indented (text : string) : string :=
  writeEach (λ line, "    " +:+ line +:+ nl) (Split text newline).

Definition renderIssueComment `{TimeFormat} (comment : Comment) : string :=
  (Login (Comment_User comment) +:+ " COMMENTED at "
   +:+ Format (Comment_CreatedAt comment) layout +:+ nl +:+ nl)
  +:+ (Comment_Body comment +:+ nl).

(** The lines of [renderThread] that run when [root.DiffHunk != ""]. *)
Definition renderDiff (root : Comment) : option string :=
  commitPart ←
    (if decide (Comment_CommitID root ≠ "") then
       shortCommit ← shortID (Comment_CommitID root);
       Some (" @ " +:+ shortCommit)
     else Some EmptyString);
  let isOutdated :=
    bool_decide (Comment_Line root = None)
    && bool_decide (Comment_OriginalLine root ≠ None) in
  Some (("  " +:+ Comment_Path root)
        +:+ commitPart
        +:+ (if isOutdated then " [outdated]" else "")
        +:+ nl
        +:+ indented (Comment_DiffHunk root)).

(** The body of the loop over [thread.Comments]. *)
Definition renderReply `{TimeFormat} (comment : Comment) : string :=
  ("  @" +:+ Login (Comment_User comment) +:+ " at "
   +:+ Format (Comment_CreatedAt comment) layout +:+ ":" +:+ nl)
  +:+ indented (Comment_Body comment)
  +:+ nl.

Definition renderThread `{TimeFormat} (thread : CommentThread) : option string :=
  match Comments thread with
  | [] => Some EmptyString
  | root :: _ =>
      diff ← (if decide (Comment_DiffHunk root ≠ "") then renderDiff root
              else Some EmptyString);
      Some (diff +:+ writeEach renderReply (Comments thread))
  end.

Definition renderReview `{TimeFormat} (review : Review) : option string :=
  let head :=
    Login (Review_User review) +:+ " " +:+ Review_State review +:+ " at "
    +:+ Format (Review_SubmittedAt review) layout in
  if bool_decide (Review_Body review = "")
     && bool_decide (length (Review_Threads review) = 0%nat)
     && bool_decide (0 < Review_ReplyCount review)
  then
    let noun := if decide (Review_ReplyCount review = 1) then "comment"
                else "comments" in
    Some (head +:+ (" (" +:+ pretty (Review_ReplyCount review) +:+ " " +:+ noun
                    +:+ " under existing threads)" +:+ nl))
  else
    threads ← mapM renderThread (Review_Threads review);
    Some (head +:+ nl
          +:+ (if decide (Review_Body review ≠ "")
               then nl +:+ (Review_Body review +:+ nl) else "")
          +:+ writeEach (λ thread, nl +:+ thread) threads).

(** The [parts] of [renderCommit]. *)
Definition checkParts (c : CheckCounts) : list string :=
  (if decide (0 < Succeeded c) then [pretty (Succeeded c) +:+ " succeeded"] else [])
  ++ (if decide (0 < Failed c) then [pretty (Failed c) +:+ " failed"] else [])
  ++ (if decide (0 < Pending c) then [pretty (Pending c) +:+ " pending"] else [])
  ++ (if decide (0 < Skipped c) then [pretty (Skipped c) +:+ " skipped"] else []).

(** [c.Succeeded + c.Failed + c.Pending + c.Skipped], in Go [int]s. *)
Definition totalChecks (c : CheckCounts) : Z :=
  wrapInt (wrapInt (wrapInt (Succeeded c + Failed c) + Pending c) + Skipped c).

Definition renderCommit (commit : Commit) : option string :=
  shortSHA ← shortID (Commit_SHA commit);
  let author := if decide (Login (Commit_Author commit) = "") then "unknown"
                else Login (Commit_Author commit) in
  let c := Commit_Checks commit in
  Some ((author +:+ " COMMITTED " +:+ shortSHA +:+ ": " +:+ Commit_Message commit)
        +:+ (if decide (0 < totalChecks c)
             then " [" +:+ Join (checkParts c) ", " +:+ "]" else "")
        +:+ nl).

(** The header template of [RenderPR], executed on [pr]. *)
Definition renderHeader `{TimeFormat} (pr : PullRequest) : string :=
  "PR #" +:+ pretty (PR_Number pr) +:+ ": " +:+ PR_Title pr +:+ nl
  +:+ "Author: " +:+ Login (PR_User pr) +:+ nl
  +:+ "Created: " +:+ Format (PR_CreatedAt pr) layout +:+ nl
  +:+ nl
  +:+ PR_Body pr +:+ nl.

(** [fmt.Fprintln(w, strings.Repeat("-", 80))] *)
Definition separator : string := Repeat "-" 80 +:+ nl.

(** The dispatch on [item.Type]; [*item.Comment], [*item.Review] and
    [*item.Commit] panic on a nil pointer. *)
Definition renderItem `{TimeFormat} (item : TimelineItem) : option string :=
  if decide (Type_ item = "comment") then
    comment ← Item_Comment item; Some (renderIssueComment comment)
  else if decide (Type_ item = "review") then
    review ← Item_Review item; renderReview review
  else if decide (Type_ item = "commit") then
    commit ← Item_Commit item; renderCommit commit
  else Some EmptyString.

(** The text [RenderPR] writes; the error it returns is nil, the template
    being a constant that parses and the writer taking every write. *)
Definition RenderPR `{SliceSorter} `{TimeFormat} (pr : PullRequest) : option string :=
  blocks ← mapM renderItem (buildTimeline pr);
  Some (renderHeader pr +:+ separator
        +:+ writeEach (λ block, block +:+ separator) blocks).

(** ** Vocabulary of the further properties *)

(** The bytes of a string. *)
Definition bytes (s : string) : list ascii := String.list_ascii_of_string s.

(** [line] is the first line of [msg]: it holds no newline and [msg] is
    either [line] or [line], a newline and more. *)
Definition firstLineOf (msg line : string) : Prop :=
  (newline ∉ bytes line) ∧ (msg = line ∨ ∃ rest, msg = line +:+ nl +:+ rest).

(** What [renderThread] prints of a comment of a thread. *)
Definition shownOfComment (c : Comment) : string * Time * string :=
  (Login (Comment_User c), Comment_CreatedAt c, Comment_Body c).

(** What [renderThread] reads of the first comment of a thread for the
    lines above the comments. *)
Definition shownOfDiff (c : Comment) : string * string * string * bool * bool :=
  (Comment_DiffHunk c, Comment_Path c, Comment_CommitID c,
   bool_decide (Comment_Line c = None), bool_decide (Comment_OriginalLine c = None)).

(** [block] is what [RenderPR] writes for [item]: the rendering of the
    record the tag of [item] names. *)
Definition rendersAs `{TimeFormat} (item : TimelineItem) (block : string) : Prop :=
  (∃ comment, item = commentItem comment ∧ block = renderIssueComment comment)
  ∨ (∃ review, item = reviewItem review ∧ renderReview review = Some block)
  ∨ (∃ commit, item = commitItem commit ∧ renderCommit commit = Some block).

(** ** Further sample data *)

Definition sampleRepo : Repository :=
  {| Repo_Owner := "bmon"; Repo_Name := "gh-prview" |}.

Definition sampleResponse : commitResponse :=
  {| Resp_SHA := "0123456789abcdef";
     Resp_Commit_Message := "fix the walk" +:+ nl +:+ nl +:+ "details";
     Resp_Commit_Committer_Date := 30;
     Resp_Author := {| Login := "" |} |}.

Definition sampleRuns : list checkRun :=
  [{| Run_Status := "completed"; Run_Conclusion := "success" |};
   {| Run_Status := "completed"; Run_Conclusion := "timed_out" |};
   {| Run_Status := "in_progress"; Run_Conclusion := "" |};
   {| Run_Status := "completed"; Run_Conclusion := "neutral" |};
   {| Run_Status := "completed"; Run_Conclusion := "skipped" |}].

(** A client that answers every path alike, and fails on check runs. *)
Definition sampleClient (reviewComments : list Comment) : RESTClient :=
  {| Get_PullRequest := λ _, inr (samplePR [] [] []);
     Get_Comments := λ _, inr reviewComments;
     Get_Reviews := λ _, inr [sampleReview 7 20];
     Get_commitResponses := λ _, inr [sampleResponse];
     Get_checkRuns := λ _, inl "HTTP 404" |}.

Definition sampleChecksClient : RESTClient :=
  {| Get_PullRequest := λ _, inr (samplePR [] [] []);
     Get_Comments := λ _, inr [];
     Get_Reviews := λ _, inr [];
     Get_commitResponses := λ _, inr [sampleResponse];
     Get_checkRuns := λ _, inr sampleRuns |}.

Definition sampleEnvironment (reviewComments : list Comment) : Environment :=
  {| GetCurrentRepo := inr sampleRepo;
     GetRESTClient := inr (sampleClient reviewComments);
     GetCurrentPR := λ _ _, inr 1 |}.

(** A layout that prints the instant as a number. *)
Definition sampleFormat : TimeFormat := {| Format := λ t _, pretty t |}.

(** * Properties *)

(** ** Sorting *)

Section Sorting.
Context {A : Type} (less : A → A → bool).

Lemma swo_asym :
  StrictWeakOrder less → ∀ x y, less x y = true → less y x = false.
Proof.
  intros Hswo x y Hxy. destruct (less y x) eqn:Hyx; [|done].
  pose proof (swo_trans _ Hswo x y x Hxy Hyx) as Hxx.
  rewrite (swo_irrefl _ Hswo) in Hxx. done.
Qed.

Lemma insertLeft_perm x revPrefix : insertLeft less x revPrefix ≡ₚ x :: revPrefix.
Proof.
  induction revPrefix as [|y rest IH]; simpl; [done|].
  destruct (less x y); [|done].
  rewrite IH. apply perm_swap.
Qed.

Lemma foldl_insertLeft_perm l acc :
  foldl (λ revPrefix x, insertLeft less x revPrefix) acc l ≡ₚ acc ++ l.
Proof.
  revert acc. induction l as [|x l IH]; intros acc; simpl.
  - by rewrite app_nil_r.
  - rewrite IH, insertLeft_perm. simpl. apply Permutation_middle.
Qed.

Lemma insertionSort_perm l : insertionSort less l ≡ₚ l.
Proof.
  unfold insertionSort. rewrite reverse_Permutation.
  apply (foldl_insertLeft_perm l []).
Qed.

(** The reversed prefix is in descending order. *)
Lemma insertLeft_sorted x revPrefix :
  StrictWeakOrder less →
  Sorted (λ a b, less a b = false) revPrefix →
  Sorted (λ a b, less a b = false) (insertLeft less x revPrefix).
Proof.
  intros Hswo. induction revPrefix as [|y rest IH]; intros Hs; simpl.
  - repeat constructor.
  - destruct (less x y) eqn:Hxy.
    + inversion Hs as [|? ? Hrest Hhd]; subst.
      constructor; [by apply IH|].
      destruct rest as [|z rest']; simpl.
      * constructor. by apply swo_asym.
      * destruct (less x z); constructor.
        -- by inversion Hhd.
        -- by apply swo_asym.
    + constructor; [done|]. by constructor.
Qed.

Lemma foldl_insertLeft_sorted l acc :
  StrictWeakOrder less →
  Sorted (λ a b, less a b = false) acc →
  Sorted (λ a b, less a b = false)
         (foldl (λ revPrefix x, insertLeft less x revPrefix) acc l).
Proof.
  intros Hswo. revert acc. induction l as [|x l IH]; intros acc Hacc; simpl.
  - done.
  - apply IH. by apply insertLeft_sorted.
Qed.

Lemma insertionSort_sorted l :
  StrictWeakOrder less → Sorted (notAfter less) (insertionSort less l).
Proof.
  intros Hswo. unfold insertionSort.
  apply (Sorted_reverse (λ a b, less a b = false)).
  apply foldl_insertLeft_sorted; [done|constructor].
Qed.

(** An element never moves past one it is tied with. *)
Lemma filter_insertLeft x0 x revPrefix :
  StrictWeakOrder less →
  filter (λ y, tied less x0 y = true) (insertLeft less x revPrefix)
  = filter (λ y, tied less x0 y = true) (x :: revPrefix).
Proof.
  intros Hswo. induction revPrefix as [|y rest IH]; simpl; [done|].
  destruct (less x y) eqn:Hxy; [|done].
  rewrite filter_cons, IH, !filter_cons.
  destruct (decide (tied less x0 y = true)) as [Hy|Hy];
    destruct (decide (tied less x0 x = true)) as [Hx|Hx]; try done.
  exfalso. unfold tied in Hx, Hy.
  apply andb_true_iff in Hx as [Hx1 Hx2]. apply andb_true_iff in Hy as [Hy1 Hy2].
  apply negb_true_iff in Hx1, Hx2, Hy1, Hy2.
  rewrite (swo_negtrans _ Hswo x x0 y Hx2 Hy1) in Hxy. done.
Qed.

Lemma filter_foldl_insertLeft x0 l acc :
  StrictWeakOrder less →
  filter (λ y, tied less x0 y = true)
         (foldl (λ revPrefix x, insertLeft less x revPrefix) acc l)
  = reverse (filter (λ y, tied less x0 y = true) l)
    ++ filter (λ y, tied less x0 y = true) acc.
Proof.
  intros Hswo. revert acc. induction l as [|x l IH]; intros acc; simpl; [done|].
  rewrite IH, filter_insertLeft by done. rewrite !filter_cons.
  case_decide; [|done].
  rewrite reverse_cons, <-app_assoc. done.
Qed.

Lemma insertionSort_stable x0 l :
  StrictWeakOrder less →
  filter (λ y, tied less x0 y = true) (insertionSort less l)
  = filter (λ y, tied less x0 y = true) l.
Proof.
  intros Hswo. unfold insertionSort.
  rewrite filter_reverse, filter_foldl_insertLeft by done.
  rewrite filter_nil, app_nil_r. apply reverse_involutive.
Qed.

Lemma backwardSort_perm l : backwardSort less l ≡ₚ l.
Proof.
  unfold backwardSort. by rewrite insertionSort_perm, reverse_Permutation.
Qed.

Lemma backwardSort_sorted l :
  StrictWeakOrder less → Sorted (notAfter less) (backwardSort less l).
Proof. intros. by apply insertionSort_sorted. Qed.
End Sorting.

(** *** Short slices

    On a slice of at most twelve elements [pdqsort_func] goes straight to
    [insertionSort_func], and sinking an element by swaps is inserting it
    into the sorted prefix. *)

Section ShortSlices.
Context {A : Type} (less : A → A → bool) (next : Z → Z).

Lemma lessAt_adjacent (l1 : list A) (y x : A) (rest : list A) :
  lessAt less (l1 ++ y :: x :: rest) (S (length l1)) (length l1) = less x y.
Proof.
  unfold lessAt.
  rewrite (list_lookup_middle l1 (x :: rest) y (length l1)) by done.
  replace (l1 ++ y :: x :: rest) with ((l1 ++ [y]) ++ x :: rest)
    by by rewrite <-app_assoc.
  rewrite (list_lookup_middle (l1 ++ [y]) rest x (S (length l1))); [done|].
  rewrite length_app. simpl. lia.
Qed.

Lemma swapAt_adjacent (l1 : list A) (y x : A) (rest : list A) :
  swapAt (l1 ++ y :: x :: rest) (S (length l1)) (length l1)
  = l1 ++ x :: y :: rest.
Proof.
  unfold swapAt.
  rewrite (list_lookup_middle l1 (x :: rest) y (length l1)) by done.
  replace (l1 ++ y :: x :: rest) with ((l1 ++ [y]) ++ x :: rest) at 1
    by by rewrite <-app_assoc.
  rewrite (list_lookup_middle (l1 ++ [y]) rest x (S (length l1)))
    by (rewrite length_app; simpl; lia).
  rewrite (insert_app_r_alt l1 _ (S (length l1))) by lia.
  rewrite (insert_app_r_alt l1 _ (length l1)) by lia.
  replace (S (length l1) - length l1)%nat with 1%nat by lia.
  replace (length l1 - length l1)%nat with 0%nat by lia.
  done.
Qed.

Lemma sinkLeft_insertLeft (revPrefix : list A) (x : A) (rest : list A) :
  sinkLeft less 0 (length revPrefix) (reverse revPrefix ++ x :: rest)
  = reverse (insertLeft less x revPrefix) ++ rest.
Proof.
  revert rest. induction revPrefix as [|y rp IH]; intros rest; [done|].
  cbn [length sinkLeft insertLeft]. rewrite reverse_cons, <-app_assoc.
  cbn [app]. rewrite <-(length_reverse rp).
  rewrite lessAt_adjacent. cbn [Nat.ltb Nat.leb andb].
  destruct (less x y).
  - rewrite swapAt_adjacent, length_reverse, IH.
    by rewrite reverse_cons, <-app_assoc.
  - by rewrite !reverse_cons, <-!app_assoc.
Qed.

Lemma length_insertLeft (x : A) (revPrefix : list A) :
  length (insertLeft less x revPrefix) = S (length revPrefix).
Proof. by rewrite insertLeft_perm. Qed.

Lemma insertionLoop_foldl (rest revPrefix : list A) :
  insertionLoop less 0 (length revPrefix) (length rest) (reverse revPrefix ++ rest)
  = reverse (foldl (λ rp x, insertLeft less x rp) revPrefix rest).
Proof.
  revert revPrefix. induction rest as [|x rest IH]; intros revPrefix.
  - simpl. by rewrite app_nil_r.
  - cbn [length insertionLoop foldl].
    rewrite sinkLeft_insertLeft, <-(length_insertLeft x revPrefix). apply IH.
Qed.

Lemma insertionSort_func_whole (data : list A) :
  insertionSort_func less data 0 (length data) = insertionSort less data.
Proof.
  unfold insertionSort_func, insertionSort. destruct data as [|x rest]; [done|].
  cbn [length foldl insertLeft].
  replace (S (length rest) - (0 + 1))%nat with (length rest) by lia.
  apply (insertionLoop_foldl rest [x]).
Qed.

Lemma Slice_short (x : list A) :
  (length x ≤ 12)%nat → Slice less next x = insertionSort less x.
Proof.
  intros Hshort. unfold Slice. cbn [pdqsort_func].
  rewrite Nat.sub_0_r.
  destruct (Nat.leb_spec (length x) 12) as [_|Hlong]; [|lia].
  apply insertionSort_func_whole.
Qed.
End ShortSlices.

Lemma insertionSorter_contract : SorterContract insertionSorter.
Proof.
  split; [exact @insertionSort_perm|exact @insertionSort_sorted].
Qed.

Lemma backwardSorter_contract : SorterContract backwardSorter.
Proof.
  split; [exact @backwardSort_perm|exact @backwardSort_sorted].
Qed.

Lemma insertionSorter_stable : StableSorter insertionSorter.
Proof. intros A less l x Hswo. by apply insertionSort_stable. Qed.

(** On short slices the standard library's sort is the insertion sort. *)
Lemma goSorter_short {A : Type} (next : Z → Z) (less : A → A → bool) (l : list A) :
  (length l ≤ 12)%nat →
  sortSlice (SliceSorter := goSorter next) less l
  = sortSlice (SliceSorter := insertionSorter) less l.
Proof. apply Slice_short. Qed.

(** Comparing by a key of [Z] is a strict weak order. *)
Lemma keyLess_swo {A : Type} (key : A → Z) :
  StrictWeakOrder (λ a b, Before (key a) (key b)).
Proof.
  unfold Before. split.
  - intros x. apply Z.ltb_irrefl.
  - intros x y z Hxy Hyz. apply Z.ltb_lt in Hxy, Hyz. apply Z.ltb_lt. lia.
  - intros x y z Hxy Hyz. apply Z.ltb_ge in Hxy, Hyz. apply Z.ltb_ge. lia.
Qed.

(** A stable sort by a key keeps the elements of one key in their order. *)
Lemma sortSlice_stable_by_key (sorter : SliceSorter) `{!SorterContract sorter}
    {A : Type} (key : A → Z) t l :
  StableSorter sorter →
  filter (λ x, key x = t) (sortSlice (λ a b, Before (key a) (key b)) l)
  = filter (λ x, key x = t) l.
Proof.
  intros Hst.
  destruct (filter (λ x, key x = t) l) as [|x rest] eqn:Hf.
  - apply Permutation_nil_r. rewrite <-Hf. by rewrite sortSlice_perm.
  - assert (key x = t) as Hx.
    { assert (x ∈ filter (λ x, key x = t) l) as Hin
        by (rewrite Hf; apply elem_of_cons; by left).
      by apply list_elem_of_filter in Hin as [? _]. }
    rewrite <-Hf.
    assert (∀ l' : list A, filter (λ y, key y = t) l'
                  = filter (λ y, tied (λ a b, Before (key a) (key b)) x y = true) l')
      as Htied.
    { intros l'. apply list_filter_iff. intros y. unfold tied, Before.
      rewrite andb_true_iff, !negb_true_iff, !Z.ltb_ge. lia. }
    rewrite !Htied. apply Hst, keyLess_swo.
Qed.

(** ** Timeline merge *)

Lemma appendItems_map {A : Type} (item : A → TimelineItem) xs timeline :
  appendItems item timeline xs = timeline ++ map item xs.
Proof.
  unfold appendItems. revert timeline.
  induction xs as [|x xs IH]; intros timeline; simpl.
  - by rewrite app_nil_r.
  - rewrite IH, <-app_assoc. done.
Qed.

Lemma unsortedTimeline_concat pr :
  unsortedTimeline pr
  = map commentItem (PR_Comments pr) ++ map reviewItem (PR_Reviews pr)
    ++ map commitItem (PR_Commits pr).
Proof.
  unfold unsortedTimeline. rewrite !appendItems_map. simpl.
  by rewrite <-app_assoc.
Qed.

Lemma Sorted_weaken {A : Type} (R1 R2 : relation A) l :
  (∀ a b, R1 a b → R2 a b) → Sorted R1 l → Sorted R2 l.
Proof.
  intros Himp. induction 1 as [|a l Hl IH Hhd]; constructor; [done|].
  destruct Hhd; constructor. by apply Himp.
Qed.

(** Sorting with a key comparison leaves the keys in non-decreasing order,
    each element no later than all that follow. *)
Lemma sortSlice_by_key {sorter : SliceSorter} `{!SorterContract sorter} {A : Type} (key : A → Z) l :
  StronglySorted (λ a b, key a ≤ key b)
                 (sortSlice (λ a b, Before (key a) (key b)) l).
Proof.
  apply Sorted_StronglySorted.
  - intros a b c. lia.
  - eapply Sorted_weaken; [|apply sortSlice_sorted, keyLess_swo].
    intros a b Hab. unfold notAfter, Before in Hab. by apply Z.ltb_ge in Hab.
Qed.

Lemma omap_fmap_Some {A B : Type} (f : B → option A) (g : A → B) (l : list A) :
  (∀ x, f (g x) = Some x) → omap f (map g l) = l.
Proof.
  intros Hfg. induction l as [|x l IH]; [done|]. simpl. rewrite Hfg. simpl.
  f_equal. exact IH.
Qed.

Lemma omap_fmap_None {A B C : Type} (f : B → option C) (g : A → B) (l : list A) :
  (∀ x, f (g x) = None) → omap f (map g l) = [].
Proof.
  intros Hfg. induction l as [|x l IH]; [done|]. simpl. rewrite Hfg. exact IH.
Qed.

(** C7. The timeline holds one item per standalone comment, review and
    commit: its length is the sum of the three lengths, it is a
    rearrangement of the comment items, review items and commit items, and
    its timestamps never decrease.  Field by field: every item is tagged
    "comment", "review" or "commit", carries the pointer to a record of the
    collection its tag names and nil for the other two, and is keyed on
    [CreatedAt] of the comment, [SubmittedAt] of the review or [CreatedAt]
    of the commit; and the comments, the reviews and the commits the items
    point to are, up to order, those of the pull request, each once.
    [sort.Slice] enters through what it documents. *)
Theorem timeline_complete_and_ordered (sorter : SliceSorter) (pr : PullRequest) :
  SorterContract sorter →
  length (buildTimeline pr)
  = (length (PR_Comments pr) + length (PR_Reviews pr) + length (PR_Commits pr))%nat
  ∧ buildTimeline pr
    ≡ₚ map commentItem (PR_Comments pr) ++ map reviewItem (PR_Reviews pr)
       ++ map commitItem (PR_Commits pr)
  ∧ Forall (itemOf pr) (buildTimeline pr)
  ∧ StronglySorted (λ a b, CreatedAt a ≤ CreatedAt b) (buildTimeline pr)
  ∧ Forall (taggedFor pr) (buildTimeline pr)
  ∧ omap Item_Comment (buildTimeline pr) ≡ₚ PR_Comments pr
  ∧ omap Item_Review (buildTimeline pr) ≡ₚ PR_Reviews pr
  ∧ omap Item_Commit (buildTimeline pr) ≡ₚ PR_Commits pr.
Proof.
  intros Hcontract.
  assert (Hperm : buildTimeline pr
    ≡ₚ map commentItem (PR_Comments pr) ++ map reviewItem (PR_Reviews pr)
       ++ map commitItem (PR_Commits pr)).
  { unfold buildTimeline. by rewrite sortSlice_perm, unsortedTimeline_concat. }
  split; [|split; [done|split; [|split; [|split; [|split; [|split]]]]]].
  - rewrite Hperm, !length_app, !length_map. lia.
  - rewrite Hperm. rewrite !Forall_app. unfold itemOf.
    repeat split; apply Forall_forall; intros it Hit;
      apply list_elem_of_fmap in Hit as (x & -> & Hx); eauto 6.
  - apply (sortSlice_by_key CreatedAt).
  - rewrite Hperm. rewrite !Forall_app. unfold taggedFor.
    repeat split; apply Forall_forall; intros it Hit;
      apply list_elem_of_fmap in Hit as (x & -> & Hx); simpl.
    + left. eauto 8.
    + right. left. eauto 8.
    + right. right. eauto 8.
  - rewrite Hperm, !omap_app.
    rewrite (omap_fmap_Some Item_Comment commentItem) by done.
    rewrite (omap_fmap_None Item_Comment reviewItem) by done.
    rewrite (omap_fmap_None Item_Comment commitItem) by done.
    by rewrite !app_nil_r.
  - rewrite Hperm, !omap_app.
    rewrite (omap_fmap_None Item_Review commentItem) by done.
    rewrite (omap_fmap_Some Item_Review reviewItem) by done.
    rewrite (omap_fmap_None Item_Review commitItem) by done.
    by rewrite app_nil_r.
  - rewrite Hperm, !omap_app.
    rewrite (omap_fmap_None Item_Commit commentItem) by done.
    rewrite (omap_fmap_None Item_Commit reviewItem) by done.
    by rewrite (omap_fmap_Some Item_Commit commitItem) by done.
Qed.

Lemma timeline_complete_witness :
  length (buildTimeline (H := insertionSorter) sampleLongPR) = 13%nat
  ∧ buildTimeline (H := insertionSorter) sampleLongPR
    ≡ₚ map commentItem (PR_Comments sampleLongPR)
       ++ map reviewItem (PR_Reviews sampleLongPR)
       ++ map commitItem (PR_Commits sampleLongPR)
  ∧ Forall (itemOf sampleLongPR) (buildTimeline (H := insertionSorter) sampleLongPR)
  ∧ StronglySorted (λ a b, CreatedAt a ≤ CreatedAt b)
                   (buildTimeline (H := insertionSorter) sampleLongPR)
  ∧ Forall (taggedFor sampleLongPR)
           (buildTimeline (H := insertionSorter) sampleLongPR)
  ∧ omap Item_Comment (buildTimeline (H := insertionSorter) sampleLongPR)
    ≡ₚ PR_Comments sampleLongPR
  ∧ omap Item_Review (buildTimeline (H := insertionSorter) sampleLongPR)
    ≡ₚ PR_Reviews sampleLongPR
  ∧ omap Item_Commit (buildTimeline (H := insertionSorter) sampleLongPR)
    ≡ₚ PR_Commits sampleLongPR.
Proof.
  exact (timeline_complete_and_ordered insertionSorter sampleLongPR
           insertionSorter_contract).
Defined.

(** C3, as the claim has it, fails.  On thirteen items the standard
    library's sort moves a review before the comments of the same
    timestamp, whatever its random generator; and a sorter that keeps to
    what [sort.Slice] documents may reverse three tied items. *)
Lemma timeline_ties_not_kept :
  (¬ ∃ next : Z → Z,
       itemsAt 5 (buildTimeline (H := goSorter next) sampleLongPR)
       = itemsAt 5 (unsortedTimeline sampleLongPR))
  ∧ SorterContract backwardSorter
  ∧ itemsAt 5 (buildTimeline (H := backwardSorter) sampleTiedPR)
    ≠ itemsAt 5 (unsortedTimeline sampleTiedPR).
Proof.
  split; [|split].
  - intros [next Hkept]. vm_compute in Hkept. discriminate Hkept.
  - exact backwardSorter_contract.
  - intros Hkept. vm_compute in Hkept. discriminate Hkept.
Qed.

Lemma length_unsortedTimeline pr :
  length (unsortedTimeline pr)
  = (length (PR_Comments pr) + length (PR_Reviews pr) + length (PR_Commits pr))%nat.
Proof. rewrite unsortedTimeline_concat, !length_app, !length_map. lia. Qed.

(** C3, amended.  The timeline is the concatenation comments, reviews,
    commits sorted by timestamp: a rearrangement of it in non-decreasing
    order.  Items of one timestamp keep their concatenation order, comments
    before reviews before commits, whenever the sort is stable.
    [sort.Slice] does not promise that; as implemented it keeps the order
    on timelines of at most twelve items. *)
Theorem timeline_sorted_ties_kept_by_stable_sort (pr : PullRequest) :
  (∀ sorter : SliceSorter,
     SorterContract sorter →
     buildTimeline pr ≡ₚ unsortedTimeline pr
     ∧ StronglySorted (λ a b, CreatedAt a ≤ CreatedAt b) (buildTimeline pr)
     ∧ (StableSorter sorter → ∀ t : Time,
          itemsAt t (buildTimeline pr)
          = itemsAt t (map commentItem (PR_Comments pr))
            ++ itemsAt t (map reviewItem (PR_Reviews pr))
            ++ itemsAt t (map commitItem (PR_Commits pr))))
  ∧ (∀ next : Z → Z,
       (length (PR_Comments pr) + length (PR_Reviews pr)
        + length (PR_Commits pr) ≤ 12)%nat →
       StronglySorted (λ a b, CreatedAt a ≤ CreatedAt b)
                      (buildTimeline (H := goSorter next) pr)
       ∧ ∀ t : Time,
           itemsAt t (buildTimeline (H := goSorter next) pr)
           = itemsAt t (map commentItem (PR_Comments pr))
             ++ itemsAt t (map reviewItem (PR_Reviews pr))
             ++ itemsAt t (map commitItem (PR_Commits pr))).
Proof.
  assert (∀ sorter : SliceSorter,
            SorterContract sorter → StableSorter sorter → ∀ t : Time,
              itemsAt t (buildTimeline pr)
              = itemsAt t (map commentItem (PR_Comments pr))
                ++ itemsAt t (map reviewItem (PR_Reviews pr))
                ++ itemsAt t (map commitItem (PR_Commits pr))) as Hties.
  { intros sorter Hcontract Hst t. unfold buildTimeline, itemsAt, lessItem.
    rewrite (sortSlice_stable_by_key sorter CreatedAt) by done.
    rewrite unsortedTimeline_concat. by rewrite !filter_app. }
  split.
  - intros sorter Hcontract.
    split; [apply sortSlice_perm|split; [apply (sortSlice_by_key CreatedAt)|]].
    by apply Hties.
  - intros next Hshort.
    pose proof insertionSorter_contract as Hcontract.
    assert (buildTimeline (H := goSorter next) pr
            = buildTimeline (H := insertionSorter) pr) as ->.
    { apply goSorter_short. by rewrite length_unsortedTimeline. }
    split.
    + apply (sortSlice_by_key (sorter := insertionSorter) CreatedAt).
    + apply (Hties insertionSorter insertionSorter_contract insertionSorter_stable).
Qed.

Lemma timeline_sorted_ties_kept_witness :
  (SorterContract insertionSorter
   ∧ StableSorter insertionSorter
   ∧ itemsAt 5 (buildTimeline (H := insertionSorter) sampleTiedPR)
     = [commentItem (sampleComment 1 5 None 0); reviewItem (sampleReview 2 5);
        commitItem (sampleCommit "c01" 5)])
  ∧ itemsAt 5 (buildTimeline (H := goSorter (λ r, r)) sampleTiedPR)
    = [commentItem (sampleComment 1 5 None 0); reviewItem (sampleReview 2 5);
       commitItem (sampleCommit "c01" 5)].
Proof.
  destruct (timeline_sorted_ties_kept_by_stable_sort sampleTiedPR)
    as [Hany Hshort].
  split.
  - split; [exact insertionSorter_contract|].
    split; [exact insertionSorter_stable|].
    exact (proj2 (proj2 (Hany insertionSorter insertionSorter_contract))
             insertionSorter_stable 5).
  - refine (proj2 (Hshort (λ r, r) _) 5). simpl. lia.
Defined.

(** ** Review annotation *)

Lemma firstReviewID_nil thread k :
  Comments thread = [] → firstReviewID thread ≠ Some k.
Proof. unfold firstReviewID. by intros ->. Qed.

Lemma firstReviewID_cons thread first rest :
  Comments thread = first :: rest →
  firstReviewID thread = Some (Comment_PullRequestReviewID first).
Proof. unfold firstReviewID. by intros ->. Qed.

Lemma foldl_threadsByReviewStep threads tbr k :
  default [] (foldl threadsByReviewStep tbr threads !! k)
  = default [] (tbr !! k) ++ filter (λ th, firstReviewID th = Some k) threads.
Proof.
  revert tbr. induction threads as [|th threads IH]; intros tbr; simpl.
  - by rewrite app_nil_r.
  - rewrite IH, filter_cons. unfold threadsByReviewStep.
    destruct (Comments th) as [|first rest] eqn:Hth.
    + rewrite decide_False by by apply firstReviewID_nil. done.
    + rewrite (firstReviewID_cons _ _ _ Hth). simpl.
      destruct (decide (Comment_PullRequestReviewID first = k)) as [->|Hne].
      * rewrite lookup_insert_eq, decide_True by done. simpl.
        by rewrite <-app_assoc.
      * rewrite lookup_insert_ne by done.
        rewrite decide_False by congruence. done.
Qed.

Lemma threadsByReview_lookup threads k :
  default [] (threadsByReview threads !! k)
  = filter (λ th, firstReviewID th = Some k) threads.
Proof.
  unfold threadsByReview. by rewrite foldl_threadsByReviewStep, lookup_empty.
Qed.

Lemma wrapInt_small z : - 2 ^ 63 ≤ z < 2 ^ 63 → wrapInt z = z.
Proof. intros Hz. unfold wrapInt. rewrite Z.mod_small; lia. Qed.

Lemma foldl_replyCountStep reviewComments rc k :
  0 ≤ default 0 (rc !! k) →
  default 0 (rc !! k) + Z.of_nat (length reviewComments) < 2 ^ 63 →
  default 0 (foldl replyCountStep rc reviewComments !! k)
  = default 0 (rc !! k) + Z.of_nat (length (repliesOwnedBy k reviewComments)).
Proof.
  revert rc. induction reviewComments as [|c cs IH]; intros rc Hpos Hfit.
  - simpl. lia.
  - simpl foldl. unfold repliesOwnedBy in *. rewrite filter_cons.
    rewrite length_cons in Hfit.
    unfold replyCountStep at 2.
    destruct (Comment_InReplyToID c) as [parent|] eqn:Hparent.
    + destruct (decide (Comment_PullRequestReviewID c = k)) as [->|Hne].
      * rewrite decide_True by done. rewrite IH.
        -- rewrite lookup_insert_eq. simpl.
           rewrite wrapInt_small by lia. lia.
        -- rewrite lookup_insert_eq. simpl. rewrite wrapInt_small by lia. lia.
        -- rewrite lookup_insert_eq. simpl. rewrite wrapInt_small by lia. lia.
      * rewrite decide_False by (by intros [_ ?]).
        rewrite IH; rewrite lookup_insert_ne by done; lia.
    + rewrite decide_False by (by intros [? _]). rewrite IH; lia.
Qed.

Lemma replyCountByReview_lookup reviewComments k :
  Z.of_nat (length reviewComments) < 2 ^ 63 →
  default 0 (replyCountByReview reviewComments !! k)
  = Z.of_nat (length (repliesOwnedBy k reviewComments)).
Proof.
  intros Hfit. unfold replyCountByReview.
  rewrite foldl_replyCountStep; rewrite lookup_empty; simpl; lia.
Qed.

(** C9. The reply count of each annotated review is the number of review
    comments that have a parent reference and name the review as owner,
    whatever the threads are.  A slice holds fewer than 2^63 elements. *)
Theorem review_reply_count_counts_owned_replies
    (threads : list CommentThread) (reviewComments : list Comment)
    (reviews : list Review) :
  Z.of_nat (length reviewComments) < 2 ^ 63 →
  Forall2 (λ r r',
             Review_ID r' = Review_ID r
             ∧ Review_ReplyCount r'
               = Z.of_nat (length (repliesOwnedBy (Review_ID r) reviewComments)))
          reviews (attachToReviews threads reviewComments reviews).
Proof.
  intros Hfit.
  unfold attachToReviews. apply Forall2_fmap_r, Forall_Forall2_diag.
  apply Forall_forall. intros r _. simpl.
  by rewrite replyCountByReview_lookup.
Qed.

Lemma review_reply_count_witness :
  Forall2 (λ r r',
             Review_ID r' = Review_ID r
             ∧ Review_ReplyCount r'
               = Z.of_nat (length (repliesOwnedBy (Review_ID r) sampleThreadInput)))
          [sampleReview 7 20; sampleReview 8 21]
          (attachToReviews [] sampleThreadInput [sampleReview 7 20; sampleReview 8 21]).
Proof.
  apply (review_reply_count_counts_owned_replies [] sampleThreadInput
           [sampleReview 7 20; sampleReview 8 21]).
  vm_compute. reflexivity.
Defined.

(** [LoadPR] annotates the reviews with the threads of [groupIntoThreads];
    what holds of [attachToReviews] for every thread list holds of them. *)
Lemma annotateReviews_Some `{SliceSorter} fuel reviewComments reviews annotated :
  annotateReviews fuel reviewComments reviews = Some annotated ↔
  ∃ threads, groupIntoThreads fuel reviewComments = Some threads
             ∧ annotated = attachToReviews threads reviewComments reviews.
Proof.
  unfold annotateReviews.
  destruct (groupIntoThreads fuel reviewComments) as [threads|]; split.
  - intros [= <-]. eauto.
  - by intros (threads' & [= <-] & ->).
  - done.
  - by intros (threads' & ? & _).
Qed.

(** ** The parent-chain walk *)

Lemma walkStep_Some_key m r r' : walkStep m r = Some r' → is_Some (m !! r).
Proof. unfold walkStep. destruct (m !! r); [eauto|done]. Qed.

Lemma walk_more_fuel m n n' r k :
  walk n m r = Some k → (n ≤ n')%nat → walk n' m r = Some k.
Proof.
  revert n' r. induction n as [|n IH]; intros n' r Hw Hle; [done|].
  destruct n' as [|n']; [lia|]. simpl in *.
  destruct (walkStep m r); [|done]. apply IH; [done|lia].
Qed.

(** On a cycle every turn of the loop leads to another turn. *)
Lemma tc_parentOf_shift m r :
  tc (parentOf m) r r → ∃ r', walkStep m r = Some r' ∧ tc (parentOf m) r' r'.
Proof.
  intros Hc. inversion Hc as [? ? Hstep|? r' ? Hstep Hrest]; subst.
  - exists r. split; [done|]. by apply tc_once.
  - exists r'. split; [done|]. eapply tc_r; done.
Qed.

Lemma walk_on_cycle m n r : tc (parentOf m) r r → walk n m r = None.
Proof.
  revert r. induction n as [|n IH]; intros r Hc; [done|].
  apply tc_parentOf_shift in Hc as (r' & Hstep & Hc'). simpl.
  rewrite Hstep. by apply IH.
Qed.

(** A walk that outlasts its fuel has seen as many distinct keys of the map
    as it had fuel, or has gone round a cycle. *)
Lemma walk_None_distinct_keys m n r :
  walk n m r = None →
  (∃ x, tc (parentOf m) x x)
  ∨ (∃ l : list Z, NoDup l ∧ length l = n
       ∧ ∀ x, x ∈ l → is_Some (m !! x) ∧ rtc (parentOf m) r x).
Proof.
  revert r. induction n as [|n IH]; intros r Hw.
  - right. exists []. split; [constructor|]. split; [done|]. intros x Hx.
    by apply elem_of_nil in Hx.
  - simpl in Hw. destruct (walkStep m r) as [r'|] eqn:Hstep; [|done].
    destruct (IH r' Hw) as [Hcyc|(l & Hnd & Hlen & Hl)]; [by left|].
    destruct (decide (r ∈ l)) as [Hin|Hnin].
    + left. exists r. destruct (Hl r Hin) as [_ Hback].
      eapply tc_rtc_r; [|done]. by apply tc_once.
    + right. exists (r :: l). split; [by constructor|]. split; [simpl; lia|].
      intros x Hx. apply elem_of_cons in Hx as [->|Hx].
      * split; [by eapply walkStep_Some_key|done].
      * destruct (Hl x Hx) as [Hkey Hreach]. split; [done|].
        eapply rtc_l; done.
Qed.

Lemma walk_total_of_acyclic m r :
  Acyclic m → is_Some (walk (S (size m)) m r).
Proof.
  intros Hacyc. destruct (walk (S (size m)) m r) as [k|] eqn:Hw; [eauto|].
  exfalso. apply walk_None_distinct_keys in Hw as [[x Hx]|(l & Hnd & Hlen & Hl)].
  - by apply (Hacyc x).
  - assert (l ⊆+ elements (dom m)) as Hsub.
    { apply NoDup_submseteq; [done|]. intros x Hx.
      apply elem_of_elements, elem_of_dom. by apply Hl. }
    apply submseteq_length in Hsub.
    change (length (elements (dom m))) with (size (dom m)) in Hsub.
    rewrite size_dom in Hsub. lia.
Qed.

Lemma acyclic_of_walks m n :
  (∀ r, is_Some (m !! r) → is_Some (walk n m r)) → Acyclic m.
Proof.
  intros Hwalks r Hc.
  pose proof (walk_on_cycle m n r Hc) as Hnone.
  apply tc_parentOf_shift in Hc as (r' & Hstep & _).
  apply walkStep_Some_key in Hstep. apply Hwalks in Hstep as [k Hk]. congruence.
Qed.

(** ** The lookup table [commentByID] *)

Lemma foldl_insert_comment_lookup comments (m0 : gmap Z Comment) k :
  foldl (λ m c, <[Comment_ID c := c]> m) m0 comments !! k
  = match last (filter (λ c, Comment_ID c = k) comments) with
    | Some c => Some c
    | None => m0 !! k
    end.
Proof.
  revert m0. induction comments as [|c cs IH]; intros m0; simpl; [done|].
  rewrite IH, filter_cons.
  destruct (decide (Comment_ID c = k)) as [->|Hne].
  - rewrite last_cons, lookup_insert_eq.
    by destruct (last (filter _ cs)).
  - by rewrite lookup_insert_ne.
Qed.

(** The table maps an id to the last comment that carries it. *)
Lemma commentByID_lookup comments k :
  commentByID comments !! k = last (filter (λ c, Comment_ID c = k) comments).
Proof.
  unfold commentByID. rewrite foldl_insert_comment_lookup, lookup_empty.
  by destruct (last _).
Qed.

Lemma commentByID_Some comments k c :
  commentByID comments !! k = Some c → c ∈ comments ∧ Comment_ID c = k.
Proof.
  rewrite commentByID_lookup. intros Hlast.
  apply last_Some_elem_of, list_elem_of_filter in Hlast as [Hid Hin]. done.
Qed.

Lemma commentByID_None comments k :
  commentByID comments !! k = None ↔ k ∉ map Comment_ID comments.
Proof.
  rewrite commentByID_lookup, last_None. split.
  - intros Hnil Hin. apply list_elem_of_fmap in Hin as (c & -> & Hc).
    assert (c ∈ filter (λ c', Comment_ID c' = Comment_ID c) comments) as Hf
      by by apply list_elem_of_filter.
    rewrite Hnil in Hf. by apply elem_of_nil in Hf.
  - intros Hnin.
    destruct (filter (λ c, Comment_ID c = k) comments) as [|c rest] eqn:Hf; [done|].
    assert (c ∈ filter (λ c, Comment_ID c = k) comments) as Hc
      by (rewrite Hf; apply elem_of_cons; by left).
    apply list_elem_of_filter in Hc as [<- Hc].
    exfalso. apply Hnin. by apply list_elem_of_fmap_2.
Qed.

Lemma commentByID_unique comments c :
  NoDup (map Comment_ID comments) → c ∈ comments →
  commentByID comments !! Comment_ID c = Some c.
Proof.
  intros Hnd Hc.
  destruct (commentByID comments !! Comment_ID c) as [c'|] eqn:Hlook.
  - apply commentByID_Some in Hlook as [Hc' Hid]. f_equal.
    apply list_elem_of_lookup in Hc as [i Hi].
    apply list_elem_of_lookup in Hc' as [j Hj].
    assert (i = j) as ->; [|congruence].
    eapply NoDup_lookup; [exact Hnd| |].
    + rewrite list_lookup_fmap, Hi. done.
    + rewrite list_lookup_fmap, Hj. simpl. by rewrite Hid.
  - apply commentByID_None in Hlook. exfalso. apply Hlook.
    by apply list_elem_of_fmap_2.
Qed.

Lemma size_foldl_insert_comment comments (m0 : gmap Z Comment) :
  (size (foldl (λ m c, <[Comment_ID c := c]> m) m0 comments)
   ≤ size m0 + length comments)%nat.
Proof.
  revert m0. induction comments as [|c cs IH]; intros m0; simpl; [lia|].
  specialize (IH (<[Comment_ID c := c]> m0)). rewrite map_size_insert in IH.
  destruct (m0 !! Comment_ID c); unfold id in IH; lia.
Qed.

Lemma size_commentByID comments :
  (size (commentByID comments) ≤ length comments)%nat.
Proof.
  unfold commentByID.
  pose proof (size_foldl_insert_comment comments ∅) as Hsize.
  rewrite map_size_empty in Hsize. lia.
Qed.

(** With no cycle among the references, a walk from any id ends within
    one turn more than there are comments. *)
Lemma walk_ends comments r :
  Acyclic (commentByID comments) →
  is_Some (walk (S (length comments)) (commentByID comments) r).
Proof.
  intros Hacyc.
  destruct (walk_total_of_acyclic _ r Hacyc) as [k Hk]. exists k.
  eapply walk_more_fuel; [done|]. pose proof (size_commentByID comments). lia.
Qed.

(** A check that runs: one walk per comment. *)
Lemma acyclic_by_walking comments n :
  forallb (λ c, bool_decide
             (is_Some (walk n (commentByID comments) (Comment_ID c))))
          comments = true →
  Acyclic (commentByID comments).
Proof.
  intros Hall. apply (acyclic_of_walks _ n). intros r [c Hc].
  apply commentByID_Some in Hc as [Hc <-].
  rewrite forallb_forall in Hall.
  assert (In c comments) as Hin by by apply list_elem_of_In.
  apply Hall in Hin. by apply bool_decide_eq_true in Hin.
Qed.

(** ** The grouping loop *)

Lemma groupStep_repliesOf fuel m st c st' k :
  groupStep fuel m st c = Some st' →
  repliesOf (rootToReplies st') k
  = groupOfStep fuel m k (repliesOf (rootToReplies st) k) c.
Proof.
  unfold groupStep, groupOfStep, effectiveRoot, repliesOf.
  destruct (Comment_InReplyToID c) as [parentID|] eqn:Hparent.
  - destruct (walk fuel m parentID) as [rootID|] eqn:Hwalk; [|done].
    intros [= <-]. cbn [rootToReplies].
    destruct (decide (Some parentID = None)) as [|_]; [done|].
    destruct (decide (Some rootID = Some k)) as [[= ->]|Hne].
    + by rewrite lookup_insert_eq.
    + rewrite lookup_insert_ne; [done|congruence].
  - intros [= <-]. cbn [rootToReplies].
    destruct (decide (None = None)) as [_|]; [|done].
    destruct (decide (Comment_ID c = k)) as [->|Hne].
    + by rewrite lookup_insert_eq.
    + by rewrite lookup_insert_ne.
Qed.

Lemma groupLoop_repliesOf fuel m comments st st' k :
  groupLoop fuel m st comments = Some st' →
  repliesOf (rootToReplies st') k
  = foldl (groupOfStep fuel m k) (repliesOf (rootToReplies st) k) comments.
Proof.
  revert st. induction comments as [|c cs IH]; intros st; simpl.
  - by intros [= ->].
  - destruct (groupStep fuel m st c) as [st1|] eqn:Hstep; [|done].
    intros Hloop. rewrite (IH _ Hloop). f_equal.
    by apply groupStep_repliesOf.
Qed.

Lemma groupLoop_rootIDs fuel m comments st st' :
  groupLoop fuel m st comments = Some st' →
  rootIDs st'
  = rootIDs st
    ++ map Comment_ID (filter (λ c, Comment_InReplyToID c = None) comments).
Proof.
  revert st. induction comments as [|c cs IH]; intros st; simpl.
  - intros [= ->]. by rewrite app_nil_r.
  - destruct (groupStep fuel m st c) as [st1|] eqn:Hstep; [|done].
    intros Hloop. rewrite (IH _ Hloop), filter_cons.
    unfold groupStep in Hstep.
    destruct (Comment_InReplyToID c) as [parentID|] eqn:Hparent.
    + destruct (walk fuel m parentID); [|done].
      injection Hstep as <-. cbn [rootIDs].
      by destruct (decide (Some parentID = None)).
    + injection Hstep as <-. cbn [rootIDs].
      destruct (decide (None = None)) as [_|]; [|done].
      by rewrite fmap_cons, <-app_assoc.
Qed.

Lemma groupLoop_total fuel m comments st :
  (∀ c, c ∈ comments → is_Some (effectiveRoot fuel m c)) →
  is_Some (groupLoop fuel m st comments).
Proof.
  revert st. induction comments as [|c cs IH]; intros st Hall; simpl; [eauto|].
  assert (is_Some (groupStep fuel m st c)) as [st1 ->].
  { destruct (Hall c) as [k Hk]; [apply elem_of_cons; by left|].
    unfold groupStep. unfold effectiveRoot in Hk.
    destruct (Comment_InReplyToID c); [rewrite Hk|]; eauto. }
  apply IH. intros c' Hc'. apply Hall, elem_of_cons. by right.
Qed.

Lemma groupLoop_more_fuel m n n' comments st st' :
  groupLoop n m st comments = Some st' → (n ≤ n')%nat →
  groupLoop n' m st comments = Some st'.
Proof.
  intros Hloop Hle. revert st Hloop.
  induction comments as [|c cs IH]; intros st; simpl; [done|].
  destruct (groupStep n m st c) as [st1|] eqn:Hstep; [|done].
  intros Hloop.
  assert (groupStep n' m st c = Some st1) as ->; [|by apply IH].
  unfold groupStep in *.
  destruct (Comment_InReplyToID c) as [parentID|]; [|done].
  destruct (walk n m parentID) as [rootID|] eqn:Hwalk; [|done].
  by rewrite (walk_more_fuel _ _ _ _ _ Hwalk Hle).
Qed.

(** *** The slice kept under one key *)

Section GroupOf.
Context (fuel : nat) (m : gmap Z Comment) (k : Z).

Lemma groupOf_no_root comments group :
  (∀ c, c ∈ comments → Comment_InReplyToID c = None → Comment_ID c ≠ k) →
  foldl (groupOfStep fuel m k) group comments
  = group ++ filter (replyTo fuel m k) comments.
Proof.
  revert group. induction comments as [|c cs IH]; intros group Hno; simpl.
  - by rewrite app_nil_r.
  - rewrite IH by (intros c' Hc'; apply Hno, elem_of_cons; by right).
    rewrite filter_cons. unfold groupOfStep, replyTo.
    destruct (decide (Comment_InReplyToID c = None)) as [Hroot|Hreply].
    + destruct (decide (_ ≠ _ ∧ _)) as [[? _]|_]; [done|].
      destruct (decide (Comment_ID c = k)) as [Hid|_]; [|done].
      exfalso. revert Hid. apply Hno; [apply elem_of_cons; by left|done].
    + destruct (decide (effectiveRoot fuel m c = Some k)) as [Hk|Hk].
      * destruct (decide (_ ≠ _ ∧ _)) as [_|Hn]; [|by destruct Hn].
        by rewrite <-app_assoc.
      * destruct (decide (_ ≠ _ ∧ _)) as [[_ ?]|_]; done.
Qed.

Lemma groupOf_after_root before root after group :
  Comment_InReplyToID root = None → Comment_ID root = k →
  (∀ c, c ∈ after → Comment_InReplyToID c = None → Comment_ID c ≠ k) →
  foldl (groupOfStep fuel m k) group (before ++ root :: after)
  = root :: filter (replyTo fuel m k) after.
Proof.
  intros Hroot Hid Hno. rewrite foldl_app. simpl.
  unfold groupOfStep at 2. rewrite !decide_True by done.
  by rewrite groupOf_no_root.
Qed.

Lemma groupOf_sublist comments group :
  foldl (groupOfStep fuel m k) group comments `sublist_of` group ++ comments.
Proof.
  revert group. induction comments as [|c cs IH]; intros group; simpl.
  - by rewrite app_nil_r.
  - etrans; [apply IH|]. unfold groupOfStep.
    repeat case_decide.
    + by apply sublist_inserts_l.
    + apply sublist_app; [done|]. by apply sublist_cons.
    + by rewrite <-app_assoc.
    + apply sublist_app; [done|]. by apply sublist_cons.
Qed.

Lemma groupOf_elem_of comments group d :
  d ∈ foldl (groupOfStep fuel m k) group comments →
  d ∈ group ∨ (d ∈ comments ∧ effectiveRoot fuel m d = Some k).
Proof.
  revert group. induction comments as [|c cs IH]; intros group; simpl.
  - by left.
  - intros Hd. apply IH in Hd as [Hd|[Hd Hk]].
    + unfold groupOfStep in Hd.
      destruct (decide (Comment_InReplyToID c = None)) as [Hroot|Hreply].
      * destruct (decide (Comment_ID c = k)) as [Hid|Hid]; [|by left].
        apply list_elem_of_singleton in Hd as ->. right.
        split; [apply elem_of_cons; by left|].
        unfold effectiveRoot. rewrite Hroot. by f_equal.
      * destruct (decide (effectiveRoot fuel m c = Some k)) as [Hk|Hk]; [|by left].
        apply elem_of_app in Hd as [Hd|Hd]; [by left|].
        apply list_elem_of_singleton in Hd as ->. right.
        split; [apply elem_of_cons; by left|done].
    + right. split; [apply elem_of_cons; by right|done].
Qed.
End GroupOf.

(** ** The emitting loop *)

(** Sorting the slice kept under [rootID] in place. *)
Lemma repliesOf_sorted_in_place {sorter : SliceSorter} `{!SorterContract sorter} (r : gmap Z (list Comment)) rootID k :
  repliesOf (match r !! rootID with
             | Some _ => <[rootID := sortSlice lessComment (repliesOf r rootID)]> r
             | None => r
             end) k
  = if decide (k = rootID) then sortSlice lessComment (repliesOf r rootID)
    else repliesOf r k.
Proof.
  unfold repliesOf. destruct (decide (k = rootID)) as [->|Hne].
  - destruct (r !! rootID) as [l|] eqn:Hl.
    + by rewrite lookup_insert_eq.
    + rewrite Hl. simpl. symmetry. apply Permutation_nil_r.
      apply sortSlice_perm.
  - destruct (r !! rootID); [|done]. by rewrite lookup_insert_ne.
Qed.

Lemma emitThreads_fst `{SliceSorter} roots r :
  map fst (emitThreads r roots) = roots.
Proof.
  revert r. induction roots as [|k roots IH]; intros r; simpl; [done|].
  by rewrite IH.
Qed.

(** Each emitted thread is the slice kept under its root id, rearranged
    into non-decreasing order of creation. *)
Lemma emitThreads_sorted_groups {sorter : SliceSorter} `{!SorterContract sorter} roots r r0 :
  (∀ k, repliesOf r k ≡ₚ repliesOf r0 k) →
  Forall2 (λ k kt, kt.1 = k
                   ∧ Comments kt.2 ≡ₚ repliesOf r0 k
                   ∧ StronglySorted (λ a b, Comment_CreatedAt a ≤ Comment_CreatedAt b)
                                    (Comments kt.2))
          roots (emitThreads r roots).
Proof.
  revert r. induction roots as [|k roots IH]; intros r Hr; simpl.
  - constructor.
  - constructor.
    + simpl. split; [done|]. split.
      * by rewrite sortSlice_perm.
      * apply (sortSlice_by_key Comment_CreatedAt).
    + apply IH. intros k'. rewrite repliesOf_sorted_in_place.
      case_decide; [subst; by rewrite sortSlice_perm|done].
Qed.

(** Under a stable sort each emitted thread keeps the comments of one
    timestamp in the order of the slice kept under its root id. *)
Lemma emitThreads_stable_groups (sorter : SliceSorter) `{!SorterContract sorter}
    roots r r0 :
  StableSorter sorter →
  (∀ k t, commentsAt t (repliesOf r k) = commentsAt t (repliesOf r0 k)) →
  Forall2 (λ k kt, kt.1 = k
                   ∧ ∀ t, commentsAt t (Comments kt.2) = commentsAt t (repliesOf r0 k))
          roots (emitThreads r roots).
Proof.
  intros Hst. revert r. induction roots as [|k roots IH]; intros r Hr; simpl.
  - constructor.
  - assert (∀ t l, commentsAt t (sortSlice lessComment l) = commentsAt t l) as Hkeep.
    { intros t l. by apply (sortSlice_stable_by_key sorter Comment_CreatedAt). }
    constructor.
    + simpl. split; [done|]. intros t. by rewrite Hkeep.
    + apply IH. intros k' t. rewrite repliesOf_sorted_in_place.
      case_decide; [subst; by rewrite Hkeep|done].
Qed.


(** ** Thread resolution: totality *)

Lemma effectiveRoot_ends comments c :
  Acyclic (commentByID comments) →
  is_Some (effectiveRoot (S (length comments)) (commentByID comments) c).
Proof.
  intros Hacyc. unfold effectiveRoot.
  destruct (Comment_InReplyToID c); [by apply walk_ends|eauto].
Qed.

Lemma groupLoop_Some_walks fuel m comments st st' c :
  groupLoop fuel m st comments = Some st' → c ∈ comments →
  is_Some (effectiveRoot fuel m c).
Proof.
  revert st. induction comments as [|c0 cs IH]; intros st Hloop Hc.
  - by apply elem_of_nil in Hc.
  - simpl in Hloop.
    destruct (groupStep fuel m st c0) as [st1|] eqn:Hstep; [|done].
    apply elem_of_cons in Hc as [->|Hc]; [|by eapply IH].
    unfold groupStep in Hstep. unfold effectiveRoot.
    destruct (Comment_InReplyToID c0) as [parentID|]; [|eauto].
    destruct (walk fuel m parentID); [eauto|done].
Qed.

Lemma groupIntoThreads_more_fuel `{SliceSorter} n n' comments threads :
  groupIntoThreads n comments = Some threads → (n ≤ n')%nat →
  groupIntoThreads n' comments = Some threads.
Proof.
  unfold groupIntoThreads, keyedThreads. intros Hn Hle.
  destruct (groupLoop n _ _ _) as [st|] eqn:Hloop; [|done].
  by rewrite (groupLoop_more_fuel _ _ _ _ _ _ Hloop Hle).
Qed.

(** A cycle among the parent references keeps the loop turning for ever. *)
Lemma groupIntoThreads_on_cycle `{SliceSorter} fuel comments x :
  tc (parentOf (commentByID comments)) x x →
  groupIntoThreads fuel comments = None.
Proof.
  intros Hcyc. unfold groupIntoThreads, keyedThreads.
  destruct (groupLoop fuel _ _ _) as [st|] eqn:Hloop; [exfalso|done].
  pose proof Hcyc as Hx.
  apply tc_parentOf_shift in Hx as (x' & Hstep & Hcyc').
  unfold walkStep in Hstep.
  destruct (commentByID comments !! x) as [c|] eqn:Hc; [|done].
  apply commentByID_Some in Hc as [Hc _].
  destruct (groupLoop_Some_walks _ _ _ _ _ c Hloop Hc) as [k Hk].
  unfold effectiveRoot in Hk. rewrite Hstep in Hk.
  by rewrite (walk_on_cycle _ fuel x' Hcyc') in Hk.
Qed.

(** C2, as the claim has it, fails: a comment that names itself as parent
    keeps the walk turning, whatever the fuel and the sorter. *)
Lemma thread_resolution_loops_on_self_reply :
  ¬ ∃ (sorter : SliceSorter) (fuel : nat) (threads : list CommentThread),
      groupIntoThreads fuel [sampleComment 1 10 (Some 1) 7] = Some threads.
Proof.
  intros (sorter & fuel & threads & Hsome).
  rewrite (groupIntoThreads_on_cycle fuel _ 1) in Hsome; [done|].
  by apply tc_once.
Qed.

(** C2, amended.  When no parent reference leads back to its own comment
    (dangling references are allowed), thread resolution returns: one turn
    of the walk more than there are comments is enough for every walk, and
    more fuel changes nothing.  When some reference does lead back, it
    returns for no amount of fuel. *)
Theorem thread_resolution_total_without_cycles
    (sorter : SliceSorter) (comments : list Comment) :
  (Acyclic (commentByID comments) →
   ∃ threads : list CommentThread,
     ∀ fuel, (length comments < fuel)%nat →
             groupIntoThreads fuel comments = Some threads)
  ∧ ((∃ x, tc (parentOf (commentByID comments)) x x) →
     ∀ fuel, groupIntoThreads fuel comments = None).
Proof.
  split.
  - intros Hacyc.
    destruct (groupLoop_total (S (length comments)) (commentByID comments)
                comments noGroups) as [st Hst].
    { intros c _. by apply effectiveRoot_ends. }
    assert (is_Some (groupIntoThreads (S (length comments)) comments))
      as [threads Hthreads].
    { unfold groupIntoThreads, keyedThreads. rewrite Hst. eauto. }
    exists threads. intros fuel Hfuel.
    eapply groupIntoThreads_more_fuel; [done|lia].
  - intros [x Hcyc] fuel. by eapply groupIntoThreads_on_cycle.
Qed.

Lemma thread_resolution_total_witness :
  ∃ threads : list CommentThread,
    ∀ fuel, (2 < fuel)%nat →
      groupIntoThreads (H := insertionSorter) fuel
        [sampleComment 1 10 None 7; sampleComment 2 11 (Some 99) 7]
      = Some threads.
Proof.
  apply (thread_resolution_total_without_cycles insertionSorter
           [sampleComment 1 10 None 7; sampleComment 2 11 (Some 99) 7]).
  apply (acyclic_by_walking _ 3). vm_compute. reflexivity.
Defined.

(** ** Thread resolution: dangling parent references *)

Lemma walk_absent m n X : m !! X = None → walk (S n) m X = Some X.
Proof. intros HX. simpl. unfold walkStep. by rewrite HX. Qed.

(** A walk that outlasts its fuel has seen as many distinct keys of the map
    as it had fuel, or has come to a cycle. *)
Lemma walk_None_reaches_cycle m n r :
  walk n m r = None →
  (∃ x, rtc (parentOf m) r x ∧ tc (parentOf m) x x)
  ∨ (∃ l : list Z, NoDup l ∧ length l = n
       ∧ ∀ x, x ∈ l → is_Some (m !! x) ∧ rtc (parentOf m) r x).
Proof.
  revert r. induction n as [|n IH]; intros r Hw.
  - right. exists []. split; [constructor|]. split; [done|]. intros x Hx.
    by apply elem_of_nil in Hx.
  - simpl in Hw. destruct (walkStep m r) as [r'|] eqn:Hstep; [|done].
    destruct (IH r' Hw) as [(x & Hreach & Hcyc)|(l & Hnd & Hlen & Hl)].
    { left. exists x. split; [|done]. eapply rtc_l; done. }
    destruct (decide (r ∈ l)) as [Hin|Hnin].
    + left. exists r. split; [done|]. destruct (Hl r Hin) as [_ Hback].
      eapply tc_rtc_r; [|done]. by apply tc_once.
    + right. exists (r :: l). split; [by constructor|]. split; [simpl; lia|].
      intros x Hx. apply elem_of_cons in Hx as [->|Hx].
      * split; [by eapply walkStep_Some_key|done].
      * destruct (Hl x Hx) as [Hkey Hreach]. split; [done|].
        eapply rtc_l; done.
Qed.

(** A walk that comes to a cycle has no end. *)
Lemma walk_into_cycle m n r x :
  rtc (parentOf m) r x → tc (parentOf m) x x → walk n m r = None.
Proof.
  intros Hreach Hcyc. revert n.
  induction Hreach as [r|r r' x Hstep _ IH]; intros n.
  - by apply walk_on_cycle.
  - destruct n as [|n]; [done|]. simpl. unfold parentOf in Hstep.
    rewrite Hstep. by apply IH.
Qed.

(** A walk that ends does so within one turn more than the table has
    keys. *)
Lemma walk_ends_early m n r k :
  walk n m r = Some k → walk (S (size m)) m r = Some k.
Proof.
  intros Hn. destruct (walk (S (size m)) m r) as [k'|] eqn:Hw.
  - pose proof (walk_more_fuel _ _ (n `max` S (size m)) _ _ Hn
                  ltac:(lia)) as H1.
    pose proof (walk_more_fuel _ _ (n `max` S (size m)) _ _ Hw
                  ltac:(lia)) as H2.
    congruence.
  - exfalso.
    apply walk_None_reaches_cycle in Hw as [(x & Hreach & Hcyc)|(l & Hnd & Hlen & Hl)].
    + by rewrite (walk_into_cycle m n r x Hreach Hcyc) in Hn.
    + assert (l ⊆+ elements (dom m)) as Hsub.
      { apply NoDup_submseteq; [done|]. intros x Hx.
        apply elem_of_elements, elem_of_dom. by apply Hl. }
      apply submseteq_length in Hsub.
      change (length (elements (dom m))) with (size (dom m)) in Hsub.
      rewrite size_dom in Hsub. lia.
Qed.

(** Along a broken chain the walk ends at the missing id. *)
Lemma brokenChain_walk comments X c :
  NoDup (map Comment_ID comments) →
  X ∉ map Comment_ID comments →
  brokenChainTo comments X c →
  ∃ n, effectiveRoot n (commentByID comments) c = Some X.
Proof.
  intros Hnd Habsent. induction 1 as [c Hparent|c parent Hparent Hin _ [n IH]].
  - exists 1%nat. unfold effectiveRoot. rewrite Hparent.
    by apply walk_absent, commentByID_None.
  - exists (S n). unfold effectiveRoot in *. rewrite Hparent.
    destruct (Comment_InReplyToID parent) as [q|] eqn:Hq.
    + simpl. unfold walkStep. by rewrite (commentByID_unique _ _ Hnd Hin), Hq.
    + injection IH as <-. exfalso. apply Habsent. by apply list_elem_of_fmap_2.
Qed.

(** A walk that ends at an id of no comment has gone along a broken
    chain. *)
Lemma walk_brokenChain comments X n p c :
  X ∉ map Comment_ID comments →
  walk n (commentByID comments) p = Some X →
  Comment_InReplyToID c = Some p →
  brokenChainTo comments X c.
Proof.
  intros Habsent. revert p c. induction n as [|n IH]; intros p c Hw Hc; [done|].
  simpl in Hw. unfold walkStep in Hw.
  destruct (commentByID comments !! p) as [parent|] eqn:Hp.
  - apply commentByID_Some in Hp as [Hin <-].
    destruct (Comment_InReplyToID parent) as [q|] eqn:Hq.
    + eapply chain_continues; [done|done|]. by eapply IH.
    + injection Hw as <-. by apply chain_breaks.
  - injection Hw as <-. by apply chain_breaks.
Qed.

(** C4. A comment [c] whose parent reference [X] is the id of no input
    comment: the walk from [X] stops at its first turn with [X]; the loop
    body appends [c] to the slice kept under [X]; and when the loop has
    gone through the input, that slice holds, in input order, exactly the
    replies whose walk ends at [X], with [c] among them and under no other
    key.  The loop does go through every input without reference cycle.
    The whole broken chain lands there: with pairwise distinct ids, every
    input comment whose parent references lead from comment to comment to
    [X] has a walk that ends at [X] within one turn more than there are
    comments, the slice kept under [X] holds exactly these comments, each
    once and in input order, and none of them is under another key. *)
Theorem dangling_parent_groups_under_unresolved_id
    (comments : list Comment) (c : Comment) (X : Z) :
  c ∈ comments →
  Comment_InReplyToID c = Some X →
  X ∉ map Comment_ID comments →
  (∀ n, walk (S n) (commentByID comments) X = Some X)
  ∧ (∀ n st,
       groupStep (S n) (commentByID comments) st c
       = Some {| rootToReplies :=
                   <[X := repliesOf (rootToReplies st) X ++ [c]]> (rootToReplies st);
                 rootIDs := rootIDs st |})
  ∧ (∀ fuel st,
       groupLoop fuel (commentByID comments) noGroups comments = Some st →
       repliesOf (rootToReplies st) X
       = filter (replyTo fuel (commentByID comments) X) comments
       ∧ c ∈ repliesOf (rootToReplies st) X
       ∧ ∀ k, c ∈ repliesOf (rootToReplies st) k → k = X)
  ∧ (Acyclic (commentByID comments) →
     is_Some (groupLoop (S (length comments)) (commentByID comments)
                        noGroups comments))
  ∧ (NoDup (map Comment_ID comments) →
     (∀ d, brokenChainTo comments X d →
           ∀ fuel, (length comments < fuel)%nat →
                   effectiveRoot fuel (commentByID comments) d = Some X)
     ∧ ∀ fuel st,
         groupLoop fuel (commentByID comments) noGroups comments = Some st →
         (∀ d, d ∈ repliesOf (rootToReplies st) X
               ↔ d ∈ comments ∧ brokenChainTo comments X d)
         ∧ repliesOf (rootToReplies st) X `sublist_of` comments
         ∧ ∀ d k, d ∈ comments → brokenChainTo comments X d →
                  d ∈ repliesOf (rootToReplies st) k → k = X).
Proof.
  intros Hc Hparent Habsent.
  assert (∀ n, walk (S n) (commentByID comments) X = Some X) as Hwalk.
  { intros n. by apply walk_absent, commentByID_None. }
  split; [done|]. split.
  { intros n st. unfold groupStep. by rewrite Hparent, Hwalk. }
  assert (Hgroup : ∀ fuel st,
    groupLoop fuel (commentByID comments) noGroups comments = Some st →
    repliesOf (rootToReplies st) X
    = filter (replyTo fuel (commentByID comments) X) comments).
  { intros fuel st Hloop. rewrite (groupLoop_repliesOf _ _ _ _ _ X Hloop).
    rewrite groupOf_no_root; [done|].
    intros d Hd _ Hid. apply Habsent. rewrite <-Hid.
    by apply list_elem_of_fmap_2. }
  split; [|split].
  - intros fuel st Hloop.
    assert (effectiveRoot fuel (commentByID comments) c = Some X) as Hroot.
    { destruct (groupLoop_Some_walks _ _ _ _ _ c Hloop Hc) as [k Hk].
      rewrite Hk. unfold effectiveRoot in Hk. rewrite Hparent in Hk.
      destruct fuel as [|n]; [done|]. rewrite Hwalk in Hk. done. }
    split; [by apply Hgroup|]. split.
    + rewrite (Hgroup _ _ Hloop). apply list_elem_of_filter. split; [|done].
      split; [by rewrite Hparent|done].
    + intros k Hk. rewrite (groupLoop_repliesOf _ _ _ _ _ k Hloop) in Hk.
      apply groupOf_elem_of in Hk as [Hk|[_ Hk]].
      * by apply elem_of_nil in Hk.
      * congruence.
  - intros Hacyc. apply groupLoop_total. intros d _. by apply effectiveRoot_ends.
  - intros Hnd.
    assert (Hends : ∀ d, brokenChainTo comments X d →
              ∀ fuel, (length comments < fuel)%nat →
                      effectiveRoot fuel (commentByID comments) d = Some X).
    { intros d Hchain fuel Hfuel.
      destruct (brokenChain_walk comments X d Hnd Habsent Hchain) as [n Hn].
      unfold effectiveRoot in *.
      destruct (Comment_InReplyToID d) as [p|]; [|by inversion Hchain].
      apply walk_ends_early in Hn.
      eapply walk_more_fuel; [exact Hn|].
      pose proof (size_commentByID comments). lia. }
    split; [exact Hends|]. intros fuel st Hloop.
    assert (Hhere : ∀ d, d ∈ comments → brokenChainTo comments X d →
              effectiveRoot fuel (commentByID comments) d = Some X).
    { intros d Hd Hchain.
      destruct (groupLoop_Some_walks _ _ _ _ _ d Hloop Hd) as [k Hk].
      pose proof (Hends d Hchain (S (fuel `max` length comments))
                    ltac:(lia)) as Hlate.
      unfold effectiveRoot in *.
      destruct (Comment_InReplyToID d) as [p|]; [|by inversion Hchain].
      pose proof (walk_more_fuel _ _ (S (fuel `max` length comments)) _ _ Hk
                    ltac:(lia)).
      congruence. }
    split; [|split].
    + intros d. rewrite (Hgroup _ _ Hloop), list_elem_of_filter. split.
      * intros [[Hreply Hroot] Hd]. split; [done|].
        unfold effectiveRoot in Hroot.
        destruct (Comment_InReplyToID d) as [p|] eqn:Hp; [|done].
        by eapply walk_brokenChain.
      * intros [Hd Hchain]. split; [|done]. split; [|by apply Hhere].
        inversion Hchain; congruence.
    + rewrite (Hgroup _ _ Hloop). apply sublist_filter.
    + intros d k Hd Hchain Hk.
      rewrite (groupLoop_repliesOf _ _ _ _ _ k Hloop) in Hk.
      apply groupOf_elem_of in Hk as [Hk|[_ Hk]].
      * by apply elem_of_nil in Hk.
      * rewrite (Hhere d Hd Hchain) in Hk. congruence.
Qed.

Lemma dangling_parent_witness :
  ∃ st : Groups,
    groupLoop 3 (commentByID sampleBrokenChain) noGroups sampleBrokenChain = Some st
    ∧ sampleComment 2 11 (Some 99) 7 ∈ repliesOf (rootToReplies st) 99
    ∧ sampleComment 3 12 (Some 2) 7 ∈ repliesOf (rootToReplies st) 99
    ∧ ∀ k, sampleComment 3 12 (Some 2) 7 ∈ repliesOf (rootToReplies st) k → k = 99.
Proof.
  destruct (dangling_parent_groups_under_unresolved_id
              sampleBrokenChain (sampleComment 2 11 (Some 99) 7) 99)
    as (_ & _ & Hloop & _ & Hchain).
  - apply elem_of_cons. right. apply elem_of_cons. by left.
  - reflexivity.
  - intros Hin. apply list_elem_of_In in Hin. simpl in Hin. lia.
  - destruct (groupLoop 3 (commentByID sampleBrokenChain) noGroups
                sampleBrokenChain) as [st|] eqn:Hst; [|by vm_compute in Hst].
    exists st. split; [done|].
    destruct (Hloop 3%nat st Hst) as (_ & Hc & _). split; [exact Hc|].
    destruct Hchain as [_ Hchain].
    { simpl. repeat (apply NoDup_cons; split;
        [rewrite ?elem_of_cons, elem_of_nil; intuition discriminate|]).
      apply NoDup_nil_2. }
    destruct (Hchain 3%nat st Hst) as (Hgroup & _ & Hone).
    assert (Hin3 : sampleComment 3 12 (Some 2) 7 ∈ sampleBrokenChain)
      by (apply elem_of_cons; by left).
    assert (Hchain3 : brokenChainTo sampleBrokenChain 99
                        (sampleComment 3 12 (Some 2) 7)).
    { apply (chain_continues _ _ _ (sampleComment 2 11 (Some 99) 7));
        [reflexivity| |by apply chain_breaks].
      apply elem_of_cons. right. apply elem_of_cons. by left. }
    split; [by apply Hgroup|].
    intros k. by apply Hone.
Defined.

(** ** Thread resolution: what the threads hold *)


Lemma filter_none {A : Type} (P : A → Prop) `{∀ x, Decision (P x)} (l : list A) :
  (∀ x, x ∈ l → ¬ P x) → filter P l = [].
Proof.
  induction l as [|a l IH]; intros Hno; [done|].
  rewrite filter_cons, IH by (intros x Hx; apply Hno, elem_of_cons; by right).
  rewrite decide_False; [done|]. apply Hno, elem_of_cons. by left.
Qed.





Lemma rootIDsOf_elem_of comments k :
  k ∈ rootIDsOf comments ↔
  ∃ root, root ∈ comments ∧ Comment_InReplyToID root = None ∧ Comment_ID root = k.
Proof.
  unfold rootIDsOf. rewrite list_elem_of_fmap. split.
  - intros (root & -> & Hroot). apply list_elem_of_filter in Hroot as [? ?]. eauto.
  - intros (root & Hin & Hnone & <-). exists root. split; [done|].
    by apply list_elem_of_filter.
Qed.

Lemma rootIDsOf_sublist comments :
  rootIDsOf comments `sublist_of` map Comment_ID comments.
Proof. unfold rootIDsOf. apply fmap_sublist, sublist_filter. Qed.

Lemma groupLoop_rootIDsOf fuel m comments st :
  groupLoop fuel m noGroups comments = Some st → rootIDs st = rootIDsOf comments.
Proof. intros Hloop. by rewrite (groupLoop_rootIDs _ _ _ _ _ Hloop). Qed.

(** The comparison of root ids never meets an id missing from the table. *)
Lemma rootIDs_resolved fuel comments st id :
  groupLoop fuel (commentByID comments) noGroups comments = Some st →
  id ∈ rootIDs st → is_Some (commentByID comments !! id).
Proof.
  intros Hloop Hid. rewrite (groupLoop_rootIDsOf _ _ _ _ Hloop) in Hid.
  apply rootIDsOf_elem_of in Hid as (root & Hroot & _ & <-).
  destruct (commentByID comments !! Comment_ID root) eqn:Hlook; [eauto|].
  apply commentByID_None in Hlook. exfalso. apply Hlook.
  by apply list_elem_of_fmap_2.
Qed.

(** No thread holds a comment grouped under an id that is no root id. *)
Lemma emitted_comment_is_anchored {sorter : SliceSorter} `{!SorterContract sorter} fuel comments keyed kt c :
  keyedThreads fuel comments = Some keyed →
  kt ∈ keyed → c ∈ Comments kt.2 →
  c ∈ comments ∧ kt.1 ∈ rootIDsOf comments
  ∧ effectiveRoot fuel (commentByID comments) c = Some kt.1.
Proof.
  unfold keyedThreads.
  destruct (groupLoop fuel _ _ _) as [st|] eqn:Hloop; [|done].
  intros [= <-] Hkt Hc.
  pose proof (emitThreads_sorted_groups
                (sortSlice (lessRoot (commentByID comments)) (rootIDs st))
                (rootToReplies st) (rootToReplies st) (λ _, reflexivity _)) as Hall.
  apply list_elem_of_lookup in Hkt as [i Hi].
  destruct (Forall2_lookup_r _ _ _ _ _ Hall Hi) as (k & Hk & Hfst & Hperm & _).
  rewrite Hperm, (groupLoop_repliesOf _ _ _ _ _ k Hloop) in Hc.
  apply groupOf_elem_of in Hc as [Hc|[Hc Hroot]]; [by apply elem_of_nil in Hc|].
  split; [done|]. rewrite Hfst. split; [|done].
  rewrite <-(groupLoop_rootIDsOf _ _ _ _ Hloop).
  rewrite <-(sortSlice_perm _ (lessRoot (commentByID comments))).
  by eapply list_elem_of_lookup_2.
Qed.







(** ** Thread resolution: order inside a thread *)

Lemma split_at_last {A : Type} (P : A → Prop) `{∀ x, Decision (P x)}
    (l : list A) (x : A) :
  x ∈ l → P x →
  ∃ l1 y l2, l = l1 ++ y :: l2 ∧ P y ∧ ∀ z, z ∈ l2 → ¬ P z.
Proof.
  revert x. induction l as [|a l IH]; intros x Hx HP.
  - by apply elem_of_nil in Hx.
  - destruct (decide (Exists P l)) as [Hex|Hnone].
    + apply Exists_exists in Hex as (x' & Hx' & HP').
      destruct (IH x' Hx' HP') as (l1 & y & l2 & -> & Hy & Hl2).
      by exists (a :: l1), y, l2.
    + apply elem_of_cons in Hx as [->|Hx].
      * exists [], a, l. split; [done|]. split; [done|].
        intros z Hz HPz. apply Hnone, Exists_exists. eauto.
      * exfalso. apply Hnone, Exists_exists. eauto.
Qed.

(** The slice kept under a root id holds a comment without parent
    reference: the last one that carries the id. *)
Lemma group_has_root fuel m comments k :
  k ∈ rootIDsOf comments →
  ∃ root, root ∈ foldl (groupOfStep fuel m k) [] comments
          ∧ Comment_InReplyToID root = None.
Proof.
  intros Hk. apply rootIDsOf_elem_of in Hk as (root & Hin & Hroot & Hid).
  destruct (split_at_last
              (λ c, Comment_InReplyToID c = None ∧ Comment_ID c = k)
              comments root Hin (conj Hroot Hid))
    as (before & root' & after & -> & [Hroot' Hid'] & Hafter).
  exists root'. split; [|done].
  rewrite (groupOf_after_root fuel m k before root' after []); try done.
  - apply elem_of_cons. by left.
  - intros c Hc Hnone Hck. by apply (Hafter c).
Qed.

(** In a sorted slice, a comment created before all the others is the
    first. *)
Lemma head_of_sorted (l : list Comment) (c : Comment) :
  StronglySorted (λ a b, Comment_CreatedAt a ≤ Comment_CreatedAt b) l →
  c ∈ l →
  (∀ d, d ∈ l → d ≠ c → Comment_CreatedAt c < Comment_CreatedAt d) →
  head l = Some c.
Proof.
  intros Hsorted Hc Hfirst. destruct l as [|h rest]; [by apply elem_of_nil in Hc|].
  simpl. f_equal. destruct (decide (h = c)) as [|Hne]; [done|exfalso].
  apply elem_of_cons in Hc as [->|Hc]; [done|].
  apply StronglySorted_inv in Hsorted as [_ Hh].
  rewrite Forall_forall in Hh. specialize (Hh c Hc).
  assert (h ∈ h :: rest) as Hh' by (apply elem_of_cons; by left).
  specialize (Hfirst h Hh' Hne). lia.
Qed.

(** C5, as the claim has it, fails: a reply created before its root
    stands before the root in the thread. *)
Lemma early_reply_stands_before_root :
  ¬ ∃ next : Z → Z,
      ∀ threads : list CommentThread,
        groupIntoThreads (H := goSorter next) 2
          [sampleComment 1 10 None 7; sampleComment 2 5 (Some 1) 7]
        = Some threads →
        Forall (λ thread,
                  ∀ root, root ∈ Comments thread →
                          Comment_InReplyToID root = None →
                          head (Comments thread) = Some root) threads.
Proof.
  intros [next Hclaim].
  specialize (Hclaim
    [{| Comments := [sampleComment 2 5 (Some 1) 7; sampleComment 1 10 None 7] |}]
    eq_refl).
  apply Forall_cons_1 in Hclaim as [Hhead _].
  assert (sampleComment 1 10 None 7
          ∈ [sampleComment 2 5 (Some 1) 7; sampleComment 1 10 None 7]) as Hin
    by (apply elem_of_cons; right; apply elem_of_cons; by left).
  specialize (Hhead (sampleComment 1 10 None 7) Hin eq_refl). done.
Qed.

(** C5, amended.  Every thread is in non-decreasing order of creation and
    holds a comment without parent reference; such a comment is the first
    of its thread when it was created before every other comment of the
    thread. *)
Theorem threads_sorted_and_earliest_root_first
    (sorter : SliceSorter) (fuel : nat) (comments : list Comment)
    (threads : list CommentThread) :
  SorterContract sorter →
  groupIntoThreads fuel comments = Some threads →
  Forall (λ thread,
            StronglySorted (λ a b, Comment_CreatedAt a ≤ Comment_CreatedAt b)
                           (Comments thread)
            ∧ (∃ root, root ∈ Comments thread ∧ Comment_InReplyToID root = None)
            ∧ ∀ root,
                root ∈ Comments thread →
                Comment_InReplyToID root = None →
                (∀ d, d ∈ Comments thread → d ≠ root →
                      Comment_CreatedAt root < Comment_CreatedAt d) →
                head (Comments thread) = Some root)
         threads.
Proof.
  intros Hcontract. unfold groupIntoThreads, keyedThreads.
  destruct (groupLoop fuel _ _ _) as [st|] eqn:Hloop; [|done].
  intros [= <-].
  pose proof (emitThreads_sorted_groups
                (sortSlice (lessRoot (commentByID comments)) (rootIDs st))
                (rootToReplies st) (rootToReplies st) (λ _, reflexivity _)) as Hall.
  apply Forall_fmap, Forall_forall. intros kt Hkt.
  apply list_elem_of_lookup in Hkt as [i Hi].
  destruct (Forall2_lookup_r _ _ _ _ _ Hall Hi) as (k & Hk & _ & Hperm & Hsorted).
  simpl. split; [done|]. split.
  - assert (k ∈ rootIDsOf comments) as Hroot.
    { rewrite <-(groupLoop_rootIDsOf _ _ _ _ Hloop).
      rewrite <-(sortSlice_perm _ (lessRoot (commentByID comments))).
      by eapply list_elem_of_lookup_2. }
    destruct (group_has_root fuel (commentByID comments) comments k Hroot)
      as (root & Hin & Hnone).
    exists root. split; [|done].
    by rewrite Hperm, (groupLoop_repliesOf _ _ _ _ _ k Hloop).
  - intros root Hin _ Hfirst. by apply head_of_sorted.
Qed.

Lemma threads_sorted_witness :
  Forall (λ thread,
            StronglySorted (λ a b, Comment_CreatedAt a ≤ Comment_CreatedAt b)
                           (Comments thread)
            ∧ (∃ root, root ∈ Comments thread ∧ Comment_InReplyToID root = None)
            ∧ ∀ root,
                root ∈ Comments thread →
                Comment_InReplyToID root = None →
                (∀ d, d ∈ Comments thread → d ≠ root →
                      Comment_CreatedAt root < Comment_CreatedAt d) →
                head (Comments thread) = Some root)
         [{| Comments := [sampleComment 1 10 None 7; sampleComment 2 11 (Some 1) 7] |}].
Proof.
  apply (threads_sorted_and_earliest_root_first insertionSorter 4 sampleThreadInput).
  - exact insertionSorter_contract.
  - vm_compute. reflexivity.
Defined.

(** ** Review annotation: the first comment and the root *)

(** Every thread comes out in non-decreasing order of creation. *)
Lemma thread_comments_sorted {sorter : SliceSorter} `{!SorterContract sorter}
    fuel comments threads thread :
  groupIntoThreads fuel comments = Some threads →
  thread ∈ threads →
  StronglySorted (λ a b, Comment_CreatedAt a ≤ Comment_CreatedAt b)
                 (Comments thread).
Proof.
  unfold groupIntoThreads, keyedThreads.
  destruct (groupLoop fuel _ _ _) as [st|] eqn:Hloop; [|done].
  intros [= <-] Hin. apply list_elem_of_fmap in Hin as (kt & -> & Hkt).
  pose proof (emitThreads_sorted_groups
                (sortSlice (lessRoot (commentByID comments)) (rootIDs st))
                (rootToReplies st) (rootToReplies st) (λ _, reflexivity _)) as Hall.
  apply list_elem_of_lookup in Hkt as [i Hi].
  destruct (Forall2_lookup_r _ _ _ _ _ Hall Hi) as (k & _ & _ & _ & Hsorted).
  done.
Qed.

(** A thread whose root was created before its other comments is filed
    under the owning review of the root. *)
Lemma earliestRoot_first {sorter : SliceSorter} `{!SorterContract sorter}
    fuel comments threads thread root :
  groupIntoThreads fuel comments = Some threads →
  thread ∈ threads →
  earliestRoot thread root →
  firstReviewID thread = Some (Comment_PullRequestReviewID root).
Proof.
  intros Hthreads Hin (Hroot & _ & Hfirst). unfold firstReviewID.
  rewrite (head_of_sorted (Comments thread) root); [done| |done|done].
  by eapply thread_comments_sorted.
Qed.

(** C8, as the claim has it, fails: a thread is filed under the owning
    review of its first comment, and a reply created before the root
    stands first.  The thread of a root owned by review 7 with an earlier
    reply owned by review 8 goes to review 8; review 7 gets none. *)
Lemma thread_is_filed_under_an_earlier_reply :
  ¬ ∃ next : Z → Z,
      ∀ threads annotated,
        groupIntoThreads (H := goSorter next) 2
          [sampleComment 1 10 None 7; sampleComment 2 5 (Some 1) 8]
        = Some threads →
        annotateReviews (H := goSorter next) 2
          [sampleComment 1 10 None 7; sampleComment 2 5 (Some 1) 8]
          [sampleReview 7 20; sampleReview 8 21]
        = Some annotated →
        Forall (λ review,
                  ∀ thread root,
                    thread ∈ threads →
                    root ∈ Comments thread →
                    Comment_InReplyToID root = None →
                    (thread ∈ Review_Threads review
                     ↔ Comment_PullRequestReviewID root = Review_ID review))
               annotated.
Proof.
  intros [next Hclaim].
  specialize (Hclaim _ _ eq_refl eq_refl).
  apply Forall_cons_1 in Hclaim as [Hseven _].
  specialize (Hseven
    {| Comments := [sampleComment 2 5 (Some 1) 8; sampleComment 1 10 None 7] |}
    (sampleComment 1 10 None 7)).
  destruct Hseven as [_ Hfiled].
  - apply elem_of_cons. by left.
  - apply elem_of_cons. right. apply elem_of_cons. by left.
  - reflexivity.
  - specialize (Hfiled eq_refl). simpl in Hfiled. by apply elem_of_nil in Hfiled.
Qed.

(** C8, amended.  Each annotated review keeps its id and carries, in
    thread order, exactly the threads whose first comment names it as
    owning review, whatever the threads are.  Of the threads
    [groupIntoThreads] returns, one whose root was created before every
    other of its comments is carried by the review the root names, and by
    no other. *)
Theorem review_threads_are_those_filed_under_it
    (sorter : SliceSorter) (reviewComments : list Comment) (reviews : list Review) :
  SorterContract sorter →
  (∀ threads : list CommentThread,
     Forall2 (λ r r',
                Review_ID r' = Review_ID r
                ∧ Review_Threads r'
                  = filter (λ th, firstReviewID th = Some (Review_ID r)) threads)
             reviews (attachToReviews threads reviewComments reviews))
  ∧ ∀ fuel threads,
      groupIntoThreads fuel reviewComments = Some threads →
      annotateReviews fuel reviewComments reviews
      = Some (attachToReviews threads reviewComments reviews)
      ∧ Forall2 (λ r r',
                   ∀ thread root,
                     thread ∈ threads →
                     earliestRoot thread root →
                     (thread ∈ Review_Threads r'
                      ↔ Comment_PullRequestReviewID root = Review_ID r))
                reviews (attachToReviews threads reviewComments reviews).
Proof.
  intros Hcontract. split.
  - intros threads. unfold attachToReviews.
    apply Forall2_fmap_r, Forall_Forall2_diag.
    apply Forall_forall. intros r _. simpl. by rewrite threadsByReview_lookup.
  - intros fuel threads Hthreads. split.
    { unfold annotateReviews. by rewrite Hthreads. }
    unfold attachToReviews. apply Forall2_fmap_r, Forall_Forall2_diag.
    apply Forall_forall. intros r _ thread root Hin Hroot. simpl.
    rewrite threadsByReview_lookup, list_elem_of_filter.
    rewrite (earliestRoot_first fuel reviewComments threads thread root) by done.
    split; [by intros [[= ->] _]|by intros ->].
Qed.

Lemma review_threads_witness :
  ∃ threads,
    groupIntoThreads (H := insertionSorter) 4 sampleThreadInput = Some threads
    ∧ Forall2 (λ r r',
                 ∀ thread root,
                   thread ∈ threads →
                   earliestRoot thread root →
                   (thread ∈ Review_Threads r'
                    ↔ Comment_PullRequestReviewID root = Review_ID r))
              [sampleReview 7 20; sampleReview 8 21]
              (attachToReviews threads sampleThreadInput
                               [sampleReview 7 20; sampleReview 8 21])
    ∧ map (λ r', length (Review_Threads r'))
          (attachToReviews threads sampleThreadInput
                           [sampleReview 7 20; sampleReview 8 21])
      = [1%nat; 0%nat].
Proof.
  destruct (groupIntoThreads (H := insertionSorter) 4 sampleThreadInput)
    as [threads|] eqn:Hthreads; [|by vm_compute in Hthreads].
  exists threads. split; [done|]. split.
  - destruct (review_threads_are_those_filed_under_it insertionSorter
                sampleThreadInput [sampleReview 7 20; sampleReview 8 21]
                insertionSorter_contract) as [_ Hroot].
    by destruct (Hroot 4%nat threads Hthreads) as [_ Hall].
  - vm_compute in Hthreads. by injection Hthreads as <-.
Defined.

(** C10, as the claim has it, fails: the thread of a root that names the
    unfetched review 99, with an earlier reply that names the fetched
    review 7, is attached to review 7. *)
Lemma thread_of_unfetched_review_is_attached :
  ¬ ∃ next : Z → Z,
      ∀ threads,
        groupIntoThreads (H := goSorter next) 2
          [sampleComment 1 10 None 99; sampleComment 2 5 (Some 1) 7]
        = Some threads →
        ∀ thread root,
          thread ∈ threads →
          root ∈ Comments thread →
          Comment_InReplyToID root = None →
          (∀ r, r ∈ [sampleReview 7 20] →
                Comment_PullRequestReviewID root ≠ Review_ID r) →
          ∀ r', r' ∈ attachToReviews threads
                       [sampleComment 1 10 None 99; sampleComment 2 5 (Some 1) 7]
                       [sampleReview 7 20] →
                thread ∉ Review_Threads r'.
Proof.
  intros [next Hclaim].
  specialize (Hclaim _ eq_refl
    {| Comments := [sampleComment 2 5 (Some 1) 7; sampleComment 1 10 None 99] |}
    (sampleComment 1 10 None 99)).
  eapply Hclaim.
  - apply elem_of_cons. by left.
  - apply elem_of_cons. right. apply elem_of_cons. by left.
  - reflexivity.
  - intros r Hr. apply list_elem_of_singleton in Hr as ->. done.
  - apply elem_of_cons. left. reflexivity.
  - simpl. apply elem_of_cons. by left.
Qed.

(** C10, amended.  A thread whose first comment names an owning review
    that is the id of no fetched review (0 when the comment names none) is
    in the thread list of no annotated review, whatever the threads are.
    Of the threads [groupIntoThreads] returns, one whose root was created
    before every other of its comments and names no fetched review is in
    no thread list. *)
Theorem unmatched_thread_is_attached_to_no_review
    (sorter : SliceSorter) (reviewComments : list Comment) (reviews : list Review) :
  SorterContract sorter →
  (∀ (threads : list CommentThread) (thread : CommentThread),
     (∀ r, r ∈ reviews → firstReviewID thread ≠ Some (Review_ID r)) →
     ∀ r', r' ∈ attachToReviews threads reviewComments reviews →
           thread ∉ Review_Threads r')
  ∧ ∀ fuel threads thread root,
      groupIntoThreads fuel reviewComments = Some threads →
      thread ∈ threads →
      earliestRoot thread root →
      (∀ r, r ∈ reviews → Comment_PullRequestReviewID root ≠ Review_ID r) →
      annotateReviews fuel reviewComments reviews
      = Some (attachToReviews threads reviewComments reviews)
      ∧ ∀ r', r' ∈ attachToReviews threads reviewComments reviews →
              thread ∉ Review_Threads r'.
Proof.
  intros Hcontract.
  assert (Hfirst : ∀ (threads : list CommentThread) (thread : CommentThread),
    (∀ r, r ∈ reviews → firstReviewID thread ≠ Some (Review_ID r)) →
    ∀ r', r' ∈ attachToReviews threads reviewComments reviews →
          thread ∉ Review_Threads r').
  { intros threads thread Hunmatched r' Hr' Hin.
    unfold attachToReviews in Hr'.
    apply list_elem_of_fmap in Hr' as (r & -> & Hr).
    simpl in Hin. rewrite threadsByReview_lookup in Hin.
    apply list_elem_of_filter in Hin as [Hhead _].
    by apply (Hunmatched r). }
  split; [exact Hfirst|].
  intros fuel threads thread root Hthreads Hin Hroot Hunmatched. split.
  { unfold annotateReviews. by rewrite Hthreads. }
  apply Hfirst. intros r Hr.
  rewrite (earliestRoot_first fuel reviewComments threads thread root) by done.
  intros [= Heq]. by apply (Hunmatched r).
Qed.

Lemma unmatched_thread_witness :
  ∃ threads thread,
    groupIntoThreads (H := insertionSorter) 3
      [sampleComment 1 10 None 8; sampleComment 2 11 (Some 1) 7] = Some threads
    ∧ thread ∈ threads
    ∧ ∀ r', r' ∈ attachToReviews threads
                   [sampleComment 1 10 None 8; sampleComment 2 11 (Some 1) 7]
                   [sampleReview 7 20] →
            thread ∉ Review_Threads r'.
Proof.
  destruct (groupIntoThreads (H := insertionSorter) 3
              [sampleComment 1 10 None 8; sampleComment 2 11 (Some 1) 7])
    as [threads|] eqn:Hthreads; [|by vm_compute in Hthreads].
  exists threads,
    {| Comments := [sampleComment 1 10 None 8; sampleComment 2 11 (Some 1) 7] |}.
  assert (Hin : {| Comments := [sampleComment 1 10 None 8;
                                sampleComment 2 11 (Some 1) 7] |} ∈ threads).
  { vm_compute in Hthreads. injection Hthreads as <-. apply elem_of_cons. by left. }
  split; [done|]. split; [exact Hin|].
  destruct (unmatched_thread_is_attached_to_no_review insertionSorter
              [sampleComment 1 10 None 8; sampleComment 2 11 (Some 1) 7]
              [sampleReview 7 20] insertionSorter_contract) as [_ Hroot].
  apply (Hroot 3%nat threads _ (sampleComment 1 10 None 8) Hthreads Hin).
  - split; [apply elem_of_cons; by left|]. split; [reflexivity|].
    intros d Hd Hne. simpl in Hd.
    apply elem_of_cons in Hd as [->|Hd]; [done|].
    apply list_elem_of_singleton in Hd as ->. simpl. lia.
  - intros r Hr. apply list_elem_of_singleton in Hr as ->. done.
Defined.

(** ** Thread resolution: ties *)

Lemma filter_sublist_mono {A : Type} (P : A → Prop) `{∀ x, Decision (P x)}
    (l1 l2 : list A) :
  l1 `sublist_of` l2 → filter P l1 `sublist_of` filter P l2.
Proof.
  induction 1 as [|x l1 l2 _ IH|x l1 l2 _ IH]; [done| |].
  - rewrite !filter_cons. destruct (decide (P x)); [by apply sublist_skip|done].
  - rewrite filter_cons. destruct (decide (P x)); [by apply sublist_cons|done].
Qed.

(** C6, as the claim has it, fails.  Of thirteen roots the standard
    library's sort moves the seventh before the first six of the same
    timestamp, whatever its random generator; and a sorter that keeps to
    what [sort.Slice] documents may swap two tied roots. *)
Lemma tied_roots_swapped :
  (¬ ∃ next : Z → Z, TiesKeptOn (goSorter next) 1 sampleManyRoots)
  ∧ SorterContract backwardSorter
  ∧ ¬ TiesKeptOn backwardSorter 1
        [sampleComment 1 5 None 7; sampleComment 2 5 None 7].
Proof.
  split; [|split].
  - intros [next Hclaim].
    edestruct Hclaim as [Hroots _]; [vm_compute; reflexivity|].
    instantiate (1 := 5) in Hroots. vm_compute in Hroots. discriminate Hroots.
  - exact backwardSorter_contract.
  - intros Hclaim.
    destruct (Hclaim [(2, {| Comments := [sampleComment 2 5 None 7] |});
                      (1, {| Comments := [sampleComment 1 5 None 7] |})]
                     eq_refl 5) as [Hroots _].
    vm_compute in Hroots. discriminate Hroots.
Qed.

(** Two sorters that agree on slices of at most [n] elements emit the
    same threads from slices of at most [n] comments. *)
Lemma emitThreads_agree (sorter1 sorter2 : SliceSorter) `{!SorterContract sorter2}
    (n : nat) roots r :
  (∀ less (l : list Comment), (length l ≤ n)%nat →
     sortSlice (SliceSorter := sorter1) less l
     = sortSlice (SliceSorter := sorter2) less l) →
  (∀ k, (length (repliesOf r k) ≤ n)%nat) →
  emitThreads (H := sorter1) r roots = emitThreads (H := sorter2) r roots.
Proof.
  intros Hagree. revert r. induction roots as [|k roots IH]; intros r Hr; [done|].
  cbn [emitThreads]. rewrite (Hagree _ _ (Hr k)). f_equal.
  apply IH. intros k'.
  rewrite (repliesOf_sorted_in_place (sorter := sorter2)).
  case_decide; [|done]. by rewrite sortSlice_perm.
Qed.

Lemma length_rootIDsOf comments :
  (length (rootIDsOf comments) ≤ length comments)%nat.
Proof.
  rewrite <-(length_map Comment_ID comments).
  apply sublist_length, rootIDsOf_sublist.
Qed.

(** On at most twelve comments the standard library's sort gives the
    threads that insertion sort gives. *)
Lemma keyedThreads_short (next : Z → Z) fuel comments :
  (length comments ≤ 12)%nat →
  keyedThreads (H := goSorter next) fuel comments
  = keyedThreads (H := insertionSorter) fuel comments.
Proof.
  intros Hshort. unfold keyedThreads.
  pose proof insertionSorter_contract as Hcontract.
  destruct (groupLoop fuel _ _ _) as [st|] eqn:Hloop; [|done]. f_equal.
  rewrite goSorter_short.
  - apply (emitThreads_agree _ _ 12).
    + intros less l Hl. by apply goSorter_short.
    + intros k. rewrite (groupLoop_repliesOf _ _ _ _ _ k Hloop).
      etrans; [|exact Hshort].
      apply sublist_length.
      apply (groupOf_sublist fuel (commentByID comments) k comments []).
  - rewrite (groupLoop_rootIDsOf _ _ _ _ Hloop).
    etrans; [apply length_rootIDsOf|done].
Qed.

(** C6, amended.  Under a stable sort, root ids of one creation timestamp
    keep their input order among the threads, and comments of one creation
    timestamp keep their input order inside each thread.  [sort.Slice]
    does not promise a stable sort; as implemented it keeps the order on
    inputs of at most twelve comments. *)
Theorem ties_keep_input_order_under_stable_sort :
  (∀ sorter : SliceSorter,
     SorterContract sorter → StableSorter sorter → TiesKeepInputOrder sorter)
  ∧ (∀ (next : Z → Z) (fuel : nat) (comments : list Comment),
       (length comments ≤ 12)%nat → TiesKeptOn (goSorter next) fuel comments).
Proof.
  assert (∀ sorter : SliceSorter,
            SorterContract sorter → StableSorter sorter → TiesKeepInputOrder sorter)
    as Hstable.
  { intros sorter Hcontract Hst fuel comments keyed Hkeyed t.
    unfold keyedThreads in Hkeyed.
    destruct (groupLoop fuel _ _ _) as [st|] eqn:Hloop; [|done].
    injection Hkeyed as <-. split.
    - rewrite emitThreads_fst. unfold rootsAt, lessRoot.
      rewrite (sortSlice_stable_by_key sorter (createdAtOf (commentByID comments)))
        by done.
      by rewrite (groupLoop_rootIDsOf _ _ _ _ Hloop).
    - pose proof (emitThreads_stable_groups sorter
                    (sortSlice (lessRoot (commentByID comments)) (rootIDs st))
                    (rootToReplies st) (rootToReplies st) Hst
                    (λ _ _, eq_refl)) as Hall.
      apply Forall_forall. intros kt Hkt.
      apply list_elem_of_lookup in Hkt as [i Hi].
      destruct (Forall2_lookup_r _ _ _ _ _ Hall Hi) as (k & _ & _ & Hsame).
      rewrite Hsame, (groupLoop_repliesOf _ _ _ _ _ k Hloop).
      apply filter_sublist_mono.
      apply (groupOf_sublist fuel (commentByID comments) k comments []). }
  split; [done|].
  intros next fuel comments Hshort keyed Hkeyed.
  rewrite keyedThreads_short in Hkeyed by done.
  by apply (Hstable insertionSorter insertionSorter_contract insertionSorter_stable
              fuel comments).
Qed.

Lemma ties_keep_input_order_witness :
  (SorterContract insertionSorter
   ∧ StableSorter insertionSorter
   ∧ TiesKeepInputOrder insertionSorter)
  ∧ ∀ t : Time,
      rootsAt (commentByID sampleTies) t [1; 2]
      = rootsAt (commentByID sampleTies) t (rootIDsOf sampleTies)
      ∧ Forall (λ kt, commentsAt t (Comments kt.2) `sublist_of` commentsAt t sampleTies)
               [(1, {| Comments := [sampleComment 1 5 None 7;
                                    sampleComment 3 5 (Some 1) 7] |});
                (2, {| Comments := [sampleComment 2 5 None 7] |})].
Proof.
  destruct ties_keep_input_order_under_stable_sort as [Hstable Hshort].
  split.
  - split; [exact insertionSorter_contract|].
    split; [exact insertionSorter_stable|].
    exact (Hstable insertionSorter insertionSorter_contract insertionSorter_stable).
  - refine (Hshort (λ r, r) 4%nat sampleTies _
              [(1, {| Comments := [sampleComment 1 5 None 7;
                                   sampleComment 3 5 (Some 1) 7] |});
               (2, {| Comments := [sampleComment 2 5 None 7] |})]
              eq_refl).
    simpl. lia.
Defined.

(** ** Scenarios

    The program run on small inputs, with the standard library's sort. *)

(** A root of review 7 and a reply that review 8 owns: one thread, filed
    under review 7; the reply counts for review 8. *)
Example scenario_reply_owned_by_other_review :
  annotateReviews (H := goSorter (λ r, r)) 3
    [sampleComment 1 10 None 7; sampleComment 2 11 (Some 1) 8]
    [sampleReview 7 20; sampleReview 8 21]
  = Some [setAnnotations
            [{| Comments := [sampleComment 1 10 None 7;
                             sampleComment 2 11 (Some 1) 8] |}]
            0 (sampleReview 7 20);
          setAnnotations [] 1 (sampleReview 8 21)].
Proof. vm_compute. reflexivity. Qed.

(** A reply of the review that owns the root counts for that review. *)
Example scenario_reply_owned_by_same_review :
  annotateReviews (H := goSorter (λ r, r)) 3
    [sampleComment 1 10 None 7; sampleComment 2 11 (Some 1) 7]
    [sampleReview 7 20]
  = Some [setAnnotations
            [{| Comments := [sampleComment 1 10 None 7;
                             sampleComment 2 11 (Some 1) 7] |}]
            1 (sampleReview 7 20)].
Proof. vm_compute. reflexivity. Qed.

(** Three items of one timestamp stay in concatenation order. *)
Example scenario_three_tied_items :
  buildTimeline (H := goSorter (λ r, r)) sampleTiedPR
  = [commentItem (sampleComment 1 5 None 0); reviewItem (sampleReview 2 5);
     commitItem (sampleCommit "c01" 5)].
Proof. vm_compute. reflexivity. Qed.

(** A reply standing before its root in the input: the root's turn of the
    loop replaces the slice the reply was filed in. *)
Example scenario_reply_before_root :
  groupIntoThreads (H := goSorter (λ r, r)) 3
    [sampleComment 2 11 (Some 1) 7; sampleComment 1 10 None 7]
  = Some [{| Comments := [sampleComment 1 10 None 7] |}].
Proof. vm_compute. reflexivity. Qed.

(** A reply to a comment that was not fetched: no thread. *)
Example scenario_dangling_reply :
  groupIntoThreads (H := goSorter (λ r, r)) 3
    [sampleComment 1 10 None 7; sampleComment 3 12 (Some 99) 7]
  = Some [{| Comments := [sampleComment 1 10 None 7] |}].
Proof. vm_compute. reflexivity. Qed.

(** Thirteen timeline items, twelve of them tied: the tags in output
    order. *)
Example scenario_thirteen_items :
  map Type_ (buildTimeline (H := goSorter (λ r, r)) sampleLongPR)
  = ["commit"; "review"; "comment"; "comment"; "comment"; "comment"; "comment";
     "review"; "review"; "review"; "review"; "review"; "comment"].
Proof. vm_compute. reflexivity. Qed.

(** * Further properties of the code *)

(** ** Text *)

Lemma string_app_cons a s t : String a s +:+ t = String a (s +:+ t).
Proof. reflexivity. Qed.

Lemma string_app_nil_r s : s +:+ "" = s.
Proof. induction s as [|a s IH]; [done|]. by rewrite string_app_cons, IH. Qed.

Lemma string_app_assoc s t u : (s +:+ t) +:+ u = s +:+ t +:+ u.
Proof. induction s as [|a s IH]; [done|]. by rewrite !string_app_cons, IH. Qed.

Lemma bytes_app s t : bytes (s +:+ t) = bytes s ++ bytes t.
Proof.
  induction s as [|a s IH]; [done|]. rewrite string_app_cons. unfold bytes in *. simpl.
  by rewrite IH.
Qed.

Lemma substring_prefix (n : nat) s :
  (n ≤ String.length s)%nat →
  ∃ rest, s = String.substring 0 n s +:+ rest
          ∧ String.length (String.substring 0 n s) = n.
Proof.
  revert s. induction n as [|n IH]; intros s Hn.
  - exists s. by destruct s.
  - destruct s as [|a s]; simpl in Hn; [lia|].
    destruct (IH s) as (rest & Hs & Hlen); [lia|].
    exists rest. simpl. rewrite string_app_cons. split; [by rewrite <-Hs|].
    simpl. by rewrite Hlen.
Qed.

Lemma sliceTo_Some s n :
  0 ≤ n ≤ len s →
  ∃ short rest, sliceTo s n = Some short ∧ s = short +:+ rest ∧ len short = n.
Proof.
  intros Hn. unfold sliceTo. rewrite decide_True by done.
  destruct (substring_prefix (Z.to_nat n) s) as (rest & Hs & Hlen).
  { unfold len in Hn. lia. }
  eexists _, rest. split; [done|]. split; [done|]. unfold len. rewrite Hlen. lia.
Qed.

Lemma Index_range s sep : Index s sep = -1 ∨ 0 ≤ Index s sep < len s.
Proof.
  unfold len. induction s as [|a s IH]; simpl; [by left|].
  destruct (decide (a = sep)); [right; lia|].
  destruct (decide (Index s sep = -1)); [by left|]. right. lia.
Qed.

Lemma Index_absent s sep : Index s sep = -1 ↔ sep ∉ bytes s.
Proof.
  unfold bytes. induction s as [|a s IH]; simpl.
  - split; [intros _; apply not_elem_of_nil|done].
  - rewrite not_elem_of_cons. destruct (decide (a = sep)) as [->|Hne].
    + split; [done|]. by intros [? _].
    + destruct (decide (Index s sep = -1)) as [Hi|Hi].
      * split; [|done]. intros _. split; [done|]. by apply IH.
      * pose proof (Index_range s sep). split; [lia|]. intros [_ ?]. destruct Hi. by apply IH.
Qed.

(** The string before the first separator holds none, and the separator
    follows it. *)
Lemma Index_cut s sep :
  Index s sep ≠ -1 →
  ∃ rest, s = String.substring 0 (Z.to_nat (Index s sep)) s +:+ String sep rest
          ∧ sep ∉ bytes (String.substring 0 (Z.to_nat (Index s sep)) s).
Proof.
  unfold bytes. induction s as [|a s IH]; simpl; [done|].
  destruct (decide (a = sep)) as [->|Hne].
  - intros _. exists s. split; [done|]. simpl. apply not_elem_of_nil.
  - destruct (decide (Index s sep = -1)) as [Hi|Hi]; [done|]. intros _.
    destruct (IH Hi) as (rest & Hs & Hnot). exists rest.
    pose proof (Index_range s sep).
    replace (Z.to_nat (Index s sep + 1)) with (S (Z.to_nat (Index s sep))) by lia.
    simpl. rewrite string_app_cons. split; [by rewrite <-Hs|].
    rewrite not_elem_of_cons. by split.
Qed.

Lemma Split_cut line rest sep :
  sep ∉ bytes line →
  Split (line +:+ String sep rest) sep = line :: Split rest sep.
Proof.
  unfold bytes. induction line as [|a line IH]; simpl.
  - intros _. by rewrite decide_True.
  - rewrite not_elem_of_cons. intros [Hne Hs].
    rewrite decide_False by done. by rewrite IH.
Qed.

Lemma Split_pieces s sep : Forall (λ piece, sep ∉ bytes piece) (Split s sep).
Proof.
  unfold bytes. induction s as [|a s IH]; simpl.
  - constructor; [apply not_elem_of_nil|constructor].
  - destruct (decide (a = sep)).
    + constructor; [apply not_elem_of_nil|done].
    + destruct (Split s sep) as [|piece pieces].
      * constructor; [|constructor]. simpl. rewrite not_elem_of_cons.
        split; [done|apply not_elem_of_nil].
      * inversion_clear IH. constructor; [|done]. simpl.
        rewrite not_elem_of_cons. by split.
Qed.

Lemma shortID_prefix (id : string) :
  ∃ short rest,
    shortID id = Some short ∧ id = short +:+ rest ∧ len short = Z.min 7 (len id).
Proof.
  unfold shortID. destruct (decide (7 < len id)) as [Hlong|Hshort].
  - destruct (sliceTo_Some id 7) as (short & rest & Hslice & Hid & Hlen); [lia|].
    exists short, rest. repeat split; [done..|lia].
  - exists id, "". rewrite string_app_nil_r. repeat split; [done..|lia].
Qed.

Lemma shortID_Some id : is_Some (shortID id).
Proof. destruct (shortID_prefix id) as (short & _ & -> & _). done. Qed.

(** X1.  The hash [renderCommit] and [renderThread] print is cut to seven
    bytes without a run-time panic: the printed text is a prefix of the
    hash, seven bytes long when the hash is longer than that and the whole
    hash otherwise. *)
Theorem short_hash_is_a_prefix_of_at_most_seven_bytes (id : string) :
  ∃ short rest,
    shortID id = Some short ∧ id = short +:+ rest ∧ len short = Z.min 7 (len id).
Proof. apply shortID_prefix. Qed.



(** ** Commits and their checks *)

Lemma firstLine_spec msg :
  ∃ line, firstLine msg = Some line ∧ (newline ∉ bytes line)
          ∧ (msg = line ∨ ∃ rest, msg = line +:+ nl +:+ rest).
Proof.
  unfold firstLine. cbv zeta.
  destruct (decide (Index msg newline ≠ -1)) as [Hi|Hi].
  - destruct (Index_cut msg newline Hi) as (rest & Hmsg & Hnot).
    unfold sliceTo. pose proof (Index_range msg newline).
    rewrite decide_True by lia.
    eexists. split; [done|]. split; [done|]. right. by exists rest.
  - exists msg. split; [done|]. split; [|by left].
    apply Index_absent. by destruct (decide (Index msg newline = -1)).
Qed.

Lemma countRun_fold runs (c0 : CheckCounts) :
  0 ≤ Succeeded c0 → 0 ≤ Failed c0 → 0 ≤ Pending c0 → 0 ≤ Skipped c0 →
  Succeeded c0 + Failed c0 + Pending c0 + Skipped c0 + Z.of_nat (length runs) < 2 ^ 63 →
  let c := foldl countRun c0 runs in
  Succeeded c = Succeeded c0 + Z.of_nat (length (filter
    (λ run, Run_Status run = "completed" ∧ Run_Conclusion run ∈ ["success"]) runs))
  ∧ Failed c = Failed c0 + Z.of_nat (length (filter
    (λ run, Run_Status run = "completed"
            ∧ Run_Conclusion run ∈ ["failure"; "cancelled"; "timed_out"]) runs))
  ∧ Pending c = Pending c0 + Z.of_nat (length (filter
    (λ run, Run_Status run ≠ "completed") runs))
  ∧ Skipped c = Skipped c0 + Z.of_nat (length (filter
    (λ run, Run_Status run = "completed" ∧ Run_Conclusion run ∈ ["skipped"]) runs)).
Proof.
  revert c0. induction runs as [|run runs IH]; intros c0 HS HF HP HK Hsum; cbv zeta.
  { simpl. lia. }
  simpl foldl. simpl length in Hsum.
  assert (Hstep :
    let c1 := countRun c0 run in
    Succeeded c1 = Succeeded c0 + (if decide (Run_Status run = "completed"
                      ∧ Run_Conclusion run ∈ ["success"]) then 1 else 0)
    ∧ Failed c1 = Failed c0 + (if decide (Run_Status run = "completed"
                      ∧ Run_Conclusion run ∈ ["failure"; "cancelled"; "timed_out"])
                               then 1 else 0)
    ∧ Pending c1 = Pending c0 + (if decide (Run_Status run ≠ "completed")
                                 then 1 else 0)
    ∧ Skipped c1 = Skipped c0 + (if decide (Run_Status run = "completed"
                      ∧ Run_Conclusion run ∈ ["skipped"]) then 1 else 0)
    ∧ Succeeded c1 + Failed c1 + Pending c1 + Skipped c1
      ≤ Succeeded c0 + Failed c0 + Pending c0 + Skipped c0 + 1).
  { cbv zeta. unfold countRun.
    destruct (decide (Run_Status run = "completed")) as [Hc|Hc];
      repeat case_decide; simpl; rewrite ?wrapInt_small by lia;
      repeat split; try lia;
      exfalso; set_unfold; intuition congruence. }
  cbv zeta in Hstep. destruct Hstep as (HS1 & HF1 & HP1 & HK1 & Hle).
  destruct (IH (countRun c0 run)) as (IS & IF & IP & IK);
    [clear IH; repeat case_decide; lia..|].
  rewrite IS, IF, IP, IK, HS1, HF1, HP1, HK1, !filter_cons.
  repeat case_decide; simpl length; repeat split; lia.
Qed.

Lemma commitOf_spec r :
  ∃ commit, commitOf r = Some commit
    ∧ Commit_SHA commit = Resp_SHA r
    ∧ Commit_Author commit = Resp_Author r
    ∧ Commit_CreatedAt commit = Resp_Commit_Committer_Date r
    ∧ Commit_Checks commit = zeroCounts
    ∧ firstLineOf (Resp_Commit_Message r) (Commit_Message commit).
Proof.
  unfold commitOf.
  destruct (firstLine_spec (Resp_Commit_Message r)) as (line & -> & Hline).
  simpl. eexists. split; [done|]. by simpl.
Qed.

Lemma mapM_commitOf responses :
  ∃ commits, mapM commitOf responses = Some commits
    ∧ Forall2 (λ r commit, commitOf r = Some commit) responses commits.
Proof.
  destruct (mapM_is_Some_2 commitOf responses) as [commits Hcommits].
  { apply Forall_forall. intros r _. simpl.
    destruct (commitOf_spec r) as (commit & -> & _). done. }
  exists commits. split; [done|]. by apply mapM_Some_1.
Qed.

(** X2.  When the request succeeds, [FetchCommits] returns one commit for
    each response, in order, with the hash, the author and the committer
    date of the response and a tally of zeros.  Its message is the first
    line of the message of the response: it holds no newline, and the
    whole message is either it or it followed by a newline and more.  The
    slice [msg[:idx]] never panics. *)
Theorem fetched_commit_carries_first_line_of_message
    (client : RESTClient) (repo : Repository) (prNumber : Z)
    (responses : list commitResponse) :
  Get_commitResponses client
    (repoPath repo +:+ "pulls/" +:+ pretty prNumber +:+ "/commits") = inr responses →
  ∃ commits,
    FetchCommits client repo prNumber = Some (inr commits)
    ∧ Forall2 (λ r commit,
                 Commit_SHA commit = Resp_SHA r
                 ∧ Commit_Author commit = Resp_Author r
                 ∧ Commit_CreatedAt commit = Resp_Commit_Committer_Date r
                 ∧ Commit_Checks commit = zeroCounts
                 ∧ firstLineOf (Resp_Commit_Message r) (Commit_Message commit))
              responses commits.
Proof.
  intros Hget. unfold FetchCommits. rewrite Hget.
  destruct (mapM_commitOf responses) as (commits & -> & Hall).
  exists commits. split; [done|].
  eapply Forall2_impl; [exact Hall|]. intros r commit Hcommit. simpl in Hcommit.
  destruct (commitOf_spec r) as (commit' & Hcommit' & Hspec).
  rewrite Hcommit in Hcommit'. injection Hcommit' as <-. exact Hspec.
Qed.

Lemma fetched_commit_witness :
  ∃ commit,
    FetchCommits sampleChecksClient sampleRepo 1 = Some (inr [commit])
    ∧ Commit_Message commit = "fix the walk".
Proof.
  destruct (fetched_commit_carries_first_line_of_message
              sampleChecksClient sampleRepo 1 [sampleResponse] eq_refl)
    as (commits & Hfetch & Hall).
  exists (default (sampleCommit "" 0) (head commits)).
  revert Hall. vm_compute in Hfetch. injection Hfetch as <-. intros _.
  split; reflexivity.
Defined.

Lemma countRuns_spec runs :
  Z.of_nat (length runs) < 2 ^ 63 →
  Succeeded (countRuns runs) = Z.of_nat (length (filter
    (λ run, Run_Status run = "completed" ∧ Run_Conclusion run ∈ ["success"]) runs))
  ∧ Failed (countRuns runs) = Z.of_nat (length (filter
    (λ run, Run_Status run = "completed"
            ∧ Run_Conclusion run ∈ ["failure"; "cancelled"; "timed_out"]) runs))
  ∧ Pending (countRuns runs) = Z.of_nat (length (filter
    (λ run, Run_Status run ≠ "completed") runs))
  ∧ Skipped (countRuns runs) = Z.of_nat (length (filter
    (λ run, Run_Status run = "completed" ∧ Run_Conclusion run ∈ ["skipped"]) runs)).
Proof.
  intros Hlen. destruct (countRun_fold runs zeroCounts) as (HS & HF & HP & HK);
    simpl; try lia.
  unfold countRuns. rewrite HS, HF, HP, HK. simpl. lia.
Qed.

(** Every run falls in exactly one of five classes. *)
Lemma runs_by_outcome (runs : list checkRun) :
  length runs
  = (length (filter (λ run, Run_Status run = "completed"
                            ∧ Run_Conclusion run ∈ ["success"]) runs)
     + length (filter (λ run, Run_Status run = "completed"
                              ∧ Run_Conclusion run
                                ∈ ["failure"; "cancelled"; "timed_out"]) runs)
     + length (filter (λ run, Run_Status run ≠ "completed") runs)
     + length (filter (λ run, Run_Status run = "completed"
                              ∧ Run_Conclusion run ∈ ["skipped"]) runs)
     + length (filter (λ run, Run_Status run = "completed"
                              ∧ Run_Conclusion run
                                ∉ ["success"; "failure"; "cancelled"; "timed_out";
                                   "skipped"]) runs))%nat.
Proof.
  induction runs as [|run runs IH]; [done|].
  rewrite !filter_cons. simpl length at 1. rewrite IH. clear IH.
  destruct (decide (Run_Status run = "completed")) as [Hc|Hc];
    repeat case_decide; simpl length; try lia;
    exfalso; set_unfold; intuition congruence.
Qed.

(** X3.  When the request succeeds, the tally of [FetchCommitChecks]
    counts as pending the runs whose status is not "completed" and, of the
    completed runs, as succeeded those concluded "success", as failed
    those concluded "failure", "cancelled" or "timed_out" and as skipped
    those concluded "skipped".  The counters are 64-bit [int]s; the length
    of a slice is below 2^63. *)
Theorem check_tally_counts_runs_by_outcome
    (client : RESTClient) (repo : Repository) (sha : string) (runs : list checkRun) :
  Get_checkRuns client (repoPath repo +:+ "commits/" +:+ sha +:+ "/check-runs")
  = inr runs →
  Z.of_nat (length runs) < 2 ^ 63 →
  Pending (FetchCommitChecks client repo sha)
  = Z.of_nat (length (filter (λ run, Run_Status run ≠ "completed") runs))
  ∧ Succeeded (FetchCommitChecks client repo sha)
    = Z.of_nat (length (filter (λ run, Run_Status run = "completed"
                                       ∧ Run_Conclusion run ∈ ["success"]) runs))
  ∧ Failed (FetchCommitChecks client repo sha)
    = Z.of_nat (length (filter (λ run, Run_Status run = "completed"
                                       ∧ Run_Conclusion run
                                         ∈ ["failure"; "cancelled"; "timed_out"])
                               runs))
  ∧ Skipped (FetchCommitChecks client repo sha)
    = Z.of_nat (length (filter (λ run, Run_Status run = "completed"
                                       ∧ Run_Conclusion run ∈ ["skipped"]) runs)).
Proof.
  intros Hget Hlen. unfold FetchCommitChecks. rewrite Hget.
  destruct (countRuns_spec runs Hlen) as (HS & HF & HP & HK). done.
Qed.

Lemma check_tally_witness :
  Pending (FetchCommitChecks sampleChecksClient sampleRepo "0123456789abcdef") = 1
  ∧ Succeeded (FetchCommitChecks sampleChecksClient sampleRepo "0123456789abcdef") = 1
  ∧ Failed (FetchCommitChecks sampleChecksClient sampleRepo "0123456789abcdef") = 1
  ∧ Skipped (FetchCommitChecks sampleChecksClient sampleRepo "0123456789abcdef") = 1.
Proof.
  destruct (check_tally_counts_runs_by_outcome
              sampleChecksClient sampleRepo "0123456789abcdef" sampleRuns eq_refl)
    as (HP & HS & HF & HK); [vm_compute; reflexivity|].
  rewrite HP, HS, HF, HK. vm_compute. done.
Defined.

Lemma totalChecks_sum (c : CheckCounts) :
  0 ≤ Succeeded c → 0 ≤ Failed c → 0 ≤ Pending c → 0 ≤ Skipped c →
  Succeeded c + Failed c + Pending c + Skipped c < 2 ^ 63 →
  totalChecks c = Succeeded c + Failed c + Pending c + Skipped c.
Proof.
  intros. unfold totalChecks.
  rewrite (wrapInt_small (Succeeded c + Failed c)) by lia.
  rewrite (wrapInt_small (Succeeded c + Failed c + Pending c)) by lia.
  by rewrite wrapInt_small by lia.
Qed.

(** X4.  The total [renderCommit] computes from a fetched tally is the
    number of runs less the completed runs of any other conclusion
    ("neutral", "action_required", "stale", none): those runs are counted
    nowhere, and the sum does not wrap. *)
Theorem completed_runs_of_other_conclusions_are_not_counted
    (client : RESTClient) (repo : Repository) (sha : string) (runs : list checkRun) :
  Get_checkRuns client (repoPath repo +:+ "commits/" +:+ sha +:+ "/check-runs")
  = inr runs →
  Z.of_nat (length runs) < 2 ^ 63 →
  totalChecks (FetchCommitChecks client repo sha)
  = Z.of_nat (length runs)
    - Z.of_nat (length (filter
        (λ run, Run_Status run = "completed"
                ∧ Run_Conclusion run
                  ∉ ["success"; "failure"; "cancelled"; "timed_out"; "skipped"])
        runs)).
Proof.
  intros Hget Hlen. unfold FetchCommitChecks. rewrite Hget.
  destruct (countRuns_spec runs Hlen) as (HS & HF & HP & HK).
  pose proof (runs_by_outcome runs) as Hsplit.
  rewrite totalChecks_sum by lia. lia.
Qed.

Lemma other_conclusions_witness :
  totalChecks (FetchCommitChecks sampleChecksClient sampleRepo "0123456789abcdef") = 4
  ∧ length sampleRuns = 5%nat.
Proof.
  split; [|reflexivity].
  rewrite (completed_runs_of_other_conclusions_are_not_counted
             sampleChecksClient sampleRepo "0123456789abcdef" sampleRuns eq_refl);
    vm_compute; reflexivity.
Defined.

(** X5.  For a tally of non-negative counters whose sum fits an [int],
    the total of [renderCommit] is positive exactly when [parts] is not
    empty: the brackets are printed exactly when there is a part to print
    in them. *)
Theorem check_summary_is_printed_iff_it_has_a_part (c : CheckCounts) :
  0 ≤ Succeeded c → 0 ≤ Failed c → 0 ≤ Pending c → 0 ≤ Skipped c →
  Succeeded c + Failed c + Pending c + Skipped c < 2 ^ 63 →
  0 < totalChecks c ↔ checkParts c ≠ [].
Proof.
  intros HS HF HP HK Hsum. rewrite totalChecks_sum by done.
  unfold checkParts. repeat case_decide; simpl; split; intros; (done || lia).
Qed.

Lemma check_summary_witness :
  0 < totalChecks (countRuns sampleRuns) ∧ checkParts (countRuns sampleRuns) ≠ [].
Proof.
  assert (0 < totalChecks (countRuns sampleRuns)) as Htotal by (vm_compute; done).
  split; [done|].
  apply (check_summary_is_printed_iff_it_has_a_part (countRuns sampleRuns));
    vm_compute; (done || congruence).
Defined.

(** ** Rendering *)

Lemma Split_written_lines (lines : list string) :
  Forall (λ line, newline ∉ bytes line) lines →
  Split (writeEach (λ line, "    " +:+ line +:+ nl) lines) newline
  = map (λ line, "    " +:+ line) lines ++ [""].
Proof.
  induction 1 as [|line lines Hline _ IH]; [done|].
  cbn [writeEach map app]. rewrite !string_app_assoc, <-(string_app_assoc "    " line).
  change (nl +:+ ?w) with (String newline w).
  rewrite Split_cut, IH; [done|].
  rewrite bytes_app, not_elem_of_app. split; [|done].
  unfold bytes, newline. simpl. rewrite !not_elem_of_cons.
  repeat split; try done. apply not_elem_of_nil.
Qed.

(** X6.  The loops of [renderThread] over the lines of a diff hunk and of
    a body write one line for each line of the text, in order, each behind
    four spaces: cut at the newlines, what they write is the lines of the
    text, indented, and the empty rest behind the last newline. *)
Theorem indented_text_has_one_line_for_each_line (text : string) :
  Split (indented text) newline
  = map (λ line, "    " +:+ line) (Split text newline) ++ [""].
Proof. apply Split_written_lines, Split_pieces. Qed.

Lemma renderDiff_Some root : is_Some (renderDiff root).
Proof.
  unfold renderDiff. destruct (decide (Comment_CommitID root ≠ "")); [|by eexists].
  destruct (shortID_Some (Comment_CommitID root)) as [short ->]. by eexists.
Qed.

Lemma renderThread_Some `{TimeFormat} thread : is_Some (renderThread thread).
Proof.
  unfold renderThread. destruct (Comments thread) as [|root rest]; [by eexists|].
  destruct (decide (Comment_DiffHunk root ≠ "")); [|by eexists].
  destruct (renderDiff_Some root) as [diff ->]. by eexists.
Qed.

Lemma mapM_renderThread `{TimeFormat} threads :
  ∃ texts, mapM renderThread threads = Some texts
           ∧ Forall2 (λ thread text, renderThread thread = Some text) threads texts.
Proof.
  destruct (mapM_is_Some_2 renderThread threads) as [texts Htexts].
  { apply Forall_forall. intros thread _. apply renderThread_Some. }
  exists texts. split; [done|]. by apply mapM_Some_1.
Qed.

Lemma renderReview_Some `{TimeFormat} review : is_Some (renderReview review).
Proof.
  unfold renderReview. cbv zeta. destruct (_ && _); [by eexists|].
  destruct (mapM_renderThread (Review_Threads review)) as (texts & -> & _).
  by eexists.
Qed.

Lemma renderCommit_Some commit : is_Some (renderCommit commit).
Proof.
  unfold renderCommit. destruct (shortID_Some (Commit_SHA commit)) as [short ->].
  by eexists.
Qed.

Lemma renderReply_shown `{TimeFormat} c1 c2 :
  shownOfComment c1 = shownOfComment c2 → renderReply c1 = renderReply c2.
Proof.
  unfold shownOfComment, renderReply. intros [= Hlogin Hat Hbody].
  by rewrite Hlogin, Hat, Hbody.
Qed.

Lemma writeEach_renderReply_shown `{TimeFormat} l1 l2 :
  map shownOfComment l1 = map shownOfComment l2 →
  writeEach renderReply l1 = writeEach renderReply l2.
Proof.
  revert l2. induction l1 as [|c1 l1 IH]; intros [|c2 l2] Hmap; try done.
  cbn [map] in Hmap. apply (inj2 cons) in Hmap as [Hc Hl]. cbn [writeEach].
  by rewrite (renderReply_shown c1 c2 Hc), (IH l2 Hl).
Qed.

Lemma renderDiff_shown root1 root2 :
  shownOfDiff root1 = shownOfDiff root2 → renderDiff root1 = renderDiff root2.
Proof.
  unfold shownOfDiff, renderDiff. intros [= Hhunk Hpath Hcommit Hline Horig].
  rewrite Hhunk, Hpath, Hcommit, Hline.
  replace (bool_decide (Comment_OriginalLine root1 ≠ None))
    with (bool_decide (Comment_OriginalLine root2 ≠ None)); [done|].
  destruct (Comment_OriginalLine root1), (Comment_OriginalLine root2); done.
Qed.

(** X7.  What [renderThread] writes depends only on the login, the
    creation time and the body of each comment and, for the first comment,
    on its diff hunk, path and commit id and on whether [Line] and
    [OriginalLine] are nil: two threads that agree on these are rendered
    alike, whatever their ids, parent references, review ids, original
    commit ids and line numbers. *)
Theorem thread_text_depends_only_on_what_is_shown `{TimeFormat}
    (thread1 thread2 : CommentThread) :
  map shownOfComment (Comments thread1) = map shownOfComment (Comments thread2) →
  shownOfDiff <$> head (Comments thread1) = shownOfDiff <$> head (Comments thread2) →
  renderThread thread1 = renderThread thread2.
Proof.
  unfold renderThread. intros Hshown Hdiff.
  rewrite (writeEach_renderReply_shown _ _ Hshown).
  destruct (Comments thread1) as [|root1 rest1], (Comments thread2) as [|root2 rest2];
    try done.
  cbn [head fmap option_fmap option_map] in Hdiff. apply (inj Some) in Hdiff.
  rewrite (renderDiff_shown root1 root2 Hdiff).
  unfold shownOfDiff in Hdiff. injection Hdiff as Hhunk _ _ _ _. by rewrite Hhunk.
Qed.

Lemma thread_text_witness :
  @renderThread sampleFormat {| Comments := [sampleComment 1 10 None 7] |}
  = @renderThread sampleFormat {| Comments := [sampleComment 2 10 (Some 5) 9] |}
  ∧ sampleComment 1 10 None 7 ≠ sampleComment 2 10 (Some 5) 9.
Proof.
  split; [|done].
  apply (@thread_text_depends_only_on_what_is_shown sampleFormat); reflexivity.
Defined.

Lemma attached_review threads reviewComments reviews review :
  review ∈ attachToReviews threads reviewComments reviews →
  Z.of_nat (length reviewComments) < 2 ^ 63 →
  Review_Threads review
  = filter (λ thread, firstReviewID thread = Some (Review_ID review)) threads
  ∧ Review_ReplyCount review
    = Z.of_nat (length (repliesOwnedBy (Review_ID review) reviewComments)).
Proof.
  unfold attachToReviews. intros Hin Hlen.
  apply list_elem_of_fmap in Hin as (r0 & -> & _). simpl.
  by rewrite threadsByReview_lookup, replyCountByReview_lookup.
Qed.

(** X8.  A review annotated by [LoadPR] that has no body and no thread
    filed under it is rendered on one line: the head alone when it owns no
    reply, and otherwise the head with the number of review comments that
    carry a parent reference and name the review as their owner, as
    "1 comment" or "n comments".  The counter is a 64-bit [int]; the
    length of a slice is below 2^63. *)
Theorem review_without_body_and_thread_is_one_line `{TimeFormat}
    (threads : list CommentThread) (reviewComments : list Comment)
    (reviews : list Review) (review : Review) :
  Z.of_nat (length reviewComments) < 2 ^ 63 →
  review ∈ attachToReviews threads reviewComments reviews →
  Review_Body review = "" →
  filter (λ thread, firstReviewID thread = Some (Review_ID review)) threads = [] →
  renderReview review
  = Some ((Login (Review_User review) +:+ " " +:+ Review_State review +:+ " at "
           +:+ Format (Review_SubmittedAt review) layout)
          +:+ match length (repliesOwnedBy (Review_ID review) reviewComments) with
              | 0%nat => nl
              | 1%nat => " (1 comment under existing threads)" +:+ nl
              | n => " (" +:+ pretty (Z.of_nat n)
                     +:+ " comments under existing threads)" +:+ nl
              end).
Proof.
  intros Hlen Hin Hbody Hfiled.
  destruct (attached_review _ _ _ _ Hin Hlen) as [Hthreads Hcount].
  rewrite Hfiled in Hthreads. unfold renderReview. cbv zeta.
  rewrite Hthreads, Hcount, Hbody. cbn [length].
  rewrite !bool_decide_eq_true_2 by done. cbn [andb].
  destruct (length (repliesOwnedBy (Review_ID review) reviewComments))
    as [|[|n]] eqn:Hn.
  - rewrite bool_decide_eq_false_2 by lia. cbn [mapM writeEach].
    rewrite decide_False by (by intros []). simpl. by rewrite !string_app_nil_r.
  - rewrite bool_decide_eq_true_2 by lia. by rewrite decide_True by lia.
  - rewrite bool_decide_eq_true_2 by lia. by rewrite decide_False by lia.
Qed.

Lemma review_one_line_witness :
  ∃ review,
    attachToReviews [] [sampleComment 2 11 (Some 1) 7] [sampleReview 7 20] = [review]
    ∧ @renderReview sampleFormat review
      = Some ("octocat COMMENTED at 20 (1 comment under existing threads)" +:+ nl).
Proof.
  eexists. split; [reflexivity|].
  rewrite (@review_without_body_and_thread_is_one_line sampleFormat
             [] [sampleComment 2 11 (Some 1) 7] [sampleReview 7 20]);
    [reflexivity|vm_compute; reflexivity|apply list_elem_of_singleton; reflexivity
    |reflexivity|reflexivity].
Defined.

Lemma renderItem_itemOf `{TimeFormat} pr item :
  itemOf pr item → ∃ block, renderItem item = Some block ∧ rendersAs item block.
Proof.
  unfold rendersAs.
  intros [(comment & _ & ->)|[(review & _ & ->)|(commit & _ & ->)]].
  - eexists. split; [reflexivity|]. left. eauto.
  - destruct (renderReview_Some review) as [block Hblock].
    exists block. split; [exact Hblock|]. right. left. eauto.
  - destruct (renderCommit_Some commit) as [block Hblock].
    exists block. split; [exact Hblock|]. right. right. eauto.
Qed.

Lemma buildTimeline_perm {sorter : SliceSorter} `{!SorterContract sorter} pr :
  buildTimeline pr
  ≡ₚ map commentItem (PR_Comments pr) ++ map reviewItem (PR_Reviews pr)
     ++ map commitItem (PR_Commits pr).
Proof. unfold buildTimeline. by rewrite sortSlice_perm, unsortedTimeline_concat. Qed.

Lemma buildTimeline_itemOf {sorter : SliceSorter} `{!SorterContract sorter} pr :
  Forall (itemOf pr) (buildTimeline pr).
Proof.
  rewrite buildTimeline_perm, !Forall_app. unfold itemOf.
  repeat split; apply Forall_forall; intros it Hit;
    apply list_elem_of_fmap in Hit as (x & -> & Hx); eauto 6.
Qed.

Lemma Forall2_default_fmap {A B : Type} (f : A → option B) (P : A → B → Prop)
    (d : B) l :
  Forall (λ x, ∃ y, f x = Some y ∧ P x y) l →
  Forall2 (λ x y, f x = Some y ∧ P x y) l (map (λ x, default d (f x)) l).
Proof.
  induction 1 as [|x l (y & Hy & HP) _ IH]; constructor; [|done]. by rewrite Hy.
Qed.

(** X9.  [RenderPR] never panics: no nil pointer is dereferenced and no
    slice is out of range.  It writes the header, a rule of 80 dashes and
    then, for each timeline item in timeline order, a block followed by a
    rule; the block of an item is the rendering of the comment, review or
    commit it is tagged for, and the blocks are, up to order, the
    renderings of all comments, reviews and commits of the pull request,
    each once.  [sort.Slice] enters through what it documents. *)
Theorem RenderPR_writes_every_record_once
    {sorter : SliceSorter} `{!SorterContract sorter} `{TimeFormat} (pr : PullRequest) :
  ∃ blocks reviewTexts commitTexts,
    RenderPR pr
    = Some (renderHeader pr +:+ separator
            +:+ writeEach (λ block, block +:+ separator) blocks)
    ∧ Forall2 rendersAs (buildTimeline pr) blocks
    ∧ Forall2 (λ review text, renderReview review = Some text)
              (PR_Reviews pr) reviewTexts
    ∧ Forall2 (λ commit text, renderCommit commit = Some text)
              (PR_Commits pr) commitTexts
    ∧ blocks ≡ₚ map renderIssueComment (PR_Comments pr) ++ reviewTexts ++ commitTexts.
Proof.
  set (text := λ item, default "" (renderItem item)).
  assert (Hall : Forall2 (λ item block, renderItem item = Some block
                                        ∧ rendersAs item block)
                         (buildTimeline pr) (map text (buildTimeline pr))).
  { apply Forall2_default_fmap. eapply Forall_impl; [apply buildTimeline_itemOf|].
    intros item Hitem. by apply (renderItem_itemOf pr). }
  exists (map text (buildTimeline pr)),
         (map (λ review, default "" (renderReview review)) (PR_Reviews pr)),
         (map (λ commit, default "" (renderCommit commit)) (PR_Commits pr)).
  split; [|split; [|split; [|split]]].
  - unfold RenderPR. rewrite (mapM_Some_2 renderItem _ (map text (buildTimeline pr))).
    + done.
    + eapply Forall2_impl; [exact Hall|]. by intros item block [? _].
  - eapply Forall2_impl; [exact Hall|]. by intros item block [_ ?].
  - eapply Forall2_impl; [apply (Forall2_default_fmap _ (λ _ _, True))|].
    + apply Forall_forall. intros review _.
      destruct (renderReview_Some review) as [block Hblock]. eauto.
    + by intros review block [? _].
  - eapply Forall2_impl; [apply (Forall2_default_fmap _ (λ _ _, True))|].
    + apply Forall_forall. intros commit _.
      destruct (renderCommit_Some commit) as [block Hblock]. eauto.
    + by intros commit block [? _].
  - rewrite buildTimeline_perm, !map_app, !map_map. done.
Qed.

Lemma RenderPR_witness :
  ∃ text, @RenderPR insertionSorter sampleFormat sampleTiedPR = Some text.
Proof.
  destruct (@RenderPR_writes_every_record_once insertionSorter
              insertionSorter_contract sampleFormat sampleTiedPR)
    as (blocks & _ & _ & Hrender & _).
  eexists. exact Hrender.
Defined.

(** ** Loading a pull request *)

(** X10.  [LoadPR(0)] is [LoadPR(n)] for the number [n] that
    [GetCurrentPR] finds for the current branch. *)
Theorem LoadPR_of_zero_loads_the_current_pull_request `{SliceSorter}
    (env : Environment) (fuel : nat) (repo : Repository) (client : RESTClient)
    (number : Z) :
  GetCurrentRepo env = inr repo →
  GetRESTClient env = inr client →
  GetCurrentPR env client repo = inr number →
  LoadPR env fuel 0 = LoadPR env fuel number.
Proof.
  intros Hrepo Hclient Hcurrent. unfold LoadPR. rewrite Hrepo, Hclient.
  rewrite decide_True by done. rewrite Hcurrent.
  by destruct (decide (number = 0)) as [->|Hne].
Qed.

Lemma LoadPR_of_zero_witness :
  LoadPR (H := insertionSorter) (sampleEnvironment sampleThreadInput) 4 0
  = LoadPR (H := insertionSorter) (sampleEnvironment sampleThreadInput) 4 1
  ∧ ∃ loaded,
      LoadPR (H := insertionSorter) (sampleEnvironment sampleThreadInput) 4 0
      = Some (inr loaded).
Proof.
  split.
  - by apply (@LoadPR_of_zero_loads_the_current_pull_request insertionSorter
                (sampleEnvironment sampleThreadInput) 4 sampleRepo
                (sampleClient sampleThreadInput) 1).
  - eexists. vm_compute. reflexivity.
Defined.

Lemma groupIntoThreads_total `{SliceSorter} fuel comments :
  Acyclic (commentByID comments) → (length comments < fuel)%nat →
  is_Some (groupIntoThreads fuel comments).
Proof.
  intros Hacyc Hfuel.
  destruct (groupLoop_total (S (length comments)) (commentByID comments)
              comments noGroups) as [st Hst].
  { intros c _. by apply effectiveRoot_ends. }
  assert (is_Some (groupIntoThreads (S (length comments)) comments))
    as [threads Hthreads].
  { unfold groupIntoThreads, keyedThreads. rewrite Hst. eauto. }
  exists threads. eapply groupIntoThreads_more_fuel; [done|lia].
Qed.

(** X11.  [LoadPR] returns a pull request, and no error, whenever the
    repository, the client and the requests for the pull request, its
    comments, reviews, review comments and commits succeed and no reply
    chain among the review comments is circular, whatever the check-run
    requests answer.  The result has the header fields of the fetched pull
    request, the fetched issue comments, the fetched reviews annotated
    with the threads of the review comments, and one commit for each commit
    response, with its hash, author and date, the first line of its
    message and the tally [FetchCommitChecks] gives for its hash. *)
Theorem LoadPR_returns_when_the_requests_succeed
    {sorter : SliceSorter} (env : Environment) (fuel : nat) (prNumber : Z)
    (repo : Repository) (client : RESTClient) (pr : PullRequest)
    (comments : list Comment) (reviews : list Review)
    (reviewComments : list Comment) (responses : list commitResponse) :
  prNumber ≠ 0 →
  GetCurrentRepo env = inr repo →
  GetRESTClient env = inr client →
  FetchPR client repo prNumber = inr pr →
  FetchPRComments client repo prNumber = inr comments →
  FetchPRReviews client repo prNumber = inr reviews →
  FetchAllReviewComments client repo prNumber = inr reviewComments →
  Get_commitResponses client
    (repoPath repo +:+ "pulls/" +:+ pretty prNumber +:+ "/commits") = inr responses →
  Acyclic (commentByID reviewComments) →
  (length reviewComments < fuel)%nat →
  ∃ loaded threads,
    LoadPR env fuel prNumber = Some (inr loaded)
    ∧ groupIntoThreads fuel reviewComments = Some threads
    ∧ PR_Number loaded = PR_Number pr
    ∧ PR_Title loaded = PR_Title pr
    ∧ PR_Body loaded = PR_Body pr
    ∧ PR_CreatedAt loaded = PR_CreatedAt pr
    ∧ PR_User loaded = PR_User pr
    ∧ PR_Comments loaded = comments
    ∧ PR_Reviews loaded = attachToReviews threads reviewComments reviews
    ∧ Forall2 (λ r commit,
                 Commit_SHA commit = Resp_SHA r
                 ∧ Commit_Author commit = Resp_Author r
                 ∧ Commit_CreatedAt commit = Resp_Commit_Committer_Date r
                 ∧ firstLineOf (Resp_Commit_Message r) (Commit_Message commit)
                 ∧ Commit_Checks commit = FetchCommitChecks client repo (Resp_SHA r))
              responses (PR_Commits loaded).
Proof.
  intros Hne Hrepo Hclient Hpr Hcomments Hreviews HreviewComments Hresponses
    Hacyc Hfuel.
  destruct (groupIntoThreads_total fuel reviewComments Hacyc Hfuel)
    as [threads Hthreads].
  destruct (mapM_commitOf responses) as (commits & Hcommits & Hall).
  unfold LoadPR. rewrite Hrepo, Hclient, decide_False by done.
  rewrite Hpr, Hcomments, Hreviews, HreviewComments.
  unfold annotateReviews. rewrite Hthreads.
  unfold FetchCommits. rewrite Hresponses, Hcommits. cbn [mbind option_bind].
  eexists _, threads. split; [reflexivity|]. cbn.
  repeat (split; [done|]).
  apply Forall2_fmap_r. eapply Forall2_impl; [exact Hall|].
  intros r commit Hcommit. simpl in Hcommit.
  destruct (commitOf_spec r) as (commit' & Hcommit' & HSHA & Hauthor & Hat & _ & Hline).
  rewrite Hcommit in Hcommit'. injection Hcommit' as <-. cbn.
  by rewrite HSHA.
Qed.

Lemma LoadPR_returns_witness :
  ∃ loaded,
    LoadPR (H := insertionSorter) (sampleEnvironment sampleThreadInput) 4 1
    = Some (inr loaded)
    ∧ map Commit_Message (PR_Commits loaded) = ["fix the walk"]
    ∧ map Commit_Checks (PR_Commits loaded) = [zeroCounts].
Proof.
  destruct (@LoadPR_returns_when_the_requests_succeed insertionSorter
              (sampleEnvironment sampleThreadInput) 4 1 sampleRepo
              (sampleClient sampleThreadInput) (samplePR [] [] [])
              sampleThreadInput [sampleReview 7 20] sampleThreadInput
              [sampleResponse])
    as (loaded & threads & Hload & _);
    [done|reflexivity..| |simpl; lia|].
  { apply (acyclic_by_walking _ 4). vm_compute. reflexivity. }
  exists loaded. split; [exact Hload|].
  vm_compute in Hload. injection Hload as <-. split; reflexivity.
Defined.

(** X12.  When the requests up to the review comments succeed and some
    parent reference among the review comments leads back to its own
    comment, [LoadPR] does not return, whatever the fuel. *)
Theorem LoadPR_does_not_return_on_a_circular_reply_chain
    {sorter : SliceSorter} (env : Environment) (fuel : nat) (prNumber : Z)
    (repo : Repository) (client : RESTClient) (pr : PullRequest)
    (comments : list Comment) (reviews : list Review)
    (reviewComments : list Comment) (x : Z) :
  prNumber ≠ 0 →
  GetCurrentRepo env = inr repo →
  GetRESTClient env = inr client →
  FetchPR client repo prNumber = inr pr →
  FetchPRComments client repo prNumber = inr comments →
  FetchPRReviews client repo prNumber = inr reviews →
  FetchAllReviewComments client repo prNumber = inr reviewComments →
  tc (parentOf (commentByID reviewComments)) x x →
  LoadPR env fuel prNumber = None.
Proof.
  intros Hne Hrepo Hclient Hpr Hcomments Hreviews HreviewComments Hcycle.
  unfold LoadPR. rewrite Hrepo, Hclient, decide_False by done.
  rewrite Hpr, Hcomments, Hreviews, HreviewComments.
  unfold annotateReviews.
  by rewrite (groupIntoThreads_on_cycle fuel reviewComments x Hcycle).
Qed.

Lemma LoadPR_circular_witness :
  LoadPR (H := insertionSorter)
         (sampleEnvironment [sampleComment 1 10 (Some 1) 7]) 1000 1 = None.
Proof.
  apply (@LoadPR_does_not_return_on_a_circular_reply_chain insertionSorter
           (sampleEnvironment [sampleComment 1 10 (Some 1) 7]) 1000 1 sampleRepo
           (sampleClient [sampleComment 1 10 (Some 1) 7]) (samplePR [] [] [])
           [sampleComment 1 10 (Some 1) 7] [sampleReview 7 20]
           [sampleComment 1 10 (Some 1) 7] 1);
    [done|reflexivity..|].
  by apply tc_once.
Defined.

(** ** Thread resolution: further properties *)

Lemma keyed_groups {sorter : SliceSorter} `{!SorterContract sorter}
    fuel comments keyed :
  keyedThreads fuel comments = Some keyed →
  map fst keyed ≡ₚ rootIDsOf comments
  ∧ Forall (λ kt, Comments kt.2
                  ≡ₚ foldl (groupOfStep fuel (commentByID comments) kt.1) [] comments)
           keyed.
Proof.
  unfold keyedThreads. cbv zeta.
  destruct (groupLoop fuel _ _ _) as [st|] eqn:Hloop; [|done]. intros [= <-].
  split.
  - by rewrite emitThreads_fst, sortSlice_perm, (groupLoop_rootIDsOf _ _ _ _ Hloop).
  - pose proof (emitThreads_sorted_groups
                  (sortSlice (lessRoot (commentByID comments)) (rootIDs st))
                  (rootToReplies st) (rootToReplies st) (λ _, reflexivity _))
      as Hall.
    induction Hall as [|k kt roots keyed (Hk & Hperm & _) _ IH]; constructor; [|done].
    rewrite Hperm, Hk, (groupLoop_repliesOf _ _ _ _ _ _ Hloop). done.
Qed.

(** X14.  [groupIntoThreads] returns as many threads as the input has
    comments without parent reference.  [sort.Slice] enters through what
    it documents. *)
Theorem one_thread_for_each_comment_without_parent
    {sorter : SliceSorter} `{!SorterContract sorter}
    (fuel : nat) (comments : list Comment) (threads : list CommentThread) :
  groupIntoThreads fuel comments = Some threads →
  length threads = length (filter (λ c, Comment_InReplyToID c = None) comments).
Proof.
  unfold groupIntoThreads.
  destruct (keyedThreads fuel comments) as [keyed|] eqn:Hkeyed; [|done].
  intros [= <-]. destruct (keyed_groups _ _ _ Hkeyed) as [Hroots _].
  rewrite length_map, <-(length_map fst), Hroots. unfold rootIDsOf.
  by rewrite length_map.
Qed.

Lemma one_thread_witness :
  ∃ threads,
    groupIntoThreads (H := insertionSorter) 4 sampleThreadInput = Some threads
    ∧ length threads = 1%nat.
Proof.
  eexists. split; [reflexivity|].
  rewrite (@one_thread_for_each_comment_without_parent insertionSorter
             insertionSorter_contract 4 sampleThreadInput _ eq_refl).
  reflexivity.
Defined.

(** X15.  Take a comment without parent reference that is the last such
    comment of its id.  There is a thread built for its id, and such a
    thread holds, up to order, that comment and the replies behind it in
    the input whose walk ends at its id, and nothing else: a reply that
    stands before it in the input is not in the thread. *)
Theorem thread_holds_its_root_and_the_replies_after_it
    {sorter : SliceSorter} `{!SorterContract sorter}
    (fuel : nat) (before : list Comment) (root : Comment) (after : list Comment)
    (keyed : list (Z * CommentThread)) :
  Comment_InReplyToID root = None →
  (∀ c, c ∈ after → Comment_InReplyToID c = None → Comment_ID c ≠ Comment_ID root) →
  keyedThreads fuel (before ++ root :: after) = Some keyed →
  (∃ kt, kt ∈ keyed ∧ kt.1 = Comment_ID root)
  ∧ ∀ kt, kt ∈ keyed → kt.1 = Comment_ID root →
      Comments kt.2
      ≡ₚ root :: filter (replyTo fuel (commentByID (before ++ root :: after))
                                 (Comment_ID root)) after.
Proof.
  intros Hroot Hlast Hkeyed.
  destruct (keyed_groups _ _ _ Hkeyed) as [Hroots Hgroups]. split.
  - assert (Hin : Comment_ID root ∈ map fst keyed).
    { rewrite Hroots. apply rootIDsOf_elem_of. exists root.
      split; [|done]. apply elem_of_app. right. apply elem_of_cons. by left. }
    apply list_elem_of_fmap in Hin as (kt & Hkt & Hin). eauto.
  - intros kt Hin Hkt. rewrite Forall_forall in Hgroups.
    rewrite (Hgroups kt Hin), Hkt.
    by rewrite (groupOf_after_root fuel _ (Comment_ID root) before root after []).
Qed.

Lemma thread_after_root_witness :
  ∃ keyed,
    keyedThreads (H := insertionSorter) 3
      [sampleComment 2 5 (Some 1) 7; sampleComment 1 10 None 7;
       sampleComment 3 11 (Some 1) 7] = Some keyed
    ∧ ∀ kt, kt ∈ keyed → kt.1 = 1 →
        Comments kt.2 ≡ₚ [sampleComment 1 10 None 7; sampleComment 3 11 (Some 1) 7].
Proof.
  destruct (keyedThreads (H := insertionSorter) 3
              [sampleComment 2 5 (Some 1) 7; sampleComment 1 10 None 7;
               sampleComment 3 11 (Some 1) 7]) as [keyed|] eqn:Hkeyed;
    [|by vm_compute in Hkeyed].
  exists keyed. split; [done|].
  apply (@thread_holds_its_root_and_the_replies_after_it insertionSorter
           insertionSorter_contract 3
           [sampleComment 2 5 (Some 1) 7] (sampleComment 1 10 None 7)
           [sampleComment 3 11 (Some 1) 7] keyed); [done| |done].
  intros c Hc. apply list_elem_of_singleton in Hc as ->. done.
Defined.

Lemma walk_stops fuel m r k : walk fuel m r = Some k → walkStep m k = None.
Proof.
  revert r. induction fuel as [|fuel IH]; intros r; simpl; [done|].
  destruct (walkStep m r) as [next|] eqn:Hstep; [apply IH|]. by intros [= <-].
Qed.

(** X16.  The id a reply is grouped under is either the id of no fetched
    comment or the id of a fetched comment without parent reference. *)
Theorem reply_is_grouped_under_unfetched_or_parentless_id
    (fuel : nat) (comments : list Comment) (c : Comment) (parentID k : Z) :
  Comment_InReplyToID c = Some parentID →
  effectiveRoot fuel (commentByID comments) c = Some k →
  k ∉ map Comment_ID comments
  ∨ ∃ root, root ∈ comments ∧ Comment_ID root = k ∧ Comment_InReplyToID root = None.
Proof.
  unfold effectiveRoot. intros -> Hwalk. apply walk_stops in Hwalk.
  unfold walkStep in Hwalk.
  destruct (commentByID comments !! k) as [root|] eqn:Hk.
  - right. apply commentByID_Some in Hk as [Hin Hid]. by exists root.
  - left. by apply commentByID_None.
Qed.

Lemma reply_grouping_witness :
  effectiveRoot 4 (commentByID sampleBrokenChain) (sampleComment 3 12 (Some 2) 7)
  = Some 99
  ∧ 99 ∉ map Comment_ID sampleBrokenChain.
Proof.
  split; [reflexivity|].
  destruct (reply_is_grouped_under_unfetched_or_parentless_id 4 sampleBrokenChain
              (sampleComment 3 12 (Some 2) 7) 2 99 eq_refl eq_refl)
    as [Hnot|(root & Hin & Hid & _)]; [done|].
  exfalso. unfold sampleBrokenChain in Hin.
  rewrite !elem_of_cons, elem_of_nil in Hin.
  destruct Hin as [->|[->|[]]]; discriminate Hid.
Defined.

(** X17.  Of the comments that carry one id, the lookup table of
    [groupIntoThreads] keeps the last. *)
Theorem lookup_table_keeps_the_last_comment_of_an_id
    (before : list Comment) (c : Comment) (after : list Comment) :
  (∀ d, d ∈ after → Comment_ID d ≠ Comment_ID c) →
  commentByID (before ++ c :: after) !! Comment_ID c = Some c.
Proof.
  intros Hafter. rewrite commentByID_lookup, filter_app, filter_cons.
  rewrite decide_True by done. rewrite (filter_none _ after) by done.
  apply last_snoc.
Qed.

Lemma lookup_table_witness :
  commentByID [sampleComment 1 10 None 7; sampleComment 1 11 None 8;
               sampleComment 2 12 None 7] !! 1
  = Some (sampleComment 1 11 None 8).
Proof.
  apply (lookup_table_keeps_the_last_comment_of_an_id
           [sampleComment 1 10 None 7] (sampleComment 1 11 None 8)
           [sampleComment 2 12 None 7]).
  intros d Hd. apply list_elem_of_singleton in Hd as ->. done.
Defined.

(** X18.  Every thread [groupIntoThreads] returns has a first comment, so
    the loop of [LoadPR] that fills [threadsByReview] skips none: the
    thread is filed under the review id of its first comment and under no
    other id. *)
Theorem every_thread_is_filed_under_one_review
    {sorter : SliceSorter} `{!SorterContract sorter}
    (fuel : nat) (comments : list Comment) (threads : list CommentThread)
    (thread : CommentThread) :
  groupIntoThreads fuel comments = Some threads →
  thread ∈ threads →
  ∃ k, firstReviewID thread = Some k
       ∧ ∀ k', thread ∈ default [] (threadsByReview threads !! k') ↔ k' = k.
Proof.
  unfold groupIntoThreads.
  destruct (keyedThreads fuel comments) as [keyed|] eqn:Hkeyed; [|done].
  intros [= <-] Hin. apply list_elem_of_fmap in Hin as (kt & -> & Hin).
  destruct (keyed_groups _ _ _ Hkeyed) as [Hroots Hgroups].
  rewrite Forall_forall in Hgroups. pose proof (Hgroups kt Hin) as Hgroup.
  assert (Hkey : kt.1 ∈ rootIDsOf comments).
  { rewrite <-Hroots. apply list_elem_of_fmap. eauto. }
  destruct (group_has_root fuel (commentByID comments) comments kt.1 Hkey)
    as (root & Hroot & _).
  rewrite <-Hgroup in Hroot.
  destruct (Comments kt.2) as [|first rest] eqn:Hcomments.
  { by apply elem_of_nil in Hroot. }
  exists (Comment_PullRequestReviewID first).
  assert (Hfirst : firstReviewID kt.2 = Some (Comment_PullRequestReviewID first)).
  { unfold firstReviewID. by rewrite Hcomments. }
  split; [done|]. intros k'.
  rewrite threadsByReview_lookup, list_elem_of_filter, Hfirst. split.
  - by intros [[= ->] _].
  - intros ->. split; [done|]. apply list_elem_of_fmap. eauto.
Qed.

Lemma thread_filing_witness :
  ∃ threads thread,
    groupIntoThreads (H := insertionSorter) 4 sampleThreadInput = Some threads
    ∧ thread ∈ threads
    ∧ thread ∈ default [] (threadsByReview threads !! 7).
Proof.
  eexists _, {| Comments := [sampleComment 1 10 None 7; sampleComment 2 11 (Some 1) 7] |}.
  split; [reflexivity|].
  assert (Hin : {| Comments := [sampleComment 1 10 None 7;
                                sampleComment 2 11 (Some 1) 7] |}
                ∈ [{| Comments := [sampleComment 1 10 None 7;
                                   sampleComment 2 11 (Some 1) 7] |}])
    by (apply list_elem_of_singleton; reflexivity).
  split; [exact Hin|].
  destruct (@every_thread_is_filed_under_one_review insertionSorter
              insertionSorter_contract 4 sampleThreadInput _ _ eq_refl Hin)
    as (k & Hk & Hfiled).
  apply Hfiled. by injection Hk.
Defined.

(** X19.  The threads stand in the order [sort.Slice] gives their root
    ids: the creation time the lookup table has for the root id never
    decreases from one thread to a later one. *)
Theorem threads_are_ordered_by_root_creation_time
    {sorter : SliceSorter} `{!SorterContract sorter}
    (fuel : nat) (comments : list Comment) (keyed : list (Z * CommentThread)) :
  keyedThreads fuel comments = Some keyed →
  StronglySorted (λ a b, createdAtOf (commentByID comments) a
                         ≤ createdAtOf (commentByID comments) b)
                 (map fst keyed).
Proof.
  unfold keyedThreads. cbv zeta.
  destruct (groupLoop fuel _ _ _) as [st|]; [|done]. intros [= <-].
  rewrite emitThreads_fst.
  apply (sortSlice_by_key (createdAtOf (commentByID comments))).
Qed.

Lemma threads_order_witness :
  ∃ keyed,
    keyedThreads (H := insertionSorter) 3
      [sampleComment 1 10 None 7; sampleComment 2 5 None 7] = Some keyed
    ∧ StronglySorted
        (λ a b, createdAtOf (commentByID [sampleComment 1 10 None 7;
                                          sampleComment 2 5 None 7]) a
                ≤ createdAtOf (commentByID [sampleComment 1 10 None 7;
                                            sampleComment 2 5 None 7]) b)
        (map fst keyed)
    ∧ map fst keyed = [2; 1].
Proof.
  destruct (keyedThreads (H := insertionSorter) 3
              [sampleComment 1 10 None 7; sampleComment 2 5 None 7])
    as [keyed|] eqn:Hkeyed; [|by vm_compute in Hkeyed].
  exists keyed. split; [done|]. split.
  - by apply (@threads_are_ordered_by_root_creation_time insertionSorter
                insertionSorter_contract 3).
  - vm_compute in Hkeyed. by injection Hkeyed as <-.
Defined.

(** X20.  A thread holds nothing but input comments, and all of them are
    grouped under one id, the id of an input comment without parent
    reference. *)
Theorem thread_holds_input_comments_of_one_root
    {sorter : SliceSorter} `{!SorterContract sorter}
    (fuel : nat) (comments : list Comment) (threads : list CommentThread)
    (thread : CommentThread) :
  groupIntoThreads fuel comments = Some threads →
  thread ∈ threads →
  ∃ k, k ∈ rootIDsOf comments
       ∧ ∀ c, c ∈ Comments thread →
              c ∈ comments ∧ effectiveRoot fuel (commentByID comments) c = Some k.
Proof.
  unfold groupIntoThreads.
  destruct (keyedThreads fuel comments) as [keyed|] eqn:Hkeyed; [|done].
  intros [= <-] Hin. apply list_elem_of_fmap in Hin as (kt & -> & Hin).
  destruct (keyed_groups _ _ _ Hkeyed) as [Hroots _].
  exists kt.1. split.
  - rewrite <-Hroots. apply list_elem_of_fmap. eauto.
  - intros c Hc.
    destruct (emitted_comment_is_anchored fuel comments keyed kt c Hkeyed Hin Hc)
      as (? & _ & ?).
    done.
Qed.

Lemma thread_of_one_root_witness :
  ∃ threads,
    groupIntoThreads (H := insertionSorter) 4 sampleThreadInput = Some threads
    ∧ Forall (λ thread, ∃ k, ∀ c, c ∈ Comments thread → c ∈ sampleThreadInput
                ∧ effectiveRoot 4 (commentByID sampleThreadInput) c = Some k)
             threads.
Proof.
  destruct (groupIntoThreads (H := insertionSorter) 4 sampleThreadInput)
    as [threads|] eqn:Hthreads; [|by vm_compute in Hthreads].
  exists threads. split; [done|]. apply Forall_forall. intros thread Hin.
  destruct (@thread_holds_input_comments_of_one_root insertionSorter
              insertionSorter_contract 4 sampleThreadInput threads thread
              Hthreads Hin) as (k & _ & Hk).
  by exists k.
Defined.

(** X13.  An error [LoadPR] reports is a text, a colon and the error of
    [GetCurrentRepo], of [GetRESTClient], of [GetCurrentPR] or of a request
    of the client for a pull request, for comments, for reviews or for
    commits; the error of a check-run request is never reported. *)
Theorem LoadPR_reports_only_failed_requests `{SliceSorter}
    (env : Environment) (fuel : nat) (prNumber : Z) (message : error) :
  LoadPR env fuel prNumber = Some (inl message) →
  ∃ text err,
    message = text +:+ ": " +:+ err
    ∧ (GetCurrentRepo env = inl err
       ∨ GetRESTClient env = inl err
       ∨ (∃ client repo, GetCurrentPR env client repo = inl err)
       ∨ ∃ client path,
           GetRESTClient env = inr client
           ∧ (Get_PullRequest client path = inl err
              ∨ Get_Comments client path = inl err
              ∨ Get_Reviews client path = inl err
              ∨ Get_commitResponses client path = inl err)).
Proof.
  unfold LoadPR, wrapError.
  destruct (GetCurrentRepo env) as [err|repo] eqn:Hrepo.
  { intros [= <-]. eexists _, err. split; [reflexivity|]. by left. }
  destruct (GetRESTClient env) as [err|client] eqn:Hclient.
  { intros [= <-]. eexists _, err. split; [reflexivity|]. right. by left. }
  destruct (if decide (prNumber = 0) then GetCurrentPR env client repo
            else inr prNumber) as [err|number] eqn:Hnumber.
  { intros [= <-]. destruct (decide (prNumber = 0)); [|done].
    eexists _, err. split; [reflexivity|]. right. right. left. eauto. }
  destruct (FetchPR client repo number) as [err|pr] eqn:Hpr.
  { intros [= <-]. unfold FetchPR in Hpr. eexists _, err. split; [reflexivity|].
    do 3 right. eexists client, _. split; [done|]. left. exact Hpr. }
  destruct (FetchPRComments client repo number) as [err|comments] eqn:Hcomments.
  { intros [= <-]. unfold FetchPRComments in Hcomments.
    eexists _, err. split; [reflexivity|].
    do 3 right. eexists client, _. split; [done|]. right. left. exact Hcomments. }
  destruct (FetchPRReviews client repo number) as [err|reviews] eqn:Hreviews.
  { intros [= <-]. unfold FetchPRReviews in Hreviews.
    eexists _, err. split; [reflexivity|].
    do 3 right. eexists client, _. split; [done|]. right. right. left.
    exact Hreviews. }
  destruct (FetchAllReviewComments client repo number)
    as [err|reviewComments] eqn:HreviewComments.
  { intros [= <-]. unfold FetchAllReviewComments in HreviewComments.
    eexists _, err. split; [reflexivity|].
    do 3 right. eexists client, _. split; [done|]. right. left.
    exact HreviewComments. }
  destruct (annotateReviews fuel reviewComments reviews); [|done].
  unfold FetchCommits.
  destruct (Get_commitResponses client _) as [err|responses] eqn:Hresponses.
  { intros [= <-]. eexists _, err. split; [reflexivity|].
    do 3 right. eexists client, _. split; [done|]. do 3 right. exact Hresponses. }
  by destruct (mapM commitOf responses).
Qed.

Lemma LoadPR_error_witness :
  LoadPR (H := insertionSorter)
    {| GetCurrentRepo := inl "not a git repository";
       GetRESTClient := inr (sampleClient []);
       GetCurrentPR := λ _ _, inr 1 |} 1 1
  = Some (inl "error getting repository information: not a git repository")
  ∧ ∃ text err,
      "error getting repository information: not a git repository"
      = text +:+ ": " +:+ err.
Proof.
  split; [reflexivity|].
  destruct (@LoadPR_reports_only_failed_requests insertionSorter
              {| GetCurrentRepo := inl "not a git repository";
                 GetRESTClient := inr (sampleClient []);
                 GetCurrentPR := λ _ _, inr 1 |} 1 1 _ eq_refl)
    as (text & err & Hmessage & _).
  eauto.
Defined.

(** ** Orders without ties *)

(** Two arrangements of one list in ascending order of a key are the same
    list when the key tells the elements apart. *)
Lemma sorted_perm_unique {A : Type} (key : A → Z) (l1 l2 : list A) :
  (∀ a b, a ∈ l1 → b ∈ l1 → key a = key b → a = b) →
  StronglySorted (λ a b, key a ≤ key b) l1 →
  StronglySorted (λ a b, key a ≤ key b) l2 →
  l1 ≡ₚ l2 → l1 = l2.
Proof.
  revert l2. induction l1 as [|a l1 IH]; intros l2 Hinj Hs1 Hs2 Hperm.
  { by apply Permutation_nil_l in Hperm. }
  destruct l2 as [|b l2]; [by apply Permutation_nil_r in Hperm|].
  apply StronglySorted_inv in Hs1 as [Hs1 Ha].
  apply StronglySorted_inv in Hs2 as [Hs2 Hb].
  rewrite Forall_forall in Ha, Hb.
  assert (Hab : a = b).
  { assert (Ha2 : a ∈ b :: l2) by (rewrite <-Hperm; apply elem_of_cons; by left).
    assert (Hb1 : b ∈ a :: l1) by (rewrite Hperm; apply elem_of_cons; by left).
    apply elem_of_cons in Ha2 as [->|Ha2]; [done|].
    pose proof Hb1 as Hb1'.
    apply elem_of_cons in Hb1 as [->|Hb1]; [done|].
    apply Hinj; [apply elem_of_cons; by left|done|].
    pose proof (Ha b Hb1). pose proof (Hb a Ha2). lia. }
  subst b. f_equal. apply IH; [|done|done|by apply Permutation_cons_inv in Hperm].
  intros x y Hx Hy. apply Hinj; apply elem_of_cons; by right.
Qed.

Lemma sortSlice_unique (sorter1 sorter2 : SliceSorter)
    `{!SorterContract sorter1} `{!SorterContract sorter2}
    {A : Type} (key : A → Z) (l : list A) :
  (∀ a b, a ∈ l → b ∈ l → key a = key b → a = b) →
  sortSlice (SliceSorter := sorter1) (λ a b, Before (key a) (key b)) l
  = sortSlice (SliceSorter := sorter2) (λ a b, Before (key a) (key b)) l.
Proof.
  intros Hinj. apply (sorted_perm_unique key).
  - intros a b Ha Hb. rewrite sortSlice_perm in Ha, Hb. by apply Hinj.
  - apply (sortSlice_by_key key).
  - apply (sortSlice_by_key key).
  - by rewrite !sortSlice_perm.
Qed.

Lemma NoDup_fmap_inj_on {A B : Type} (f : A → B) (l : list A) a b :
  NoDup (map f l) → a ∈ l → b ∈ l → f a = f b → a = b.
Proof.
  induction l as [|x l IH]; intros Hnd Ha Hb Hf; [by apply elem_of_nil in Ha|].
  simpl in Hnd. apply NoDup_cons in Hnd as [Hx Hnd].
  apply elem_of_cons in Ha as [->|Ha], Hb as [->|Hb]; [done|..|by apply IH].
  - destruct Hx. rewrite Hf. by apply list_elem_of_fmap_2.
  - destruct Hx. rewrite <-Hf. by apply list_elem_of_fmap_2.
Qed.

(** X21.  When the timestamps of the comments, reviews and commits of a
    pull request are pairwise distinct, the timeline and the text
    [RenderPR] writes are the same for every sorting algorithm that keeps
    what [sort.Slice] documents: there is one ascending arrangement. *)
Theorem timeline_does_not_depend_on_the_sort_without_ties
    (sorter1 sorter2 : SliceSorter)
    `{!SorterContract sorter1} `{!SorterContract sorter2} `{TimeFormat}
    (pr : PullRequest) :
  NoDup (map Comment_CreatedAt (PR_Comments pr)
         ++ map Review_SubmittedAt (PR_Reviews pr)
         ++ map Commit_CreatedAt (PR_Commits pr)) →
  buildTimeline (H := sorter1) pr = buildTimeline (H := sorter2) pr
  ∧ RenderPR (H := sorter1) pr = RenderPR (H := sorter2) pr.
Proof.
  intros Hnd.
  assert (Hsame : buildTimeline (H := sorter1) pr = buildTimeline (H := sorter2) pr).
  { apply (sortSlice_unique sorter1 sorter2 CreatedAt).
    intros a b Ha Hb.
    apply (NoDup_fmap_inj_on CreatedAt (unsortedTimeline pr)); [|done..].
    by rewrite unsortedTimeline_concat, !map_app, !map_map. }
  split; [done|]. unfold RenderPR. by rewrite Hsame.
Qed.

Lemma timeline_without_ties_witness :
  buildTimeline (H := insertionSorter)
    (samplePR [sampleComment 1 5 None 0] [sampleReview 2 7] [sampleCommit "c01" 6])
  = buildTimeline (H := backwardSorter)
    (samplePR [sampleComment 1 5 None 0] [sampleReview 2 7] [sampleCommit "c01" 6]).
Proof.
  apply (timeline_does_not_depend_on_the_sort_without_ties
           insertionSorter backwardSorter
           (SorterContract0 := insertionSorter_contract)
           (SorterContract1 := backwardSorter_contract)
           (H := sampleFormat)
           (samplePR [sampleComment 1 5 None 0] [sampleReview 2 7]
                     [sampleCommit "c01" 6])).
  simpl.
  repeat (apply NoDup_cons; split;
          [rewrite ?elem_of_cons, elem_of_nil; intuition discriminate|]).
  apply NoDup_nil_2.
Defined.

Lemma emitThreads_unique (sorter1 sorter2 : SliceSorter)
    `{!SorterContract sorter1} `{!SorterContract sorter2} roots r :
  (∀ k a b, a ∈ repliesOf r k → b ∈ repliesOf r k →
            Comment_CreatedAt a = Comment_CreatedAt b → a = b) →
  emitThreads (H := sorter1) r roots = emitThreads (H := sorter2) r roots.
Proof.
  revert r. induction roots as [|k roots IH]; intros r Hinj; [done|].
  cbn [emitThreads].
  assert (Hsame : sortSlice (SliceSorter := sorter1) lessComment (repliesOf r k)
                  = sortSlice (SliceSorter := sorter2) lessComment (repliesOf r k)).
  { apply (sortSlice_unique sorter1 sorter2 Comment_CreatedAt), Hinj. }
  rewrite Hsame. f_equal. apply IH. intros k' a b.
  rewrite (repliesOf_sorted_in_place (sorter := sorter2)).
  case_decide; [|apply Hinj]. rewrite sortSlice_perm. apply Hinj.
Qed.

(** X22.  When the creation times of the input comments are pairwise
    distinct, [groupIntoThreads] returns the same threads for every
    sorting algorithm that keeps what [sort.Slice] documents. *)
Theorem threads_do_not_depend_on_the_sort_without_ties
    (sorter1 sorter2 : SliceSorter)
    `{!SorterContract sorter1} `{!SorterContract sorter2}
    (fuel : nat) (comments : list Comment) :
  NoDup (map Comment_CreatedAt comments) →
  groupIntoThreads (H := sorter1) fuel comments
  = groupIntoThreads (H := sorter2) fuel comments.
Proof.
  intros Hnd. unfold groupIntoThreads, keyedThreads. cbv zeta.
  destruct (groupLoop fuel (commentByID comments) noGroups comments)
    as [st|] eqn:Hloop; [|done].
  assert (Hroots : sortSlice (SliceSorter := sorter1)
                     (lessRoot (commentByID comments)) (rootIDs st)
                   = sortSlice (SliceSorter := sorter2)
                       (lessRoot (commentByID comments)) (rootIDs st)).
  { apply (sortSlice_unique sorter1 sorter2 (createdAtOf (commentByID comments))).
    intros a b Ha Hb. unfold createdAtOf.
    destruct (rootIDs_resolved fuel comments st a Hloop Ha) as [ca Hca].
    destruct (rootIDs_resolved fuel comments st b Hloop Hb) as [cb Hcb].
    rewrite Hca, Hcb. intros Hat.
    apply commentByID_Some in Hca as [Hina <-], Hcb as [Hinb <-].
    f_equal. by apply (NoDup_fmap_inj_on Comment_CreatedAt comments). }
  rewrite Hroots. do 2 f_equal.
  apply emitThreads_unique; [done..|]. intros k a b Ha Hb.
  rewrite (groupLoop_repliesOf _ _ _ _ _ k Hloop) in Ha, Hb.
  apply groupOf_elem_of in Ha as [Ha|[Ha _]]; [by apply elem_of_nil in Ha|].
  apply groupOf_elem_of in Hb as [Hb|[Hb _]]; [by apply elem_of_nil in Hb|].
  by apply (NoDup_fmap_inj_on Comment_CreatedAt comments).
Qed.

Lemma threads_without_ties_witness :
  groupIntoThreads (H := insertionSorter) 4 sampleThreadInput
  = groupIntoThreads (H := backwardSorter) 4 sampleThreadInput.
Proof.
  apply (threads_do_not_depend_on_the_sort_without_ties
           insertionSorter backwardSorter
           (SorterContract0 := insertionSorter_contract)
           (SorterContract1 := backwardSorter_contract) 4 sampleThreadInput).
  simpl.
  repeat (apply NoDup_cons; split;
          [rewrite ?elem_of_cons, elem_of_nil; intuition discriminate|]).
  apply NoDup_nil_2.
Defined.

(** X23.  [renderReview] prints the reply count of a review only when
    the review has neither a body nor a thread: with a body or a thread,
    what it writes is the same for every reply count. *)
Theorem reply_count_is_printed_for_a_bare_review_only `{TimeFormat}
    (review : Review) (count : Z) :
  Review_Body review ≠ "" ∨ Review_Threads review ≠ [] →
  renderReview (setAnnotations (Review_Threads review) count review)
  = renderReview review.
Proof.
  intros Hshown. unfold renderReview. cbv zeta. simpl.
  destruct Hshown as [Hbody|Hthreads].
  - by rewrite !(bool_decide_eq_false_2 (Review_Body review = "")).
  - rewrite !(bool_decide_eq_false_2 (length (Review_Threads review) = 0%nat));
      [by rewrite !andb_false_r|].
    by destruct (Review_Threads review).
Qed.

Lemma reply_count_witness :
  @renderReview sampleFormat
    (setAnnotations [{| Comments := [sampleComment 1 10 None 7] |}] 5
                    (sampleReview 7 20))
  = @renderReview sampleFormat
      (setAnnotations [{| Comments := [sampleComment 1 10 None 7] |}] 0
                      (sampleReview 7 20)).
Proof.
  apply (@reply_count_is_printed_for_a_bare_review_only sampleFormat
           (setAnnotations [{| Comments := [sampleComment 1 10 None 7] |}] 0
                           (sampleReview 7 20)) 5).
  right. done.
Defined.
